(** * Section extrapolation and topography mask of [oceans/ctd/ctd.py]

    A shallow embedding of [extrap_sec] and [gen_topomask] and of the
    cumulative-distance expression both of them evaluate.

    Cells are IEEE binary64 numbers: Rocq's primitive floats, which have
    the arithmetic of numpy's [float64] (round to nearest even, a division
    by zero gives an infinity or a NaN) and a single NaN.  A missing cell
    is a NaN.  The grid [data] is a mutable object that [extrap_sec]
    updates in place; an exception leaves it as the statements before it
    made it.

    The functions of gsw, scipy and numpy that the source calls are not
    part of the repository.  [gsw.distance], [gsw.z_from_p], the mean of
    an array and the in-domain values of scipy's interpolant are
    parameters; [np.cumsum], [np.isnan], the maximum of an array,
    [np.arange] and the out-of-domain answer of [interp1d] are written out
    as these libraries define them.

    The second part of the model embeds the functions of the file that
    work on series and frames: [normalize_names], [find_outlier],
    [despike], [asof], [get_maxdepth], [check_index], [SP_from_C],
    [CT_from_t], [smooth], the loop of [from_cnv] over the header of a
    Seabird file, and the arrays [plot_section] computes before it
    draws. *)

From Stdlib Require Import List ZArith Lia Bool Floats.
From Stdlib Require Uint63 Ascii String.
Import ListNotations.

Local Open Scope float_scope.

(** ** Numbers *)

(** [np.isnan]. *)
Definition isnan (x : float) : bool := PrimFloat.is_nan x.

(** The literal [1e3] of [gsw.distance(lon, lat)[0] / 1e3]. *)
Definition km : float := 1000.

(** ** A two-dimensional float array

    [rows] holds the array row by row (row = vertical level, column =
    station); [ncols] is [data.shape[1]], kept apart so that an array with
    no row still has its number of columns. *)
Record ndarray : Type := mkarr { ncols : nat; rows : list (list float) }.

Definition nrows (g : ndarray) : nat := length (rows g).

(** The shape invariant of a numpy array: every row has [ncols] cells. *)
Definition rectangular (g : ndarray) : Prop :=
  Forall (fun r => length r = ncols g) (rows g).

(** Reading cell [j] of a row; [nan] stands for a cell that is not there. *)
Definition cell (r : list float) (j : nat) : float := nth j r nan.

(** Writing cell [j] of a row (nothing happens past the end of the row;
    the callers check the index first, as numpy does). *)
Fixpoint upd (j : nat) (v : float) (r : list float) : list float :=
  match r, j with
  | [], _ => []
  | _ :: t, O => v :: t
  | x :: t, S j' => x :: upd j' v t
  end.

(** [data[i, j]]. *)
Definition get (g : ndarray) (i j : nat) : float := cell (nth i (rows g) []) j.

(** The last row, [data[-1, :]]: index [-1] is index [nrows - 1], and is
    out of bounds when there is no row. *)
Definition last_row (g : ndarray) : option (list float) :=
  match nrows g with
  | O => None
  | S k => Some (nth k (rows g) [])
  end.

(** One assignment through a boolean or index mask over the rows: the same
    function rewrites every row. *)
Definition map_rows (f : list float -> list float) (g : ndarray) : ndarray :=
  mkarr (ncols g) (map f (rows g)).

(** ** Exceptions and the array as state

    A computation runs on the caller's array and leaves it as it is when an
    exception is raised: what was written before the exception stays
    written. *)
Inductive exn : Type := IndexError | ValueError.

Inductive result (A : Type) : Type :=
| Normal (a : A)
| Raised (e : exn).
Arguments Normal {A} a.
Arguments Raised {A} e.

Definition M (A : Type) : Type := ndarray -> ndarray * result A.

Definition ret {A} (a : A) : M A := fun g => (g, Normal a).

Definition raise {A} (e : exn) : M A := fun g => (g, Raised e).

Definition bind {A B} (m : M A) (k : A -> M B) : M B :=
  fun g => match m g with
           | (g', Normal a) => k a g'
           | (g', Raised e) => (g', Raised e)
           end.

Definition read {A} (f : ndarray -> A) : M A := fun g => (g, Normal (f g)).

Definition write (f : ndarray -> ndarray) : M unit := fun g => (f g, Normal tt).

Declare Scope ctd_scope.
Delimit Scope ctd_scope with ctd.
Notation "x <- m ;; k" := (bind m (fun x => k))
  (at level 61, m at next level, right associativity) : ctd_scope.
Notation "m ;; k" := (bind m (fun _ => k))
  (at level 61, right associativity) : ctd_scope.

(** An index of a one-dimensional array: [a[k]] raises [IndexError] past
    the end. *)
Definition index (a : list float) (k : nat) : M float :=
  match nth_error a k with
  | Some v => ret v
  | None => raise IndexError
  end.

(** A column index [j >= 0] of [data] is in bounds when [j < data.shape[1]]. *)
Definition column (j : nat) : M unit :=
  fun g => if Nat.ltb j (ncols g) then (g, Normal tt) else (g, Raised IndexError).

(** ** Cumulative distance *)

(** [np.cumsum]: the running sums, accumulated from left to right. *)
Fixpoint cumsum_from (acc : float) (l : list float) : list float :=
  match l with
  | [] => []
  | d :: t => (acc + d) :: cumsum_from (acc + d) t
  end.

Definition cumsum (l : list float) : list float :=
  match l with
  | [] => []
  | d :: t => d :: cumsum_from d t
  end.

Section Ctd.

(** [gsw.distance(lon, lat)[0]]: the distances in metres between
    consecutive stations.  The function belongs to the gsw package, which
    the repository imports; it is a parameter here. *)
Variable gsw_distance : list float -> list float -> list float.

(** [np.r_[0, np.cumsum(gsw.distance(lon, lat)[0] / 1e3)]], which
    [gen_topomask] and [plot_section] spell [np.append(0, ...)]. *)
Definition cumulative_distance (lon lat : list float) : list float :=
  0 :: cumsum (map (fun d => d / km) (gsw_distance lon lat)).

(** ** [extrap_sec] *)

(** [fnan = np.isnan(data[:, -2]); data[fnan, -2] = data[fnan, -1]] on one
    row, [c] being the index of the second-to-last column. *)
Definition seed_row (c : nat) (r : list float) : list float :=
  if isnan (cell r c) then upd c (cell r (S c)) r else r.

(** The value the loop body stores at a missing cell of column [col]. *)
Definition extrapolated (fd d0 d1 d2 : float) (r : list float) (col : nat) : float :=
  cell r (col + 1)
  - fd * (((cell r (col + 2) - cell r (col + 1)) / (d2 - d1)) * (d1 - d0)).

(** [a = np.where(np.isnan(data[:, col])); data[a, col] = ...] on one row. *)
Definition fill_row (fd d0 d1 d2 : float) (col : nat) (r : list float) : list float :=
  if isnan (cell r col) then upd col (extrapolated fd d0 d1 d2 r col) r else r.

(** The two statements before the loop.  [-2] and [-1] are in bounds when
    the array has at least two columns. *)
Definition seed : M unit :=
  (n <- read ncols ;;
   if Nat.ltb n 2 then raise IndexError
   else write (map_rows (seed_row (n - 2))))%ctd.

(** [np.isnan(data[-1, col])]. *)
Definition bottom_isnan (col : nat) : M bool :=
  (column col ;;
   r <- read last_row ;;
   match r with
   | Some r => ret (isnan (cell r col))
   | None => raise IndexError
   end)%ctd.

(** The body of the loop for one column.  The right-hand side is evaluated
    before anything is stored, so an index out of bounds leaves the array
    as it was. *)
Definition fill_column (dist : list float) (fd : float) (col : nat) : M unit :=
  (b <- bottom_isnan col ;;
   if b then
     column (col + 1) ;;
     column (col + 2) ;;
     d2 <- index dist (col + 2) ;;
     d1 <- index dist (col + 1) ;;
     d0 <- index dist col ;;
     write (map_rows (fill_row fd d0 d1 d2 col))
   else ret tt)%ctd.

(** [for col in range(k, 0, -1): ...]. *)
Fixpoint fill_columns (dist : list float) (fd : float) (k : nat) : M unit :=
  match k with
  | O => ret tt
  | S k' => (fill_column dist fd k ;; fill_columns dist fd k')%ctd
  end.

(** [extrap_sec(data, lon, lat, fd)], run on the caller's array.  The
    function ends in [return data]: the value it returns is the array it
    was given, in its final state. *)
Definition extrap_sec (lon lat : list float) (fd : float) : M unit :=
  let dist := cumulative_distance lon lat in
  (seed ;; fill_columns dist fd (length lon - 2))%ctd.

End Ctd.

Arguments cumulative_distance gsw_distance lon lat : assert.
Arguments extrap_sec gsw_distance lon lat fd _ : assert.

(** ** The caller's view

    Python passes the array by reference.  A heap maps references to
    arrays; a call runs [extrap_sec] on the array [data] refers to, leaves
    the final state of that array in the heap, and returns [data] itself
    ([return data]). *)
Definition ref : Type := nat.

Definition heap : Type := ref -> ndarray.

Definition store (h : heap) (p : ref) (g : ndarray) : heap :=
  fun q => if Nat.eqb q p then g else h q.

Definition call_extrap_sec (gsw_distance : list float -> list float -> list float)
    (h : heap) (data : ref) (lon lat : list float) (fd : float)
  : heap * result ref :=
  match extrap_sec gsw_distance lon lat fd (h data) with
  | (g', Normal _) => (store h data g', Normal data)
  | (g', Raised e) => (store h data g', Raised e)
  end.

(** ** [gen_topomask] *)

(** [h[-1]]: the last element, [IndexError] on an empty array. *)
Definition last_elt (l : list float) : result float :=
  match l with
  | [] => Raised IndexError
  | a :: t => Normal (last t a)
  end.

(** [np.maximum] on two numbers, as numpy's reduction applies it: a NaN on
    either side is kept. *)
Definition np_maximum (a b : float) : float :=
  if (b <=? a) || isnan a then a else b.

(** [x.max()]: [ValueError] on an empty array. *)
Definition np_max (l : list float) : result float :=
  match l with
  | [] => Raised ValueError
  | a :: t => Normal (fold_left np_maximum t a)
  end.

(** The ceiling of a float as an integer; none for a NaN or an infinity. *)
Definition ceil_to_Z (f : float) : option Z :=
  match Prim2SF f with
  | S754_zero _ => Some 0%Z
  | S754_finite s m e =>
      let v := if s then Zneg m else Zpos m in
      Some (if (0 <=? e)%Z then v * 2 ^ e else - ((- v) / 2 ^ (- e)))%Z
  | S754_infinity _ | S754_nan => None
  end.

(** An array index as a float. *)
Definition of_nat (i : nat) : float := of_uint63 (Uint63.of_Z (Z.of_nat i)).

(** [np.arange(start, stop, step)] on floats, as numpy computes it: the
    length is the ceiling of [(stop - start) / step] evaluated in double
    precision (an empty array when it is not positive; numpy refuses a NaN
    or an infinite length); the first two elements are [start] and
    [start + step], and element [i] is [start + i * delta] where [delta] is
    the difference of the first two. *)
Definition arange (start stop step : float) : result (list float) :=
  match ceil_to_Z ((stop - start) / step) with
  | None => Raised ValueError
  | Some n =>
      let next := start + step in
      let delta := next - start in
      Normal (map (fun i => match i with
                            | O => start
                            | S O => next
                            | _ => start + of_nat i * delta
                            end)
                  (seq 0 (Z.to_nat n)))
  end.

(** The [kind] of interpolation that scipy's [interp1d] accepts. *)
Inductive interp_kind : Type :=
  Linear | Nearest | Zero | Slinear | Quadratic | Cubic.

Section Topo.

Variable gsw_distance : list float -> list float -> list float.

(** [gsw.z_from_p(p, lat)]: height (negative downwards) from pressure, of
    the gsw package; a parameter. *)
Variable gsw_z_from_p : list float -> float -> list float.

(** [lat.mean()], numpy's mean of an array; a parameter. *)
Variable np_mean : list float -> float.

(** The value at an in-domain point of scipy's interpolant of the given
    kind through the points [(x, y)]; a parameter. *)
Variable interpolate : interp_kind -> list float -> list float -> float -> float.

(** [interp1d(x, y, kind=kind, bounds_error=False, fill_value=v)] called on
    one point: scipy answers [fill_value] below [x[0]] and above [x[-1]]
    ([x], a cumulative distance, is given in increasing order).  The
    checks scipy makes on [x], [y] and [kind] when it builds the
    interpolant are not modelled. *)
Definition interp1d (kind : interp_kind) (x y : list float) (fill_value : float)
  : float -> float :=
  fun q => if (q <? hd nan x) || (last x nan <? q) then fill_value
           else interpolate kind x y q.

(** [h = -gsw.z_from_p(h, lat.mean())]: the depth of each station. *)
Definition depths (h lat : list float) : list float :=
  map PrimFloat.opp (gsw_z_from_p h (np_mean lat)).

(** The interpolant [Ih] of [gen_topomask]. *)
Definition topo_interpolant (h lon lat : list float) (kind : interp_kind)
  : result (float -> float) :=
  let x := cumulative_distance gsw_distance lon lat in
  match last_elt (depths h lat) with
  | Raised e => Raised e
  | Normal fill => Normal (interp1d kind x (depths h lat) fill)
  end.

(** [gen_topomask(h, lon, lat, dx, kind)]; the argument [plot] is not
    used by the function. *)
Definition gen_topomask (h lon lat : list float) (dx : float) (kind : interp_kind)
  : result (list float * list float) :=
  let x := cumulative_distance gsw_distance lon lat in
  match topo_interpolant h lon lat kind with
  | Raised e => Raised e
  | Normal Ih =>
      match np_max x with
      | Raised e => Raised e
      | Normal xmax =>
          match arange 0 (xmax + dx) dx with
          | Raised e => Raised e
          | Normal xm => Normal (xm, map Ih xm)
          end
      end
  end.

End Topo.

Arguments interp1d interpolate kind x y fill_value _ : assert.
Arguments depths gsw_z_from_p np_mean h lat : assert.
Arguments topo_interpolant gsw_distance gsw_z_from_p np_mean interpolate
  h lon lat kind : assert.
Arguments gen_topomask gsw_distance gsw_z_from_p np_mean interpolate
  h lon lat dx kind : assert.

(** ** Stand-ins and sample data for concrete runs *)

(** A stand-in for [gsw.distance]: it answers the given distances
    whatever the coordinates. *)
Definition spaced (d : list float) : list float -> list float -> list float :=
  fun _ _ => d.

(** Stand-ins for the other external functions: height is minus the
    pressure, the mean is not looked at, and inside the domain the
    interpolant answers the depth of the first station. *)
Definition plain_z_from_p : list float -> float -> list float :=
  fun p _ => map PrimFloat.opp p.

Definition any_mean : list float -> float := fun _ => 0.

Definition step_interpolate
  : interp_kind -> list float -> list float -> float -> float :=
  fun _ _ y _ => hd nan y.

(** A section of four stations and two levels; the two shallow stations
    on the left miss the lower level. *)
Definition shelf : ndarray :=
  mkarr 4 [[1; 2; 3; 4]; [nan; nan; 5; 7]].

(** [shelf] after [extrap_sec] with [fd = 1] and stations 1, 2 and 0.5 km
    apart. *)
Definition shelf_filled : ndarray :=
  mkarr 4 [[1; 2; 3; 4]; [nan; -3; 5; 7]].

(** A grid that [extrap_sec] returns as it is, missing cells included. *)
Definition ragged : ndarray :=
  mkarr 4 [[nan; nan; nan; nan]; [nan; 2; 3; 4]].

(** Three stations whose last one misses the only level. *)
Definition deep_gap : ndarray := mkarr 3 [[1; nan; nan]].

(** Two stations on one level, before and after the seed. *)
Definition pair_gap : ndarray := mkarr 2 [[nan; 2]].

Definition pair_gap_seeded : ndarray := mkarr 2 [[2; 2]].

(** One station, and two stations, on two levels. *)
Definition lone_station : ndarray := mkarr 1 [[nan]; [7]].

Definition station_pair : ndarray := mkarr 2 [[4; 6]; [nan; 8]].

Definition station_pair_seeded : ndarray := mkarr 2 [[4; 6]; [8; 8]].

(** A heap in which every reference, [0] among them, is the section
    [shelf]. *)
Definition shelf_heap : heap := fun _ => shelf.

(** The double nearest to one tenth, and its first multiples as numpy
    computes them. *)
Definition tenth : float := 0x1.999999999999ap-4.

Definition two_tenths : float := 0x1.999999999999ap-3.

Definition three_tenths : float := 0x1.3333333333334p-2.

(** A distance in metres just over one kilometre, and the double that
    follows 1. *)
Definition just_over_1000 : float := 0x1.f400000000002p+9.

Definition next_after_one : float := 0x1.0000000000001p+0.

(** * Vocabulary of the statements *)

(** Two arrays of the same shape: same number of columns, and the same
    number of cells in every row. *)
Definition same_shape (g g' : ndarray) : Prop :=
  ncols g' = ncols g /\ map (@length float) (rows g') = map (@length float) (rows g).

(** Every cell that holds a number in [g] holds the same number in [g']. *)
Definition keeps_data (g g' : ndarray) : Prop :=
  forall i j, isnan (get g i j) = false -> get g' i j = get g i j.

(** The columns selected by [P] are the same in [g] and [g']. *)
Definition untouched (P : nat -> Prop) (g g' : ndarray) : Prop :=
  forall i j, P j -> get g' i j = get g i j.

(** The outcome of the loop body on column [col], as a relation between
    the array before and the array and result after. *)
Inductive column_step (dist : list float) (fd : float) (col : nat) (g : ndarray)
  : ndarray -> result unit -> Prop :=
| step_raise : column_step dist fd col g g (Raised IndexError)
| step_skip r :
    (col < ncols g)%nat -> last_row g = Some r -> isnan (cell r col) = false ->
    column_step dist fd col g g (Normal tt)
| step_fill r d0 d1 d2 :
    (col + 2 < ncols g)%nat -> last_row g = Some r -> isnan (cell r col) = true ->
    nth_error dist col = Some d0 -> nth_error dist (col + 1) = Some d1 ->
    nth_error dist (col + 2) = Some d2 ->
    column_step dist fd col g (map_rows (fill_row fd d0 d1 d2 col) g) (Normal tt).

(** The lateral derivative between the two columns to the right of [col]
    on level [i], scaled by the distance from [col] to the next column. *)
Definition gradient_term (dist : list float) (g : ndarray) (i col : nat) : float :=
  ((get g i (col + 2) - get g i (col + 1))
   / (nth (col + 2) dist nan - nth (col + 1) dist nan))
  * (nth (col + 1) dist nan - nth col dist nan).

(** The cells the loop fills in column [col]: the missing cells of a
    column whose bottom cell is missing. *)
Definition shadowed (g : ndarray) (i col : nat) : bool :=
  isnan (get g (nrows g - 1) col) && isnan (get g i col).

(** A sequence of distances that never decreases. *)
Definition nondecreasing (l : list float) : Prop :=
  forall i j, (i <= j < length l)%nat -> (nth i l nan <=? nth j l nan) = true.

(** Classes of binary64 numbers, on their specification: finite numbers;
    numbers that are not below zero; numbers whose sign bit is clear. *)
Definition SFfin (x : spec_float) : bool :=
  match x with S754_zero _ | S754_finite _ _ _ => true | _ => false end.

Definition SFnonneg (x : spec_float) : bool := SFleb (S754_zero false) x.

Definition SFplus (x : spec_float) : bool :=
  match x with
  | S754_zero false | S754_infinity false | S754_finite false _ _ => true
  | _ => false
  end.

(** * Series, indexes and frames

    The other functions of [oceans/ctd/ctd.py] work on pandas objects: a
    [Series] is an array of values with an index of the same length and a
    name, a [DataFrame] is a two-dimensional array with an index over its
    rows.  The labels of an index are pressures or depths, binary64
    numbers.  Strings are Python 2 byte strings. *)

Import Ascii.AsciiSyntax String.StringSyntax.
Delimit Scope char_scope with char.
Delimit Scope string_scope with string.

(** ** Slices *)

(** Python's adjustment of one bound of a slice of a sequence of [len]
    elements: a negative bound counts from the end, and a bound outside
    the sequence is brought back to its nearest end, which for a negative
    step is one place further to the left. *)
Definition adjust (len i : Z) (backwards : bool) : Z :=
  if (i <? 0)%Z then
    if (i + len <? 0)%Z then (if backwards then -1 else 0)%Z else (i + len)%Z
  else if (len <=? i)%Z then (if backwards then len - 1 else len)%Z
  else i.

(** [a[start:stop]]. *)
Definition slice {A : Type} (a : list A) (start stop : Z) : list A :=
  let len := Z.of_nat (length a) in
  let i := adjust len start false in
  let j := adjust len stop false in
  firstn (Z.to_nat (j - i)) (skipn (Z.to_nat i) a).

(** [a[start:stop:-1]]: the elements [a[start]], [a[start - 1]], ... down
    to, and without, [a[stop]]. *)
Definition slice_rev {A : Type} (a : list A) (start stop : Z) : list A :=
  let len := Z.of_nat (length a) in
  let i := adjust len start true in
  let j := adjust len stop true in
  rev (firstn (Z.to_nat (i - j)) (skipn (Z.to_nat (j + 1)) a)).

(** ** Strings *)

Definition str : Type := list Ascii.ascii.

(** The characters that [str.strip()] removes when it is given no
    argument: the space and the control characters 9 to 13. *)
Definition isspace (c : Ascii.ascii) : bool :=
  let n := Ascii.nat_of_ascii c in
  Nat.eqb n 32 || (Nat.leb 9 n && Nat.leb n 13).

Definition isupper (c : Ascii.ascii) : bool :=
  let n := Ascii.nat_of_ascii c in Nat.leb 65 n && Nat.leb n 90.

Definition lower_char (c : Ascii.ascii) : Ascii.ascii :=
  if isupper c then Ascii.ascii_of_nat (Ascii.nat_of_ascii c + 32) else c.

(** [s.lower()] on a byte string: the letters A to Z. *)
Definition lower (s : str) : str := map lower_char s.

Fixpoint lstrip (p : Ascii.ascii -> bool) (s : str) : str :=
  match s with
  | c :: t => if p c then lstrip p t else s
  | [] => []
  end.

Definition rstrip (p : Ascii.ascii -> bool) (s : str) : str :=
  rev (lstrip p (rev s)).

(** [s.strip(chars)]: the characters of the set [p] are removed from the
    left end, then from the right end. *)
Definition strip (p : Ascii.ascii -> bool) (s : str) : str :=
  rstrip p (lstrip p s).

Definition star : Ascii.ascii := "*"%char.

(** [normalize_names(name)]. *)
Definition normalize_names (name : str) : str :=
  let name := strip isspace name in
  let name := strip (Ascii.eqb star) name in
  let name := lower name in
  name.

(** ** Exceptions and objects *)

(** The exceptions of the functions below: those of [exn], the
    [TypeError] of a subscript on [None], and the exception pandas raises
    when it refuses to build a [Series] (its class has changed with the
    versions of pandas). *)
Inductive exception : Type := Builtin (e : exn) | TypeError | PandasError.

Inductive outcome (A : Type) : Type :=
| Returns (a : A)
| Raises (e : exception).
Arguments Returns {A} a.
Arguments Raises {A} e.

Definition and_then {A B} (m : outcome A) (k : A -> outcome B) : outcome B :=
  match m with
  | Returns a => k a
  | Raises e => Raises e
  end.

Declare Scope series_scope.
Delimit Scope series_scope with series.
Notation "x <- m ;; k" := (and_then m (fun x => k))
  (at level 61, m at next level, right associativity) : series_scope.

Module Series.

Record t (A : Type) : Type := mk {
  values : list A;
  index : list float;
  name : option str
}.
Arguments mk {A} values index name.
Arguments values {A} _.
Arguments index {A} _.
Arguments name {A} _.

(** The invariant of a series: one label per value. *)
Definition aligned {A} (s : t A) : Prop := length (values s) = length (index s).

End Series.

Module DataFrame.

Record t : Type := mk { values : ndarray; index : list float }.

(** The invariant of a frame: a rectangular array, one label per row. *)
Definition aligned (f : t) : Prop :=
  rectangular (values f) /\ nrows (values f) = length (index f).

End DataFrame.

(** [Series(data, index=index, name=name)] on an array [data]: pandas
    refuses values and an index of different lengths. *)
Definition Series_new {A} (data : list A) (index : list float) (name : option str)
  : outcome (Series.t A) :=
  if Nat.eqb (length data) (length index) then Returns (Series.mk data index name)
  else Raises PandasError.

(** ** [find_outlier] and [despike] *)

Section Despike.

(** [nanmean] and [nanstd] of [scipy.stats]: the mean and the standard
    deviation of the cells of an array that are not NaN; parameters. *)
Variable nanmean : list float -> float.
Variable nanstd : list float -> float.

(** [find_outlier(point, window, n)]. *)
Definition find_outlier (point : float) (window : list float) (n : float) : bool :=
  n * nanstd window <=? abs (point - nanmean window).

(** The body of the loop of [despike] for the element [k] of [data]:
    [point] is [data[k]], which no earlier turn of the loop has written. *)
Definition despike_step (n : float) (windowsize : Z) (data : list float) (k : nat)
  : list float :=
  let point := nth k data nan in
  let kz := Z.of_nat k in
  let len := Z.of_nat (length data) in
  if (kz <=? windowsize)%Z then
    let window := slice data kz (kz + windowsize) in
    if find_outlier point window n then upd k nan data else data
  else if (len - windowsize <=? kz)%Z then
    let window := slice data (kz - windowsize) kz in
    if find_outlier point window n then upd k nan data else data
  else
    let window := slice data (kz - windowsize) (kz + windowsize) in
    if find_outlier point window n then upd k nan data else data.

(** [for k, point in enumerate(data): ...] on the copy of the values. *)
Definition despike_values (n : float) (windowsize : Z) (values : list float)
  : list float :=
  fold_left (despike_step n windowsize) (seq 0 (length values)) values.

(** [despike(self, n, windowsize, verbose)]; [verbose] is not used by the
    function. *)
Definition despike (self : Series.t float) (n : float) (windowsize : Z)
  : outcome (Series.t float) :=
  let data := despike_values n windowsize (Series.values self) in
  Series_new data (Series.index self) (Series.name self).

End Despike.

Arguments find_outlier nanmean nanstd point window n : assert.
Arguments despike_step nanmean nanstd n windowsize data k : assert.
Arguments despike_values nanmean nanstd n windowsize values : assert.
Arguments despike nanmean nanstd self n windowsize : assert.

(** ** [asof] *)

(** The order numpy sorts and searches floats by: a NaN comes after every
    number. *)
Definition np_lt (a b : float) : bool :=
  (a <? b) || (isnan b && negb (isnan a)).

(** The binary search of [searchsorted(..., side='left')] between [lo]
    and [hi]; every turn halves the interval, and [fuel] bounds the
    number of turns. *)
Fixpoint binsearch_left (fuel : nat) (arr : list float) (key : float) (lo hi : nat)
  : nat :=
  match fuel with
  | O => lo
  | S fuel' =>
      if Nat.ltb lo hi then
        let mid := (lo + Nat.div2 (hi - lo))%nat in
        if np_lt (nth mid arr nan) key
        then binsearch_left fuel' arr key (mid + 1) hi
        else binsearch_left fuel' arr key lo mid
      else lo
  end.

(** [self.searchsorted(label, side='left')]. *)
Definition searchsorted (self : list float) (label : float) : nat :=
  binsearch_left (S (length self)) self label 0 (length self).

(** [label in self]: some label of the index equals [label]. *)
Definition contains (self : list float) (label : float) : bool :=
  existsb (fun x => x =? label) self.

(** [asof(self, label)], a method of the index. *)
Definition asof (self : list float) (label : float) : float :=
  if negb (contains self label) then
    let loc := searchsorted self label in
    if Nat.ltb 0 loc then nth (loc - 1) self nan
    else nan
  else label.

(** ** [get_maxdepth] *)

(** [Series.notnull] on a number. *)
Definition notnull (x : float) : bool := negb (isnan x).

(** A boolean as numpy multiplies it. *)
Definition of_bool (b : bool) : float := if b then 1 else 0.

Fixpoint collect {A} (l : list (result A)) : result (list A) :=
  match l with
  | [] => Normal []
  | Normal a :: t =>
      match collect t with
      | Normal r => Normal (a :: r)
      | Raised e => Raised e
      end
  | Raised e :: _ => Raised e
  end.

(** [get_maxdepth(self)].  Row [j] of [valid_last_depth] tells which
    levels of station [j] hold a number; the index is multiplied into
    each of these rows and [max(axis=1)] takes the maximum of each.
    numpy refuses a maximum along an axis that has no element. *)
Definition get_maxdepth (self : DataFrame.t) : result (list float) :=
  let data := DataFrame.values self in
  let valid_last_depth (j : nat) := map (fun r => notnull (cell r j)) (rows data) in
  let product (j : nat) :=
    map (fun pb => fst pb * of_bool (snd pb))
        (combine (DataFrame.index self) (valid_last_depth j)) in
  if Nat.eqb (nrows data) 0 then Raised ValueError
  else collect (map (fun j => np_max (product j)) (seq 0 (ncols data))).

(** ** [check_index] and the TEOS-10 wrappers *)

(** An argument of [check_index]: a series, a float, or an object of
    another class. *)
Inductive value : Type :=
| VSeries (s : Series.t float)
| VFloat (x : float)
| VObject.

(** What [check_index] hands back for each argument: the labels of a
    series, or the float. *)
Inductive key : Type :=
| KArray (a : list float)
| KFloat (x : float).

(** [float_(self)], a method of the index: [np.float_(self.values)]. *)
Definition float_ (self : list float) : list float := self.

Section Teos10.

(** [(a == b).all()] on two arrays that cannot be broadcast against each
    other; what numpy does then has changed with its versions. *)
Variable shape_mismatch : outcome bool.

(** [gsw.SP_from_C(C, t, p)] and [gsw.CT_from_t(SA, t, p)], of the gsw
    package, taken to answer an array; parameters. *)
Variable gsw_SP_from_C : value -> value -> key -> list float.
Variable gsw_CT_from_t : value -> value -> key -> list float.

(** [(a == b).all()]: element by element on arrays of the same length; an
    array of one element is compared with every element of the other. *)
Definition all_equal (a b : list float) : outcome bool :=
  if Nat.eqb (length a) (length b)
  then Returns (forallb (fun xy => fst xy =? snd xy) (combine a b))
  else if Nat.eqb (length a) 1 then Returns (forallb (fun y => hd nan a =? y) b)
  else if Nat.eqb (length b) 1 then Returns (forallb (fun x => x =? hd nan b) a)
  else shape_mismatch.

(** [check_index(ix0, ix1)]; [None] is what Python returns when the
    function ends without a [return]. *)
Definition check_index (ix0 ix1 : value) : outcome (option (key * key)) :=
  match ix0, ix1 with
  | VSeries s0, VSeries s1 =>
      let ix0 := float_ (Series.index s0) in
      let ix1 := float_ (Series.index s1) in
      (same <- all_equal ix0 ix1 ;;
       if same then Returns (Some (KArray ix0, KArray ix1))
       else Returns None)%series
  | VFloat ix0, VFloat ix1 =>
      if ix0 =? ix1 then Returns (Some (KFloat ix0, KFloat ix1))
      else Returns None
  | _, _ => Raises (Builtin ValueError)
  end.

(** [r[0]] on the result of [check_index]. *)
Definition first_of (r : option (key * key)) : outcome key :=
  match r with
  | Some (p, _) => Returns p
  | None => Raises TypeError
  end.

(** [Series(data, index=p, name=name)]: pandas refuses an index that is a
    single number. *)
Definition Series_on (data : list float) (p : key) (name : str)
  : outcome (Series.t float) :=
  match p with
  | KArray index => Series_new data index (Some name)
  | KFloat _ => Raises PandasError
  end.

Definition Salinity : str := String.list_ascii_of_string "Salinity"%string.

Definition Conservative_temperature : str :=
  String.list_ascii_of_string "Conservative_temperature"%string.

(** [SP_from_C(C, t)]. *)
Definition SP_from_C (C t : value) : outcome (Series.t float) :=
  (r <- check_index C t ;;
   p <- first_of r ;;
   Series_on (gsw_SP_from_C C t p) p Salinity)%series.

(** [CT_from_t(SA, t)]. *)
Definition CT_from_t (SA t : value) : outcome (Series.t float) :=
  (r <- check_index SA t ;;
   p <- first_of r ;;
   Series_on (gsw_CT_from_t SA t p) p Conservative_temperature)%series.

End Teos10.

Arguments all_equal shape_mismatch a b : assert.
Arguments check_index shape_mismatch ix0 ix1 : assert.
Arguments SP_from_C shape_mismatch gsw_SP_from_C C t : assert.
Arguments CT_from_t shape_mismatch gsw_CT_from_t SA t : assert.

(** ** [smooth] *)

Definition flat : str := String.list_ascii_of_string "flat"%string.
Definition hanning : str := String.list_ascii_of_string "hanning"%string.
Definition hamming : str := String.list_ascii_of_string "hamming"%string.
Definition bartlett : str := String.list_ascii_of_string "bartlett"%string.
Definition blackman : str := String.list_ascii_of_string "blackman"%string.

Fixpoint str_eqb (a b : str) : bool :=
  match a, b with
  | [], [] => true
  | x :: a', y :: b' => Ascii.eqb x y && str_eqb a' b'
  | _, _ => false
  end.

Section Smooth.

(** [windows[window](window_len)]: the window functions [np.ones],
    [np.hanning], [np.hamming], [np.bartlett] and [np.blackman] of numpy,
    looked up by the name they have in the dictionary; a parameter. *)
Variable np_window : str -> Z -> list float.

(** [w.sum()] and [np.convolve(v, s, mode='same')] of numpy; parameters
    (numpy does not fix the order in which it adds the terms). *)
Variable np_sum : list float -> float.
Variable np_convolve_same : list float -> list float -> list float.

(** The keys of the dictionary [windows]. *)
Definition windows_keys : list str := [flat; hanning; hamming; bartlett; blackman].

(** The signal [s] of [smooth]: the data between two reflections of its
    ends. *)
Definition padded (data : list float) (window_len : Z) (first last : float)
  : list float :=
  map (fun x => 2 * first - x) (slice_rev data window_len 1)
  ++ data
  ++ map (fun x => 2 * last - x) (slice_rev data (-1) (- window_len)).

(** [smooth(self, window_len, window)].  [data[0]] and [data[-1]] raise
    [IndexError] on an empty array. *)
Definition smooth (self : Series.t float) (window_len : Z) (window : str)
  : outcome (Series.t float) :=
  let data := Series.values self in
  if (window_len <? 3)%Z then
    Series_new data (Series.index self) (Series.name self)
  else if negb (existsb (str_eqb window) windows_keys) then
    Raises (Builtin ValueError)
  else
    match data with
    | [] => Raises (Builtin IndexError)
    | first :: rest =>
        let s := padded data window_len first (last rest first) in
        let w := np_window window window_len in
        let total := np_sum w in
        let data := np_convolve_same (map (fun x => x / total) w) s in
        let data := slice data (window_len - 1) (- window_len + 1) in
        Series_new data (Series.index self) (Series.name self)
    end.

End Smooth.

Arguments smooth np_window np_sum np_convolve_same self window_len window : assert.

(** ** The header of a Seabird file in [from_cnv] *)

(** [s.startswith(p)]. *)
Fixpoint startswith (p s : str) : bool :=
  match p, s with
  | [], _ => true
  | a :: p', b :: s' => Ascii.eqb a b && startswith p' s'
  | _ :: _, [] => false
  end.

(** [p in s]: [p] occurs somewhere in [s]. *)
Fixpoint occurs_in (p s : str) : bool :=
  startswith p s ||
  match s with
  | [] => false
  | _ :: t => occurs_in p t
  end.

(** [s.split(sep)] for a separator of one character: the pieces between
    the occurrences of the separator, empty pieces included. *)
Fixpoint split (sep : Ascii.ascii) (s : str) : list str :=
  match s with
  | [] => [[]]
  | c :: t =>
      if Ascii.eqb c sep then [] :: split sep t
      else match split sep t with
           | piece :: rest => (c :: piece) :: rest
           | [] => [[c]]
           end
  end.

Definition hash_name : str := String.list_ascii_of_string "# name"%string.
Definition star_prefix : str := String.list_ascii_of_string "*"%string.
Definition hash_prefix : str := String.list_ascii_of_string "#"%string.
Definition END_line : str := String.list_ascii_of_string "*END*"%string.
Definition equals_sign : Ascii.ascii := "="%char.
Definition colon : Ascii.ascii := ":"%char.

(** The lists [from_cnv] fills while it reads the lines of the file, and
    [header_length], which has no value until a line [*END*] is met. *)
Record cnv_header : Type := mkheader {
  header : list str;
  config : list str;
  names : list str;
  header_length : option nat
}.

(** The body of the loop of [from_cnv] for the line number [k].
    [line.split('=')[1]] raises [IndexError] when the line has no [=],
    and the assignment to [name, unit] raises [ValueError] when there are
    not two pieces to unpack. *)
Definition cnv_line (st : cnv_header) (k : nat) (line : str) : outcome cnv_header :=
  let line := strip isspace line in
  (names' <-
     (if occurs_in hash_name line then
        match nth_error (split equals_sign line) 1 with
        | None => Raises (Builtin IndexError)
        | Some field =>
            match split colon field with
            | [name; unit] =>
                let name := normalize_names name in
                Returns (names st ++ [name])
            | _ => Raises (Builtin ValueError)
            end
        end
      else Returns (names st)) ;;
   let header' :=
     if startswith star_prefix line then header st ++ [line] else header st in
   let config' :=
     if startswith hash_prefix line then config st ++ [line] else config st in
   let header_length' :=
     if str_eqb line END_line then Some (k + 1)%nat else header_length st in
   Returns (mkheader header' config' names' header_length'))%series.

(** [for k, line in enumerate(f.readlines()): ...] from the line number
    [k] on. *)
Fixpoint cnv_lines (st : cnv_header) (k : nat) (lines : list str)
  : outcome cnv_header :=
  match lines with
  | [] => Returns st
  | line :: rest =>
      (st' <- cnv_line st k line ;; cnv_lines st' (S k) rest)%series
  end.

(** The first part of [from_cnv]: what the loop over the lines of the
    file collects.  The lines are those of [f.readlines()]. *)
Definition from_cnv_header (lines : list str) : outcome cnv_header :=
  cnv_lines (mkheader [] [] [] None) 0 lines.

(** ** The arrays of [plot_section] *)

(** A masked array of [numpy.ma]: an array and, cell by cell, whether
    the cell is masked. *)
Record masked_array : Type := mkmasked {
  ma_data : ndarray;
  ma_mask : list (list bool)
}.

(** [ma.masked_invalid(a)]: a copy of [a] in which the cells that are
    NaN or infinite are masked. *)
Definition masked_invalid (a : ndarray) : masked_array :=
  mkmasked a (map (map (fun x => negb (is_finite x))) (rows a)).

(** [m.filled(fill_value=v)]: an array in which the masked cells hold
    [v]. *)
Definition ma_filled (v : float) (m : masked_array) : ndarray :=
  mkarr (ncols (ma_data m))
        (map (fun rm : list float * list bool =>
                map (fun xb : float * bool => if snd xb then v else fst xb)
                    (combine (fst rm) (snd rm)))
             (combine (rows (ma_data m)) (ma_mask m))).

(** The [data] that [plot_section] draws: a masked array, or the array
    that [extrap_sec] returned. *)
Inductive section_data : Type :=
| Masked (m : masked_array)
| Extrapolated (g : ndarray).

(** What [plot_section] computes before it draws. *)
Record section : Type := mksection {
  section_levels : list float;
  section_z : list float;
  section_h : list float;
  section_data_ : section_data;
  section_x : list float;
  section_xm : list float;
  section_hm : list float
}.

Section PlotSection.

Variable gsw_distance : list float -> list float -> list float.
Variable gsw_z_from_p : list float -> float -> list float.
Variable np_mean : list float -> float.
Variable interpolate : interp_kind -> list float -> list float -> float -> float.

(** The default of the key word [levels], which Python evaluates whether
    or not the caller gives levels:
    [np.arange(np.floor(self.min().min()), np.ceil(self.max().max()) + 0.5, 0.5)];
    the minimum and the maximum of a frame belong to pandas; a
    parameter. *)
Variable default_levels : DataFrame.t -> result (list float).

(** [plot_section(self, filled, dx=dx, kind=kind)] up to the comment
    [# Figure.]: the arrays that the rest of the function hands to
    matplotlib.  [lon] and [lat] are the attributes [self.lon] and
    [self.lat] of the frame; the drawing is not modelled. *)
Definition plot_section (self : DataFrame.t) (lon lat : list float)
    (filled : bool) (dx : float) (kind : interp_kind) : result section :=
  match default_levels self with
  | Raised e => Raised e
  | Normal levels =>
      let z := DataFrame.index self in
      match get_maxdepth self with
      | Raised e => Raised e
      | Normal h =>
          let data := masked_invalid (DataFrame.values self) in
          match
            (if filled then
               match extrap_sec gsw_distance lon lat 1 (ma_filled nan data)
                     return result section_data with
               | (g, Normal _) => Normal (Extrapolated g)
               | (_, Raised e) => Raised e
               end
             else Normal (Masked data))
          with
          | Raised e => Raised e
          | Normal data =>
              let x := cumulative_distance gsw_distance lon lat in
              match gen_topomask gsw_distance gsw_z_from_p np_mean interpolate
                      h lon lat dx kind with
              | Raised e => Raised e
              | Normal (xm, hm) => Normal (mksection levels z h data x xm hm)
              end
          end
      end
  end.

End PlotSection.

Arguments plot_section gsw_distance gsw_z_from_p np_mean interpolate default_levels
  self lon lat filled dx kind : assert.

(** * Vocabulary of the statements on series and frames *)

(** ** Names *)

(** A character that [normalize_names] can remove from an end. *)
Definition trimmed (c : Ascii.ascii) : bool := isspace c || Ascii.eqb star c.

(** The end of a string is free of the characters of [p]. *)
Definition clear_of (p : Ascii.ascii -> bool) (o : option Ascii.ascii) : Prop :=
  match o with
  | Some c => p c = false
  | None => True
  end.

(** The first and the last character of a string, if any. *)
Definition first_char (s : str) : option Ascii.ascii := hd_error s.

Definition last_char (s : str) : option Ascii.ascii := hd_error (rev s).

(** ** The order of binary64 numbers

    A number that is not a NaN has a rank, three integers compared from
    left to right: its class and sign, then its exponent and its
    mantissa, both negated for a negative number. *)
Definition rank (x : spec_float) : Z * Z * Z :=
  match x with
  | S754_zero _ => (0, 0, 0)
  | S754_infinity false => (2, 0, 0)
  | S754_infinity true => (-2, 0, 0)
  | S754_finite false m e => (1, e, Zpos m)
  | S754_finite true m e => (-1, - e, Zneg m)
  | S754_nan => (3, 0, 0)
  end%Z.

Definition lex_lt (a b : Z * Z * Z) : Prop :=
  (fst (fst a) < fst (fst b)
   \/ (fst (fst a) = fst (fst b)
       /\ (snd (fst a) < snd (fst b)
           \/ (snd (fst a) = snd (fst b) /\ snd a < snd b))))%Z.

Definition lex_eq (a b : Z * Z * Z) : Prop :=
  (fst (fst a) = fst (fst b) /\ snd (fst a) = snd (fst b) /\ snd a = snd b)%Z.

(** The rank of a float. *)
Definition frank (x : float) : Z * Z * Z := rank (Prim2SF x).

(** ** Windows of [despike] *)

(** The window on which the loop of [despike] judges the element [k] of
    the array [data] it is running on. *)
Definition despike_window (data : list float) (k : nat) (windowsize : Z)
  : list float :=
  let kz := Z.of_nat k in
  if (kz <=? windowsize)%Z then slice data kz (kz + windowsize)
  else if (Z.of_nat (length data) - windowsize <=? kz)%Z
       then slice data (kz - windowsize) kz
       else slice data (kz - windowsize) (kz + windowsize).

(** ** The header of a Seabird file *)

(** A line that [from_cnv] reads a column name from, and the name it
    reads: what stands between the first [=] and the [:] that follows. *)
Definition name_line (line : str) : bool := occurs_in hash_name line.

Definition column_name (line : str) : str :=
  normalize_names (nth 0 (split colon (nth 1 (split equals_sign line) [])) []).

(** A line with at least one [=] and exactly one [:] between its first
    [=] and the next one (or the end of the line). *)
Definition well_formed (line : str) : Prop :=
  (1 <= count_occ Ascii.ascii_dec line equals_sign)%nat /\
  count_occ Ascii.ascii_dec (nth 1 (split equals_sign line) []) colon = 1%nat.

(** The value of [header_length] after the lines [stripped], numbered
    from [k], when it was [before]. *)
Fixpoint end_of_header (k : nat) (stripped : list str) (before : option nat)
  : option nat :=
  match stripped with
  | [] => before
  | line :: rest =>
      end_of_header (S k) rest
        (if str_eqb line END_line then Some (k + 1)%nat else before)
  end.

(** * Stand-ins and sample data for series and frames *)

(** ** Stand-ins for numpy, scipy and gsw *)

(** Stand-ins for [nanmean] and [nanstd]: the mean and the standard
    deviation (with [n - 1] in the denominator) of the cells of the window
    that are numbers, the sums being taken from left to right. *)
Definition numbers (w : list float) : list float :=
  filter (fun x => negb (isnan x)) w.

Definition total (w : list float) : float := fold_left PrimFloat.add w 0.

Definition plain_nanmean (w : list float) : float :=
  total (numbers w) / of_nat (length (numbers w)).

Definition plain_nanstd (w : list float) : float :=
  let m := plain_nanmean w in
  sqrt (total (map (fun x => (x - m) * (x - m)) (numbers w))
        / (of_nat (length (numbers w)) - 1)).

(** Stand-ins for the functions of numpy that [smooth] calls: the window
    of ones whatever the name, and the convolution written out term by
    term, centred as the mode [same] centres it. *)
Definition ones_window (name : str) (n : Z) : list float := repeat 1 (Z.to_nat n).

Definition plain_convolve_same (v s : list float) : list float :=
  let shift := Nat.div2 (Nat.min (length v) (length s) - 1) in
  map (fun k =>
         total (map (fun j => nth j v 0 * nth (k + shift - j) s 0)
                    (filter (fun j => Nat.leb j (k + shift)) (seq 0 (length v)))))
      (seq 0 (Nat.max (length v) (length s))).

(** A stand-in for the functions of gsw that answers the values of its
    first argument, and what numpy is taken to answer when it compares two
    arrays that cannot be broadcast. *)
Definition first_values (a b : value) (p : key) : list float :=
  match a with
  | VSeries s => Series.values s
  | _ => []
  end.

Definition unequal_shapes : outcome bool := Returns false.

(** ** Series, frames and files *)

(** A cast with one spike, on levels one dbar apart. *)
Definition spiky : Series.t float :=
  Series.mk [10; 10.5; 11; 60; 11.5; 12; 12.5; 13] [5; 6; 7; 8; 9; 10; 11; 12] None.

(** The lower edges of three bins one dbar wide. *)
Definition bin_edges : list float := [4.5; 5.5; 6.5].

(** Two series on the same three levels, and a third one shifted by half
    a dbar. *)
Definition conductivity : Series.t float :=
  Series.mk [42; 41.5; 41] [5; 6; 7] None.

Definition temperature : Series.t float :=
  Series.mk [20; 19; 18.5] [5; 6; 7] None.

Definition temperature_shifted : Series.t float :=
  Series.mk [20; 19; 18.5] [5.5; 6.5; 7.5] None.

(** A frame of three levels at 10, 20 and 30 dbar and three stations: the
    first is complete, the second has a gap above its deepest number, the
    third holds no number. *)
Definition three_casts : DataFrame.t :=
  DataFrame.mk (mkarr 3 [[5; nan; nan]; [4; nan; nan]; [3; 2; nan]]) [10; 20; 30].

(** A section whose deepest level is complete: the gaps above it are in
    no shadow. *)
Definition gaps_above : ndarray :=
  mkarr 4 [[1; nan; nan; 4]; [5; 6; nan; 8]; [9; 10; 11; 12]].

(** A frame of two levels and three stations whose last two stations stop
    above the deepest level, and a stand-in for the default levels. *)
Definition shoaling : DataFrame.t :=
  DataFrame.mk (mkarr 3 [[5; 4; 3]; [6; nan; nan]]) [10; 20].

Definition no_levels : DataFrame.t -> result (list float) := fun _ => Normal [].

(** The first lines of a Seabird file. *)
Definition cnv_sample : list str :=
  map String.list_ascii_of_string
    ["* Sea-Bird SBE 9 Data File:";
     "# name 0 = prDM: Pressure, Digiquartz [db]";
     "# name 1 = t090C: Temperature [ITS-90, deg C]";
     "# nquan = 2";
     "*END*";
     "      5.000    20.1234"]%string.

(** What [from_cnv] collects from these lines. *)
Definition cnv_sample_header : cnv_header :=
  mkheader
    (map String.list_ascii_of_string
       ["* Sea-Bird SBE 9 Data File:"; "*END*"]%string)
    (map String.list_ascii_of_string
       ["# name 0 = prDM: Pressure, Digiquartz [db]";
        "# name 1 = t090C: Temperature [ITS-90, deg C]";
        "# nquan = 2"]%string)
    (map String.list_ascii_of_string ["prdm"; "t090c"]%string)
    (Some 5%nat).
(** * Binary64 arithmetic

    Facts on the operations of IEEE binary64 that the theorems below use,
    proved from the specification of the primitive floats: a float is a
    sign, a mantissa [m] and an exponent [e] standing for [m * 2 ^ e]; an
    operation computes an exact mantissa and exponent and rounds them with
    [binary_round_aux] (a right shift to 53 digits, round to nearest
    even, a second shift when the rounding carries). *)

Module Binary64.

Local Open Scope Z_scope.

(** ** Digits and shifts *)

Lemma fexp_eq e : fexp prec emax e = Z.max (e - 53) (-1074).
Proof. reflexivity. Qed.

(** A positive number of [d] binary digits lies in [[2^(d-1), 2^d)]. *)
Lemma digits2_pos_bounds p :
  2 ^ (Zpos (digits2_pos p) - 1) <= Zpos p < 2 ^ Zpos (digits2_pos p).
Proof.
  induction p as [p IH|p IH|]; simpl digits2_pos.
  1, 2: rewrite Pos2Z.inj_succ;
    replace (Z.succ (Zpos (digits2_pos p)) - 1)
      with (Z.succ (Zpos (digits2_pos p) - 1)) by lia;
    rewrite !Z.pow_succ_r by lia; lia.
  simpl. lia.
Qed.

(** The number of digits grows with the number. *)
Lemma digits2_pos_le p q k :
  0 <= k -> Zpos p * 2 ^ k <= Zpos q ->
  Zpos (digits2_pos p) + k <= Zpos (digits2_pos q).
Proof.
  intros Hk H. pose proof (digits2_pos_bounds p) as [Hp _].
  pose proof (digits2_pos_bounds q) as [_ Hq].
  assert (2 ^ (Zpos (digits2_pos p) - 1 + k) < 2 ^ Zpos (digits2_pos q)).
  { rewrite Z.pow_add_r by lia.
    assert (2 ^ (Zpos (digits2_pos p) - 1) * 2 ^ k <= Zpos p * 2 ^ k)
      by (apply Z.mul_le_mono_nonneg_r; lia).
    lia. }
  apply Z.pow_lt_mono_r_iff in H0; lia.
Qed.

(** One right shift halves the mantissa; [n] shifts divide it by [2^n]. *)
Lemma shr_1_m r : 0 <= shr_m r -> shr_m (shr_1 r) = shr_m r / 2.
Proof.
  destruct r as [m rb sb]; simpl. intros Hm.
  destruct m as [|[p|p|]|p]; simpl; try lia; try reflexivity.
  - rewrite Pos2Z.inj_xI. apply Z.div_unique with 1; lia.
  - rewrite Pos2Z.inj_xO. apply Z.div_unique with 0; lia.
Qed.

Lemma iter_pos_shr_m n : forall r,
  0 <= shr_m r ->
  shr_m (iter_pos shr_1 n r) = shr_m r / 2 ^ Zpos n.
Proof.
  induction n as [n IH|n IH|]; intros r Hr; simpl iter_pos.
  - assert (H1 : 0 <= shr_m (shr_1 r))
      by (rewrite shr_1_m by auto; apply Z.div_pos; lia).
    assert (H2 : 0 <= shr_m (iter_pos shr_1 n (shr_1 r)))
      by (rewrite IH by auto; apply Z.div_pos; lia).
    rewrite IH, IH, shr_1_m by auto.
    rewrite !Z.div_div by lia. f_equal.
    replace (Zpos n~1) with (1 + Zpos n + Zpos n) by lia.
    rewrite !Z.pow_add_r by lia. ring.
  - assert (H2 : 0 <= shr_m (iter_pos shr_1 n r))
      by (rewrite IH by auto; apply Z.div_pos; lia).
    rewrite IH, IH by auto.
    rewrite !Z.div_div by lia. f_equal.
    replace (Zpos n~0) with (Zpos n + Zpos n) by lia.
    rewrite !Z.pow_add_r by lia. ring.
  - rewrite shr_1_m by auto. reflexivity.
Qed.

(** The mantissa and the exponent after [shr]. *)
Lemma shr_spec r e n r' e' :
  0 <= shr_m r ->
  shr r e n = (r', e') ->
  (0 < n -> shr_m r' = shr_m r / 2 ^ n /\ e' = e + n) /\
  (n <= 0 -> r' = r /\ e' = e).
Proof.
  intros Hr. unfold shr. destruct n as [|p|p]; intros [= <- <-]; split; try lia; auto.
  intros _. split; auto. now apply iter_pos_shr_m.
Qed.

Lemma shr_record_of_loc_m m l : shr_m (shr_record_of_loc m l) = m.
Proof. now destruct l as [|[]]. Qed.

Lemma round_nearest_even_bounds m l :
  m <= round_nearest_even m l <= m + 1.
Proof.
  destruct l as [|[]]; simpl; try lia. destruct (Z.even m); lia.
Qed.

Lemma pos_iter_xO m d : Zpos (Pos.iter xO m d) = Zpos m * 2 ^ Zpos d.
Proof.
  induction d as [|d IH] using Pos.peano_ind.
  - simpl. lia.
  - rewrite Pos.iter_succ, Pos2Z.inj_xO, IH, Pos2Z.inj_succ, Z.pow_succ_r by lia. lia.
Qed.

Lemma shl_align_spec mx ex e' :
  let '(m', e'') := shl_align mx ex e' in
  e'' <= ex /\ e'' <= Z.max e' ex /\ (e' <= ex -> e'' = e') /\
  Zpos m' = Zpos mx * 2 ^ (ex - e'').
Proof.
  unfold shl_align. destruct (e' - ex) as [|d|d] eqn:E.
  - rewrite Z.sub_diag. simpl. lia.
  - rewrite Z.sub_diag. simpl. lia.
  - rewrite pos_iter_xO. replace (ex - e') with (Zpos d) by lia. lia.
Qed.

Lemma Zdigits2_pos p : Zdigits2 (Zpos p) = Zpos (digits2_pos p).
Proof. reflexivity. Qed.

(** A positive number shifted down to its 53 leading digits is at least 2^52. *)
Lemma leading_digits p :
  53 < Zpos (digits2_pos p) ->
  2 ^ 52 <= Zpos p / 2 ^ (Zpos (digits2_pos p) - 53).
Proof.
  intros H. apply Z.div_le_lower_bound; [apply Z.pow_pos_nonneg; lia|].
  rewrite <- Z.pow_add_r by lia.
  replace (Zpos (digits2_pos p) - 53 + 52) with (Zpos (digits2_pos p) - 1) by lia.
  apply digits2_pos_bounds.
Qed.

(** A valid float is in canonical form: its exponent is the one its
    number of digits calls for. *)
Lemma bounded_inv mx ex :
  bounded prec emax mx ex = true ->
  Z.max (Zpos (digits2_pos mx) + ex - 53) (-1074) = ex /\ ex <= 971.
Proof.
  unfold bounded, canonical_mantissa. rewrite andb_true_iff, Z.eqb_eq, Z.leb_le, fexp_eq.
  change (emax - prec) with 971. auto.
Qed.

(** ** Rounding *)

(** Rounding is monotone at a float: a mantissa and exponent that stand for
    at least the float [(mx, ex)] round to at least that float. *)
Lemma binary_round_aux_ge mx ex m e l :
  bounded prec emax mx ex = true ->
  0 < m -> e <= ex -> Zpos mx * 2 ^ (ex - e) <= m ->
  SFleb (S754_finite false mx ex) (binary_round_aux prec emax false m e l) = true.
Proof.
  intros Hb Hm He Hle. apply bounded_inv in Hb. destruct Hb as [Hcan Hex].
  destruct m as [|p|p]; try lia.
  pose proof (digits2_pos_le mx p (ex - e) ltac:(lia) Hle) as Hdig.
  unfold binary_round_aux, shr_fexp. rewrite Zdigits2_pos, fexp_eq.
  set (e1 := Z.max (Zpos (digits2_pos p) + e - 53) (-1074)).
  assert (He1 : ex <= e1) by (unfold e1; lia).
  destruct (shr (shr_record_of_loc (Zpos p) l) e (e1 - e)) as [r1 e1'] eqn:E1.
  apply shr_spec in E1; [|rewrite shr_record_of_loc_m; lia].
  rewrite shr_record_of_loc_m in E1.
  assert (H1 : e1' = e1 /\ shr_m r1 = Zpos p / 2 ^ (e1 - e)).
  { destruct E1 as [A B]. destruct (Z.lt_ge_cases 0 (e1 - e)) as [Hn|Hn].
    - destruct (A Hn) as [-> ->]. split; [lia|reflexivity].
    - destruct (B ltac:(lia)) as [-> ->]. rewrite shr_record_of_loc_m.
      replace (e1 - e) with 0 by lia. split; [lia|]. now rewrite Z.div_1_r. }
  clear E1. destruct H1 as [-> Hm1].
  set (m1 := shr_m r1) in *.
  assert (Hm1pos : 0 < m1 /\ (e1 = ex -> Zpos mx <= m1)).
  { split.
    - destruct (Z.eq_dec e1 ex) as [Heq|Hne].
      + rewrite Hm1, Heq. apply Z.lt_le_trans with (Zpos mx); [lia|].
        apply Z.div_le_lower_bound; [apply Z.pow_pos_nonneg; lia|]. lia.
      + assert (Hd : e1 = Zpos (digits2_pos p) + e - 53) by (unfold e1 in *; lia).
        rewrite Hm1, Hd. replace (Zpos (digits2_pos p) + e - 53 - e) with (Zpos (digits2_pos p) - 53) by lia.
        pose proof (leading_digits p ltac:(lia)). lia.
    - intros Heq. rewrite Hm1, Heq.
      apply Z.div_le_lower_bound; [apply Z.pow_pos_nonneg; lia|]. lia. }
  destruct Hm1pos as [Hpos Hge].
  pose proof (round_nearest_even_bounds m1 (loc_of_shr_record r1)) as Hr.
  set (m1' := round_nearest_even m1 (loc_of_shr_record r1)) in *.
  destruct m1' as [|q|q] eqn:Eq; try lia.
  rewrite Zdigits2_pos, fexp_eq.
  set (e2 := Z.max (Zpos (digits2_pos q) + e1 - 53) (-1074)).
  destruct (shr (shr_record_of_loc (Zpos q) loc_Exact) e1 (e2 - e1)) as [r2 e2'] eqn:E2.
  apply shr_spec in E2; [|simpl; lia]. simpl shr_m in E2. destruct E2 as [A B].
  destruct (Z.lt_ge_cases 0 (e2 - e1)) as [Hn|Hn].
  - destruct (A Hn) as [Hm2 ->].
    assert (Hd : e2 = Zpos (digits2_pos q) + e1 - 53) by (unfold e2 in *; lia).
    assert (H52 : 2 ^ 52 <= shr_m r2).
    { rewrite Hm2, Hd.
      replace (Zpos (digits2_pos q) + e1 - 53 - e1) with (Zpos (digits2_pos q) - 53) by lia.
      apply leading_digits. lia. }
    destruct (shr_m r2) as [|q2|q2]; try (exfalso; lia).
    destruct (e1 + (e2 - e1) <=? emax - prec); unfold SFleb; simpl; auto.
    replace (ex ?= e1 + (e2 - e1)) with Lt; auto. symmetry. apply Z.compare_lt_iff. lia.
  - destruct (B ltac:(lia)) as [-> ->]. simpl shr_m.
    destruct (e1 <=? emax - prec); unfold SFleb; simpl; auto.
    destruct (Z.compare_spec ex e1) as [Heq|Hlt|Hgt]; auto; try lia.
    fold (Pos.compare mx q). 
    destruct (Pos.compare_spec mx q) as [H|H|H]; auto. specialize (Hge (eq_sym Heq)). lia.
Qed.

Lemma shr_fexp_nonneg m e l r' e' :
  0 <= m -> shr_fexp prec emax m e l = (r', e') -> 0 <= shr_m r'.
Proof.
  intros Hm E. unfold shr_fexp in E.
  apply shr_spec in E; [|rewrite shr_record_of_loc_m; lia].
  rewrite shr_record_of_loc_m in E. destruct E as [A B].
  destruct (Z.lt_ge_cases 0 (fexp prec emax (Zdigits2 m + e) - e)) as [Hn|Hn].
  - destruct (A Hn) as [-> _]. apply Z.div_pos; [lia|]. apply Z.pow_pos_nonneg; lia.
  - destruct (B ltac:(lia)) as [-> _]. now rewrite shr_record_of_loc_m.
Qed.

(** Rounding a non-negative mantissa with a clear sign bit gives a number
    with a clear sign bit. *)
Lemma binary_round_aux_plus m e l :
  0 <= m -> SFplus (binary_round_aux prec emax false m e l) = true.
Proof.
  intros Hm. unfold binary_round_aux.
  destruct (shr_fexp prec emax m e l) as [r1 e1] eqn:E1.
  apply shr_fexp_nonneg in E1; auto.
  pose proof (round_nearest_even_bounds (shr_m r1) (loc_of_shr_record r1)) as Hr.
  destruct (shr_fexp prec emax (round_nearest_even (shr_m r1) (loc_of_shr_record r1)) e1 loc_Exact)
    as [r2 e2] eqn:E2.
  apply shr_fexp_nonneg in E2; [|lia].
  destruct (shr_m r2) as [|q|q]; try lia; auto.
  now destruct (e2 <=? emax - prec).
Qed.

Lemma SFplus_nonneg x : SFplus x = true -> SFnonneg x = true.
Proof. now destruct x as [[]|[]| |[] m e]. Qed.

Lemma binary_round_aux_nonneg m e l :
  0 <= m -> SFnonneg (binary_round_aux prec emax false m e l) = true.
Proof. intros Hm. now apply SFplus_nonneg, binary_round_aux_plus. Qed.

Lemma binary_round_nonneg m e :
  SFnonneg (binary_round prec emax false m e) = true.
Proof.
  unfold binary_round.
  destruct (shl_align m e (fexp prec emax (Zpos (digits2_pos m) + e))) as [mz ez].
  apply binary_round_aux_nonneg. lia.
Qed.

Lemma SFmul_plus x m e :
  SFplus x = true -> SFplus (SFmul prec emax x (S754_finite false m e)) = true.
Proof.
  destruct x as [[]|[]| |[] mx ex]; try discriminate; intros _; try reflexivity.
  unfold SFmul. simpl xorb. apply binary_round_aux_plus. lia.
Qed.

Lemma binary_normalize_plus z :
  0 <= z -> SFplus (binary_normalize prec emax z 0 false) = true.
Proof.
  destruct z as [|p|p]; try lia; intros _; [reflexivity|].
  unfold binary_normalize, binary_round.
  destruct (shl_align p 0 (fexp prec emax (Zpos (digits2_pos p) + 0))) as [mz ez].
  apply binary_round_aux_plus. lia.
Qed.

Lemma binary_round_ge mx ex m e :
  bounded prec emax mx ex = true ->
  e <= ex -> Zpos mx * 2 ^ (ex - e) <= Zpos m ->
  SFleb (S754_finite false mx ex) (binary_round prec emax false m e) = true.
Proof.
  intros Hb He Hle. unfold binary_round.
  pose proof (shl_align_spec m e (fexp prec emax (Zpos (digits2_pos m) + e))) as Hs.
  destruct (shl_align m e (fexp prec emax (Zpos (digits2_pos m) + e))) as [mz ez].
  destruct Hs as (H1 & _ & _ & H2).
  apply binary_round_aux_ge; auto; try lia.
  rewrite H2. replace (ex - ez) with ((ex - e) + (e - ez)) by lia.
  rewrite Z.pow_add_r by lia. rewrite Z.mul_assoc.
  apply Z.mul_le_mono_nonneg_r; [apply Z.pow_nonneg; lia|exact Hle].
Qed.

(** ** Order and sign *)

Lemma SFnonneg_inv x :
  SFnonneg x = true ->
  (exists s, x = S754_zero s) \/ x = S754_infinity false \/
  (exists m e, x = S754_finite false m e).
Proof.
  destruct x as [s|[]| |[] m e]; try discriminate; intros _; eauto.
Qed.

Lemma SFleb_refl x : x <> S754_nan -> SFleb x x = true.
Proof.
  intros H. unfold SFleb. destruct x as [s|s| |s m e]; simpl; try congruence.
  - now destruct s.
  - rewrite Z.compare_refl, Pos.compare_cont_refl. now destruct s.
Qed.

Lemma SFleb_finite m1 e1 m2 e2 :
  SFleb (S754_finite false m1 e1) (S754_finite false m2 e2) = true <->
  e1 < e2 \/ (e1 = e2 /\ (m1 <= m2)%positive).
Proof.
  unfold SFleb; simpl. fold (Pos.compare m1 m2).
  destruct (Z.compare_spec e1 e2) as [H|H|H].
  - destruct (Pos.compare_spec m1 m2) as [H'|H'|H']; split; auto; try lia; try discriminate.
  - split; auto.
  - split; [discriminate|lia].
Qed.

(** On non-negative numbers the order is transitive. *)
Lemma SFleb_trans x y z :
  SFnonneg x = true -> SFnonneg y = true -> SFnonneg z = true ->
  SFleb x y = true -> SFleb y z = true -> SFleb x z = true.
Proof.
  intros Hx Hy Hz.
  destruct (SFnonneg_inv x Hx) as [[s ->]|[->|(mx & ex & ->)]];
    destruct (SFnonneg_inv y Hy) as [[s' ->]|[->|(my & ey & ->)]];
    destruct (SFnonneg_inv z Hz) as [[s'' ->]|[->|(mz & ez & ->)]];
    try reflexivity; try discriminate; auto.
  rewrite !SFleb_finite. lia.
Qed.

(** ** Addition and division of non-negative numbers *)

Lemma SFadd_finite_ge_l mx ex md ed :
  bounded prec emax mx ex = true ->
  SFleb (S754_finite false mx ex)
        (SFadd prec emax (S754_finite false mx ex) (S754_finite false md ed)) = true.
Proof.
  intros Hb. unfold SFadd. set (ez := Z.min ex ed).
  pose proof (shl_align_spec mx ex ez) as Hx.
  pose proof (shl_align_spec md ed ez) as Hd.
  destruct (shl_align mx ex ez) as [mx' ex'], (shl_align md ed ez) as [md' ed'].
  simpl fst. simpl cond_Zopp. destruct Hx as (_ & _ & Hx1 & Hx2).
  rewrite (Hx1 ltac:(lia)) in Hx2.
  change (Zpos mx' + Zpos md') with (Zpos (mx' + md')). simpl binary_normalize.
  apply binary_round_ge; auto; try lia.
Qed.

Lemma SFadd_finite_ge_r mx ex md ed :
  bounded prec emax md ed = true ->
  SFleb (S754_finite false md ed)
        (SFadd prec emax (S754_finite false mx ex) (S754_finite false md ed)) = true.
Proof.
  intros Hb. unfold SFadd. set (ez := Z.min ex ed).
  pose proof (shl_align_spec mx ex ez) as Hx.
  pose proof (shl_align_spec md ed ez) as Hd.
  destruct (shl_align mx ex ez) as [mx' ex'], (shl_align md ed ez) as [md' ed'].
  simpl fst. simpl cond_Zopp. destruct Hd as (_ & _ & Hd1 & Hd2).
  rewrite (Hd1 ltac:(lia)) in Hd2.
  change (Zpos mx' + Zpos md') with (Zpos (mx' + md')). simpl binary_normalize.
  apply binary_round_ge; auto; try lia.
Qed.

Lemma SFadd_ge_l x d :
  valid_binary x = true -> SFnonneg x = true -> SFnonneg d = true ->
  SFleb x (SFadd prec emax x d) = true.
Proof.
  intros Hv Hx Hd.
  destruct (SFnonneg_inv x Hx) as [[s ->]|[->|(mx & ex & ->)]];
    destruct (SFnonneg_inv d Hd) as [[s' ->]|[->|(md & ed & ->)]];
    try (now apply SFadd_finite_ge_l);
    try (simpl; apply SFleb_refl; discriminate);
    try reflexivity; try (now destruct s); try (now destruct s, s').
Qed.

Lemma SFadd_ge_r x d :
  valid_binary d = true -> SFnonneg x = true -> SFnonneg d = true ->
  SFleb d (SFadd prec emax x d) = true.
Proof.
  intros Hv Hx Hd.
  destruct (SFnonneg_inv x Hx) as [[s ->]|[->|(mx & ex & ->)]];
    destruct (SFnonneg_inv d Hd) as [[s' ->]|[->|(md & ed & ->)]];
    try (now apply SFadd_finite_ge_r);
    try (simpl; apply SFleb_refl; discriminate);
    try reflexivity; try (now destruct s'); try (now destruct s, s').
Qed.

Lemma SFadd_nonneg x d :
  SFnonneg x = true -> SFnonneg d = true -> SFnonneg (SFadd prec emax x d) = true.
Proof.
  intros Hx Hd.
  destruct (SFnonneg_inv x Hx) as [[s ->]|[->|(mx & ex & ->)]];
    destruct (SFnonneg_inv d Hd) as [[s' ->]|[->|(md & ed & ->)]];
    try reflexivity; try (now destruct s, s').
  unfold SFadd. 
    destruct (shl_align mx ex (Z.min ex ed)) as [mx' ex'], (shl_align md ed (Z.min ex ed)) as [md' ed'].
    simpl. apply binary_round_nonneg.
Qed.

Lemma SFdiv_nonneg x m e :
  SFnonneg x = true ->
  SFnonneg (SFdiv prec emax x (S754_finite false m e)) = true.
Proof.
  intros Hx.
  destruct (SFnonneg_inv x Hx) as [[s ->]|[->|(mx & ex & ->)]];
    try reflexivity; try (now destruct s).
  - unfold SFdiv, SFdiv_core_binary.
    set (e' := Z.min _ _). set (s := ex - e - e').
    set (m' := match s with Zpos _ => Z.shiftl (Zpos mx) s | 0 => Zpos mx | Zneg _ => 0 end).
    assert (Hm' : 0 <= m').
    { unfold m'. destruct s; try lia. apply Z.shiftl_nonneg. lia. }
    pose proof (Z_div_mod m' (Zpos m) ltac:(lia)) as Hdiv.
    destruct (Z.div_eucl m' (Zpos m)) as [q r]. simpl xorb.
    apply binary_round_aux_nonneg. destruct Hdiv as [Hq Hr]. nia.
Qed.

Lemma shr_fexp_pos m e l r' e' :
  0 < m -> -1074 <= e -> shr_fexp prec emax m e l = (r', e') ->
  0 < shr_m r' /\ -1074 <= e'.
Proof.
  intros Hm He E. unfold shr_fexp in E. destruct m as [|p|p]; try lia.
  rewrite Zdigits2_pos, fexp_eq in E.
  apply shr_spec in E; [|rewrite shr_record_of_loc_m; lia].
  rewrite shr_record_of_loc_m in E. destruct E as [A B].
  set (n := Z.max (Zpos (digits2_pos p) + e - 53) (-1074) - e) in *.
  destruct (Z.lt_ge_cases 0 n) as [Hn|Hn].
  - destruct (A Hn) as [-> ->]. split; [|lia].
    replace n with (Zpos (digits2_pos p) - 53) by lia.
    pose proof (leading_digits p ltac:(lia)). lia.
  - destruct (B ltac:(lia)) as [-> ->]. rewrite shr_record_of_loc_m. lia.
Qed.

(** A positive mantissa above the smallest exponent does not round to zero. *)
Lemma binary_round_aux_pos m e l :
  0 < m -> -1074 <= e ->
  SFltb (S754_zero false) (binary_round_aux prec emax false m e l) = true.
Proof.
  intros Hm He. unfold binary_round_aux.
  destruct (shr_fexp prec emax m e l) as [r1 e1] eqn:E1.
  apply shr_fexp_pos in E1; auto. destruct E1 as [H1 He1].
  pose proof (round_nearest_even_bounds (shr_m r1) (loc_of_shr_record r1)) as Hr.
  destruct (shr_fexp prec emax (round_nearest_even (shr_m r1) (loc_of_shr_record r1)) e1 loc_Exact)
    as [r2 e2] eqn:E2.
  apply shr_fexp_pos in E2; auto; [|lia]. destruct E2 as [H2 _].
  destruct (shr_m r2) as [|q|q]; try lia.
  now destruct (e2 <=? emax - prec).
Qed.

Lemma bounded_digits mx ex :
  bounded prec emax mx ex = true ->
  Zpos (digits2_pos mx) <= 53 /\ -1074 <= ex /\
  (-1074 < ex -> Zpos (digits2_pos mx) = 53).
Proof. intros H. apply bounded_inv in H. lia. Qed.

(** The quotient of a positive number by a smaller positive number is
    positive: it does not underflow to zero. *)
Lemma SFdiv_finite_pos m1 e1 m2 e2 :
  bounded prec emax m1 e1 = true -> bounded prec emax m2 e2 = true ->
  SFleb (S754_finite false m2 e2) (S754_finite false m1 e1) = true ->
  SFltb (S754_zero false)
        (SFdiv prec emax (S754_finite false m1 e1) (S754_finite false m2 e2)) = true.
Proof.
  intros B1 B2 Hle. apply bounded_digits in B1, B2.
  apply SFleb_finite in Hle.
  unfold SFdiv, SFdiv_core_binary. rewrite !Zdigits2_pos, fexp_eq.
  set (d1 := Zpos (digits2_pos m1)) in *. set (d2 := Zpos (digits2_pos m2)) in *.
  assert (HA : 0 <= d1 + e1 - (d2 + e2)).
  { destruct Hle as [Hlt|[Heq Hm]].
    - lia.
    - pose proof (digits2_pos_le m2 m1 0 ltac:(lia)) as Hd.
      rewrite Z.pow_0_r, Z.mul_1_r in Hd. specialize (Hd ltac:(lia)).
      unfold d1, d2. lia. }
  set (e' := Z.min (Z.max (d1 + e1 - (d2 + e2) - 53) (-1074)) (e1 - e2)).
  set (s := e1 - e2 - e').
  assert (Hs : 53 - d1 + d2 <= s) by (unfold s, e'; lia).
  assert (Hs0 : 0 < s) by (pose proof (Pos2Z.is_pos (digits2_pos m2)); fold d2 in H; lia).
  set (m' := match s with Zpos _ => Z.shiftl (Zpos m1) s | 0 => Zpos m1 | Zneg _ => 0 end).
  assert (Hm' : Zpos m2 <= m').
  { unfold m'. destruct s as [|ps|ps] eqn:Es; try lia.
    rewrite Z.shiftl_mul_pow2 by lia.
    pose proof (digits2_pos_bounds m1) as [L1 _]. pose proof (digits2_pos_bounds m2) as [_ U2].
    fold d1 in L1. fold d2 in U2.
    assert (2 ^ (d1 - 1) * 2 ^ (53 - d1 + d2) <= Zpos m1 * 2 ^ Zpos ps).
    { apply Z.mul_le_mono_nonneg; try (apply Z.pow_nonneg; lia); try lia.
      apply Z.pow_le_mono_r; lia. }
    rewrite <- Z.pow_add_r in H by lia.
    assert (2 ^ d2 <= 2 ^ (d1 - 1 + (53 - d1 + d2))) by (apply Z.pow_le_mono_r; lia).
    lia. }
  pose proof (Z_div_mod m' (Zpos m2) ltac:(lia)) as Hdiv.
  destruct (Z.div_eucl m' (Zpos m2)) as [q r]. simpl xorb.
  apply binary_round_aux_pos; [|unfold e'; lia].
  destruct Hdiv as [Hq Hr]. nia.
Qed.

(** ** Multiplication by one *)

(** Shifting back a mantissa that was shifted left loses nothing. *)
Lemma iter_pos_shr_exact n : forall m,
  iter_pos shr_1 n (Build_shr_record (Zpos (Pos.iter xO m n)) false false)
  = Build_shr_record (Zpos m) false false.
Proof.
  induction n as [n IH|n IH|]; intros m; simpl.
  - now rewrite !IH.
  - now rewrite !IH.
  - reflexivity.
Qed.

Lemma mul_pow52 m : (4503599627370496 * m)%positive = Pos.iter xO m 52.
Proof. reflexivity. Qed.

Lemma digits2_pos_iter m n :
  Zpos (digits2_pos (Pos.iter xO m n)) = Zpos (digits2_pos m) + Zpos n.
Proof.
  pose proof (digits2_pos_bounds (Pos.iter xO m n)) as H.
  pose proof (digits2_pos_bounds m) as Hm.
  rewrite pos_iter_xO in H.
  assert (A : 2 ^ (Zpos (digits2_pos (Pos.iter xO m n)) - 1) < 2 ^ (Zpos (digits2_pos m) + Zpos n)).
  { rewrite Z.pow_add_r by lia.
    assert (Zpos m * 2 ^ Zpos n < 2 ^ Zpos (digits2_pos m) * 2 ^ Zpos n)
      by (apply Z.mul_lt_mono_pos_r; [apply Z.pow_pos_nonneg|]; lia). lia. }
  assert (B : 2 ^ (Zpos (digits2_pos m) - 1 + Zpos n) < 2 ^ Zpos (digits2_pos (Pos.iter xO m n))).
  { rewrite Z.pow_add_r by lia.
    assert (2 ^ (Zpos (digits2_pos m) - 1) * 2 ^ Zpos n <= Zpos m * 2 ^ Zpos n)
      by (apply Z.mul_le_mono_nonneg_r; [apply Z.pow_nonneg|]; lia). lia. }
  apply Z.pow_lt_mono_r_iff in A; try lia.
  apply Z.pow_lt_mono_r_iff in B; lia.
Qed.

Lemma SFmul_one x :
  valid_binary x = true ->
  SFmul prec emax (S754_finite false 4503599627370496 (-52)) x = x.
Proof.
  destruct x as [s|s| |s m e]; try reflexivity.
  intros Hv. simpl in Hv. apply bounded_inv in Hv. destruct Hv as [Hcan Hex].
  unfold SFmul. rewrite mul_pow52. 
  replace (xorb false s) with s by now destruct s.
  unfold binary_round_aux, shr_fexp. rewrite Zdigits2_pos, fexp_eq, digits2_pos_iter.
  replace (Z.max (Zpos (digits2_pos m) + 52 + (-52 + e) - 53) (-1074) - (-52 + e)) with 52 by lia.
  unfold shr at 1.
  change (shr_record_of_loc (Zpos (Pos.iter xO m 52)) loc_Exact)
    with (Build_shr_record (Zpos (Pos.iter xO m 52)) false false).
  rewrite iter_pos_shr_exact.
  unfold loc_of_shr_record, shr_m at 1 2, round_nearest_even.
  rewrite Zdigits2_pos, fexp_eq.
  replace (Z.max (Zpos (digits2_pos m) + (-52 + e + 52) - 53) (-1074) - (-52 + e + 52)) with 0 by lia.
  unfold shr, shr_record_of_loc, shr_m.
  replace (-52 + e + 52) with e by lia.
  change (emax - prec) with 971. apply Z.leb_le in Hex. now rewrite Hex.
Qed.

(** ** The primitive operations *)

Local Open Scope float_scope.

Lemma SFcompare_refl x : x <> S754_nan -> SFcompare x x = Some Eq.
Proof.
  destruct x as [s|s| |s m e]; simpl; try congruence; intros _.
  - now destruct s.
  - rewrite Z.compare_refl, Pos.compare_cont_refl. now destruct s.
Qed.

Lemma is_nan_spec x : is_nan x = match Prim2SF x with S754_nan => true | _ => false end.
Proof.
  unfold is_nan. rewrite eqb_spec. unfold SFeqb.
  destruct (Prim2SF x) eqn:E; try (rewrite SFcompare_refl by congruence; reflexivity).
  reflexivity.
Qed.

Lemma is_finite_spec x : is_finite x = SFfin (Prim2SF x).
Proof.
  unfold is_finite. rewrite is_nan_spec. unfold is_infinity.
  rewrite eqb_spec, abs_spec. change (Prim2SF infinity) with (S754_infinity false).
  destruct (Prim2SF x) as [s|s| |s m e]; reflexivity.
Qed.

Lemma sub_zero_eqb x z s :
  is_finite x = true -> Prim2SF z = S754_zero s -> (x - z =? x) = true.
Proof.
  rewrite is_finite_spec, eqb_spec, sub_spec. intros Hx ->.
  unfold SFeqb, SF64sub. destruct (Prim2SF x) as [sx|sx| |sx mx ex] eqn:E; try discriminate.
  - now destruct sx, s.
  - unfold SFsub. now rewrite SFcompare_refl.
Qed.

Lemma mul_zero_finite t :
  is_finite t = true -> exists s, Prim2SF (0 * t) = S754_zero s.
Proof.
  rewrite is_finite_spec, mul_spec. change (Prim2SF 0) with (S754_zero false).
  destruct (Prim2SF t) as [s|s| |s m e]; try discriminate; intros _; eexists; reflexivity.
Qed.

Lemma gradient_finite_right r2 x D C :
  is_finite (((r2 - x) / D) * C) = true -> is_finite x = true.
Proof.
  rewrite !is_finite_spec, mul_spec, div_spec, sub_spec.
  destruct (Prim2SF x) as [s|s| |s m e]; auto.
  - destruct (Prim2SF r2) as [s2|s2| |s2 m2 e2]; try destruct s, s2;
      destruct (Prim2SF D) as [sd|sd| |sd md ed];
      destruct (Prim2SF C) as [sc|sc| |sc mc ec]; simpl; intros; congruence.
  - destruct (Prim2SF r2) as [s2|s2| |s2 m2 e2];
      destruct (Prim2SF D) as [sd|sd| |sd md ed];
      destruct (Prim2SF C) as [sc|sc| |sc mc ec]; simpl; intros; congruence.
Qed.

Lemma Prim2SF_zero : Prim2SF 0 = S754_zero false.
Proof. reflexivity. Qed.

Lemma leb_zero_spec x : (0 <=? x) = SFnonneg (Prim2SF x).
Proof. now rewrite leb_spec. Qed.

(** Adding a non-negative number does not decrease a non-negative number. *)
Lemma add_ge_l x d :
  (0 <=? x) = true -> (0 <=? d) = true -> (x <=? x + d) = true.
Proof.
  rewrite !leb_zero_spec, leb_spec, add_spec. intros Hx Hd.
  apply SFadd_ge_l; auto. apply Prim2SF_valid.
Qed.

Lemma add_ge_r x d :
  (0 <=? x) = true -> (0 <=? d) = true -> (d <=? x + d) = true.
Proof.
  rewrite !leb_zero_spec, leb_spec, add_spec. intros Hx Hd.
  apply SFadd_ge_r; auto. apply Prim2SF_valid.
Qed.

Lemma add_nonneg x d :
  (0 <=? x) = true -> (0 <=? d) = true -> (0 <=? x + d) = true.
Proof.
  rewrite !leb_zero_spec, add_spec. apply SFadd_nonneg.
Qed.

(** Metres to kilometres keeps a distance non-negative. *)
Lemma div_km_nonneg d : (0 <=? d) = true -> (0 <=? d / km) = true.
Proof.
  rewrite !leb_zero_spec, div_spec. intros Hd.
  assert (E : exists m e, Prim2SF km = S754_finite false m e)
    by (vm_compute; eauto).
  destruct E as (m & e & ->). now apply SFdiv_nonneg.
Qed.

Lemma mul_one t : 1 * t = t.
Proof.
  apply Prim2SF_inj. rewrite mul_spec.
  change (Prim2SF 1) with (S754_finite false 4503599627370496 (-52)).
  apply SFmul_one. apply Prim2SF_valid.
Qed.

Lemma leb_refl x : (0 <=? x) = true -> (x <=? x) = true.
Proof.
  rewrite leb_zero_spec, leb_spec. intros H. apply SFleb_refl.
  intros E. rewrite E in H. discriminate.
Qed.

Lemma leb_trans x y z :
  (0 <=? x) = true -> (0 <=? y) = true -> (0 <=? z) = true ->
  (x <=? y) = true -> (y <=? z) = true -> (x <=? z) = true.
Proof. rewrite !leb_zero_spec, !leb_spec. apply SFleb_trans. Qed.

(** A positive finite number is a mantissa and an exponent with a clear
    sign bit. *)
Lemma positive_finite_inv x :
  (0 <? x) = true -> is_finite x = true ->
  exists m e, Prim2SF x = S754_finite false m e.
Proof.
  rewrite ltb_spec, is_finite_spec, Prim2SF_zero.
  destruct (Prim2SF x) as [s|s| |[] m e]; try discriminate; eauto.
Qed.

Lemma of_uint63_plus n : SFplus (Prim2SF (of_uint63 n)) = true.
Proof.
  rewrite of_uint63_spec. apply binary_normalize_plus.
  apply Uint63.to_Z_bounded.
Qed.

(** [0 + y] is [y] when the sign bit of [y] is clear. *)
Lemma zero_add y : SFplus (Prim2SF y) = true -> 0 + y = y.
Proof.
  intros H. apply Prim2SF_inj. rewrite add_spec, Prim2SF_zero.
  now destruct (Prim2SF y) as [[]|[]| |[] m e].
Qed.

Lemma sub_zero x : x - 0 = x.
Proof.
  apply Prim2SF_inj. rewrite sub_spec, Prim2SF_zero.
  now destruct (Prim2SF x) as [[]|s| |s m e].
Qed.

(** A number whose sign bit is clear is not below zero. *)
Lemma plus_not_below_zero y : SFplus (Prim2SF y) = true -> (y <? 0) = false.
Proof.
  rewrite ltb_spec, Prim2SF_zero.
  now destruct (Prim2SF y) as [[]|[]| |[] m e].
Qed.

Lemma zero_mul x m e : Prim2SF x = S754_finite false m e -> 0 * x = 0.
Proof.
  intros H. apply Prim2SF_inj. now rewrite mul_spec, Prim2SF_zero, H.
Qed.

Lemma mul_plus i x m e :
  SFplus (Prim2SF i) = true -> Prim2SF x = S754_finite false m e ->
  SFplus (Prim2SF (i * x)) = true.
Proof.
  intros Hi H. rewrite mul_spec, H. now apply SFmul_plus.
Qed.

Lemma ltb_leb x : (0 <? x) = true -> (0 <=? x) = true.
Proof.
  rewrite ltb_spec, leb_spec. unfold SFltb, SFleb.
  now destruct (SFcompare (Prim2SF 0) (Prim2SF x)) as [[]|].
Qed.

(** Dividing by a positive finite number a number that is not below it
    gives a positive quotient. *)
Lemma div_pos y x :
  (0 <? x) = true -> is_finite x = true -> (x <=? y) = true ->
  (0 <? y / x) = true.
Proof.
  intros Hx Hfin Hle. destruct (positive_finite_inv x Hx Hfin) as (m2 & e2 & E2).
  pose proof (Prim2SF_valid x) as V2. pose proof (Prim2SF_valid y) as V1.
  rewrite leb_spec in Hle. rewrite ltb_spec, div_spec, Prim2SF_zero.
  rewrite E2 in *. destruct (Prim2SF y) as [s|[]| |[] m1 e1]; try discriminate.
  - reflexivity.
  - now apply SFdiv_finite_pos.
Qed.

(** The ceiling of a positive number is at least 1. *)
Lemma ceil_pos q n : (0 <? q) = true -> ceil_to_Z q = Some n -> (1 <= n)%Z.
Proof.
  rewrite ltb_spec, Prim2SF_zero. unfold ceil_to_Z.
  destruct (Prim2SF q) as [s|s| |[] m e]; try discriminate.
  intros _ [= <-]. destruct (Z.leb_spec 0 e) as [He|He].
  - assert (H : (0 < 2 ^ e)%Z) by (apply Z.pow_pos_nonneg; lia).
    destruct (2 ^ e)%Z; lia.
  - assert (H : ((- Zpos m) / 2 ^ (- e) < 0)%Z).
    { apply Z.div_lt_upper_bound; [apply Z.pow_pos_nonneg; lia|lia]. }
    lia.
Qed.

End Binary64.
(** * Rows and cells *)

Lemma upd_length j v r : length (upd j v r) = length r.
Proof.
  revert j; induction r as [|x t IH]; intros [|j]; simpl; auto.
Qed.

Lemma cell_upd_eq j v r : (j < length r)%nat -> cell (upd j v r) j = v.
Proof.
  unfold cell. revert j; induction r as [|x t IH]; intros [|j] H; simpl in *;
    try lia; auto. apply IH; lia.
Qed.

Lemma cell_upd_neq j k v r : j <> k -> cell (upd j v r) k = cell r k.
Proof.
  unfold cell. revert j k; induction r as [|x t IH]; intros [|j] [|k] H; simpl;
    auto; try congruence.
Qed.

Lemma cell_outside r j : (length r <= j)%nat -> cell r j = nan.
Proof. intros H. unfold cell. now apply nth_overflow. Qed.

Lemma upd_upd j v w r : upd j v (upd j w r) = upd j v r.
Proof.
  revert j; induction r as [|x t IH]; intros [|j]; simpl; auto.
  now rewrite IH.
Qed.

Lemma upd_swap j k v w r :
  j <> k -> upd j v (upd k w r) = upd k w (upd j v r).
Proof.
  revert j k; induction r as [|x t IH]; intros [|j] [|k] H; simpl; auto;
    try congruence.
  rewrite IH; auto.
Qed.

Lemma upd_cell j r : upd j (cell r j) r = r.
Proof.
  unfold cell. revert j; induction r as [|x t IH]; intros [|j]; simpl; auto.
  now rewrite IH.
Qed.

Lemma get_map_rows f g i j :
  (i < nrows g)%nat -> get (map_rows f g) i j = cell (f (nth i (rows g) [])) j.
Proof.
  intros H. unfold get, map_rows; simpl.
  rewrite nth_indep with (d' := f []) by (rewrite length_map; exact H).
  now rewrite map_nth.
Qed.

Lemma get_outside_rows g i j : (nrows g <= i)%nat -> get g i j = nan.
Proof.
  intros H. unfold get. rewrite nth_overflow by exact H. now destruct j.
Qed.

Lemma map_rows_nth f g i :
  (i < nrows g)%nat -> nth i (rows (map_rows f g)) [] = f (nth i (rows g) []).
Proof.
  intros H. unfold map_rows; simpl.
  rewrite nth_indep with (d' := f []) by (rewrite length_map; exact H).
  apply map_nth.
Qed.

Lemma last_row_map_rows f g r :
  last_row g = Some r -> last_row (map_rows f g) = Some (f r).
Proof.
  unfold last_row. replace (nrows (map_rows f g)) with (nrows g)
    by (unfold nrows, map_rows; simpl; now rewrite length_map).
  destruct (nrows g) as [|k] eqn:E; [discriminate|].
  intros [= <-]. f_equal. apply map_rows_nth. lia.
Qed.

Lemma last_row_get g r j :
  last_row g = Some r -> cell r j = get g (nrows g - 1) j /\ (0 < nrows g)%nat.
Proof.
  unfold last_row, get. destruct (nrows g) as [|k]; [discriminate|].
  intros [= <-]. replace (S k - 1)%nat with k by lia. split; [reflexivity|lia].
Qed.

Lemma nrows_map_rows f g : nrows (map_rows f g) = nrows g.
Proof. unfold nrows, map_rows; simpl. apply length_map. Qed.

Lemma get_map_rows_cell f g i j :
  (forall r, cell (f r) j = cell r j) -> get (map_rows f g) i j = get g i j.
Proof.
  intros H. destruct (Nat.lt_ge_cases i (nrows g)) as [Hi|Hi].
  - rewrite get_map_rows by exact Hi. apply H.
  - rewrite !get_outside_rows; auto. now rewrite nrows_map_rows.
Qed.

(** * What one statement of [extrap_sec] does *)

Lemma same_shape_refl g : same_shape g g.
Proof. split; reflexivity. Qed.

Lemma same_shape_trans g1 g2 g3 :
  same_shape g1 g2 -> same_shape g2 g3 -> same_shape g1 g3.
Proof. intros [A B] [C D]. split; congruence. Qed.

Lemma same_shape_nrows g g' : same_shape g g' -> nrows g' = nrows g.
Proof.
  intros [_ H]. unfold nrows. rewrite <- (length_map (@length float) (rows g')), H.
  apply length_map.
Qed.

Lemma same_shape_rectangular g g' :
  same_shape g g' -> rectangular g -> rectangular g'.
Proof.
  intros [Hc Hr] H. unfold rectangular in *. rewrite Hc.
  rewrite Forall_forall in *. intros r Hin.
  apply (in_map (@length float)) in Hin. rewrite Hr in Hin.
  apply in_map_iff in Hin. destruct Hin as (r0 & <- & Hin0). now apply H.
Qed.

Lemma keeps_data_refl g : keeps_data g g.
Proof. intros i j _. reflexivity. Qed.

Lemma keeps_data_trans g1 g2 g3 :
  keeps_data g1 g2 -> keeps_data g2 g3 -> keeps_data g1 g3.
Proof.
  intros A B i j H. rewrite <- (A i j H). apply B. now rewrite (A i j H).
Qed.

Lemma untouched_refl P g : untouched P g g.
Proof. intros i j _. reflexivity. Qed.

Lemma untouched_trans P g1 g2 g3 :
  untouched P g1 g2 -> untouched P g2 g3 -> untouched P g1 g3.
Proof. intros A B i j H. rewrite (B i j H). now apply A. Qed.

Lemma untouched_weaken (P Q : nat -> Prop) g g' :
  (forall j, Q j -> P j) -> untouched P g g' -> untouched Q g g'.
Proof. intros H A i j Hq. apply A. now apply H. Qed.

Create HintDb frame.
#[local] Hint Resolve same_shape_refl keeps_data_refl untouched_refl : frame.

Lemma same_shape_map_rows f g :
  (forall r, length (f r) = length r) -> same_shape g (map_rows f g).
Proof.
  intros H. split; [reflexivity|]. unfold map_rows; simpl.
  rewrite map_map. apply map_ext. exact H.
Qed.

Section Rows.

Variables (fd d0 d1 d2 : float).

Lemma seed_row_length c r : length (seed_row c r) = length r.
Proof. unfold seed_row. destruct (isnan (cell r c)); auto using upd_length. Qed.

Lemma fill_row_length col r : length (fill_row fd d0 d1 d2 col r) = length r.
Proof. unfold fill_row. destruct (isnan (cell r col)); auto using upd_length. Qed.

Lemma cell_seed_row_other c r j : j <> c -> cell (seed_row c r) j = cell r j.
Proof.
  intros H. unfold seed_row. destruct (isnan (cell r c)); auto.
  apply cell_upd_neq. congruence.
Qed.

Lemma cell_fill_row_other col r j :
  j <> col -> cell (fill_row fd d0 d1 d2 col r) j = cell r j.
Proof.
  intros H. unfold fill_row. destruct (isnan (cell r col)); auto.
  apply cell_upd_neq. congruence.
Qed.

Lemma cell_seed_row_data c r j :
  isnan (cell r j) = false -> cell (seed_row c r) j = cell r j.
Proof.
  intros H. destruct (Nat.eq_dec j c) as [->|Hne].
  - unfold seed_row. now rewrite H.
  - now apply cell_seed_row_other.
Qed.

Lemma cell_fill_row_data col r j :
  isnan (cell r j) = false -> cell (fill_row fd d0 d1 d2 col r) j = cell r j.
Proof.
  intros H. destruct (Nat.eq_dec j col) as [->|Hne].
  - unfold fill_row. now rewrite H.
  - now apply cell_fill_row_other.
Qed.

(** The cell a row operation rewrites. *)
Lemma cell_seed_row_same c r :
  (c < length r)%nat ->
  cell (seed_row c r) c = if isnan (cell r c) then cell r (S c) else cell r c.
Proof.
  intros H. unfold seed_row. destruct (isnan (cell r c)); auto.
  now apply cell_upd_eq.
Qed.

Lemma cell_fill_row_same col r :
  (col < length r)%nat ->
  cell (fill_row fd d0 d1 d2 col r) col =
  if isnan (cell r col) then extrapolated fd d0 d1 d2 r col else cell r col.
Proof.
  intros H. unfold fill_row. destruct (isnan (cell r col)); auto.
  now apply cell_upd_eq.
Qed.

(** The stored value only looks at the two columns to the right. *)
Lemma extrapolated_ext col r r' :
  cell r' (col + 1) = cell r (col + 1) -> cell r' (col + 2) = cell r (col + 2) ->
  extrapolated fd d0 d1 d2 r' col = extrapolated fd d0 d1 d2 r col.
Proof. intros A B. unfold extrapolated. now rewrite A, B. Qed.

End Rows.

Lemma fill_column_step dist fd col g :
  column_step dist fd col g (fst (fill_column dist fd col g))
                            (snd (fill_column dist fd col g)).
Proof.
  unfold fill_column, bottom_isnan, column, index, bind, read, ret, raise, write.
  destruct (Nat.ltb_spec col (ncols g)) as [Hc|Hc]; simpl; [|constructor].
  destruct (last_row g) as [r|] eqn:Hr; simpl; [|constructor].
  destruct (isnan (cell r col)) eqn:Hn; simpl; [|now apply step_skip with r].
  destruct (Nat.ltb_spec (col + 1) (ncols g)) as [H1|H1]; simpl; [|constructor].
  destruct (Nat.ltb_spec (col + 2) (ncols g)) as [H2|H2]; simpl; [|constructor].
  destruct (nth_error dist (col + 2)) as [d2|] eqn:E2; simpl; [|constructor].
  destruct (nth_error dist (col + 1)) as [d1|] eqn:E1; simpl; [|constructor].
  destruct (nth_error dist col) as [d0|] eqn:E0; simpl; [|constructor].
  now apply step_fill with r.
Qed.

Lemma fill_column_inv dist fd col g g' res :
  fill_column dist fd col g = (g', res) -> column_step dist fd col g g' res.
Proof.
  intros H. generalize (fill_column_step dist fd col g). now rewrite H.
Qed.

(** The loop body keeps the shape, every other column, and every cell that
    holds a number. *)
Lemma column_step_frame dist fd col g g' res :
  column_step dist fd col g g' res ->
  same_shape g g' /\ keeps_data g g' /\ untouched (fun j => j <> col) g g'.
Proof.
  intros H; inversion H; subst;
    auto with frame.
  split; [|split].
  - apply same_shape_map_rows. intros; apply fill_row_length.
  - intros i j Hd. unfold keeps_data. destruct (Nat.lt_ge_cases i (nrows g)) as [Hi|Hi].
    + rewrite get_map_rows by exact Hi. now apply cell_fill_row_data.
    + rewrite get_outside_rows in Hd by exact Hi. discriminate.
  - intros i j Hj. apply get_map_rows_cell. intros r0. now apply cell_fill_row_other.
Qed.

Lemma seed_cases g :
  seed g = if Nat.ltb (ncols g) 2 then (g, Raised IndexError)
           else (map_rows (seed_row (ncols g - 2)) g, Normal tt).
Proof.
  unfold seed, bind, read, raise, write. now destruct (Nat.ltb (ncols g) 2).
Qed.

Lemma seed_frame g g' res :
  seed g = (g', res) ->
  same_shape g g' /\ keeps_data g g' /\ untouched (fun j => j <> ncols g - 2)%nat g g'.
Proof.
  rewrite seed_cases. destruct (Nat.ltb (ncols g) 2); intros [= <- <-].
  - auto with frame.
  - split; [|split].
    + apply same_shape_map_rows. intros; apply seed_row_length.
    + intros i j Hd. destruct (Nat.lt_ge_cases i (nrows g)) as [Hi|Hi].
      * rewrite get_map_rows by exact Hi. now apply cell_seed_row_data.
      * rewrite get_outside_rows in Hd by exact Hi. discriminate.
    + intros i j Hj. apply get_map_rows_cell. intros r0. now apply cell_seed_row_other.
Qed.

Lemma fill_columns_frame dist fd k : forall g g' res,
  fill_columns dist fd k g = (g', res) ->
  same_shape g g' /\ keeps_data g g' /\ untouched (fun j => j = O \/ k < j)%nat g g'.
Proof.
  induction k as [|k IH]; intros g g' res; simpl.
  - intros [= <- <-].
    auto with frame.
  - unfold bind. destruct (fill_column dist fd (S k) g) as [g1 r1] eqn:E1.
    apply fill_column_inv, column_step_frame in E1. destruct E1 as (S1 & K1 & U1).
    assert (U1' : untouched (fun j => j = O \/ S k < j)%nat g g1)
      by (eapply untouched_weaken; [|exact U1]; simpl; lia).
    destruct r1 as [[]|e].
    + intros E2. apply IH in E2. destruct E2 as (S2 & K2 & U2).
      split; [eapply same_shape_trans; eauto|].
      split; [eapply keeps_data_trans; eauto|].
      eapply untouched_trans; [exact U1'|].
      eapply untouched_weaken; [|exact U2]; simpl; lia.
    + intros [= <- <-]. auto.
Qed.

(** A run of the whole function keeps the shape and the measured cells,
    whether it returns or raises. *)
Lemma extrap_sec_frame gsw lon lat fd g g' res :
  extrap_sec gsw lon lat fd g = (g', res) -> same_shape g g' /\ keeps_data g g'.
Proof.
  unfold extrap_sec, bind. destruct (seed g) as [g0 r0] eqn:E0.
  apply seed_frame in E0. destruct E0 as (S0 & K0 & _).
  destruct r0 as [[]|e].
  - intros E1. apply fill_columns_frame in E1. destruct E1 as (S1 & K1 & _).
    split; [eapply same_shape_trans|eapply keeps_data_trans]; eauto.
  - intros [= <- <-]. auto.
Qed.

(** A column whose bottom cell holds a number, or which has fewer than two
    columns to its right, goes through the loop unchanged. *)
Lemma fill_columns_skips dist fd k : forall g g' res j,
  fill_columns dist fd k g = (g', res) ->
  isnan (get g (nrows g - 1) j) = false \/ (ncols g <= j + 2)%nat ->
  forall i, get g' i j = get g i j.
Proof.
  induction k as [|k IH]; intros g g' res j; simpl.
  - now intros [= <- <-].
  - unfold bind. destruct (fill_column dist fd (S k) g) as [g1 r1] eqn:E1.
    intros E2 Hj.
    assert (H1 : forall i, get g1 i j = get g i j).
    { apply fill_column_inv in E1. inversion E1; subst; auto.
      destruct (Nat.eq_dec j (S k)) as [->|Hne].
      - exfalso. destruct Hj as [Hj|Hj]; [|lia].
        destruct (last_row_get g r (S k) H0) as [Hb _]. congruence.
      - intros i. apply get_map_rows_cell. intros r0.
        now apply cell_fill_row_other. }
    apply fill_column_inv, column_step_frame in E1. destruct E1 as (S1 & _ & _).
    destruct r1 as [[]|e]; [|injection E2 as <- <-; exact H1].
    intros i. rewrite <- H1. apply (IH g1 g' res j E2).
    rewrite (same_shape_nrows _ _ S1), H1. destruct S1 as [-> _]. exact Hj.
Qed.

(** * Running [extrap_sec] on its own output *)

(** The first iteration of a loop that returns has returned: name the
    array it leaves and the equation of its run. *)
Ltac first_step g1 E :=
  unfold bind;
  match goal with
  | |- context [fill_column ?d ?f ?c ?g] =>
      destruct (fill_column d f c g) as [g1 [[]|?]] eqn:E; [|discriminate]
  end.

Lemma map_fixed {A} (f : A -> A) l : map f l = l -> forall x, In x l -> f x = x.
Proof.
  induction l as [|a l IH]; simpl; intros H x Hx; [contradiction|].
  injection H as Ha Hl. destruct Hx as [<-|Hx]; auto.
Qed.

Lemma map_rows_fixed f g : (forall r, In r (rows g) -> f r = r) -> map_rows f g = g.
Proof.
  intros H. destruct g as [n rs]. unfold map_rows; simpl in *. f_equal.
  induction rs as [|r rs IH]; simpl; auto.
  rewrite H by now left. f_equal. apply IH. intros; apply H; now right.
Qed.

Lemma map_rows_fixed_inv f g r : map_rows f g = g -> In r (rows g) -> f r = r.
Proof.
  intros H. apply map_fixed. apply (f_equal rows) in H. exact H.
Qed.

Lemma map_rows_compose_fixed f h g :
  (forall r, In r (rows g) -> f (h r) = h r) ->
  map_rows f (map_rows h g) = map_rows h g.
Proof.
  intros H. apply map_rows_fixed. unfold map_rows; simpl. intros r Hin.
  apply in_map_iff in Hin. destruct Hin as (r0 & <- & Hin). now apply H.
Qed.

Section Stability.

Variables (dist : list float) (fd : float).

(** A successful step determines the outcome of [fill_column]. *)
Lemma column_step_run col g g' :
  column_step dist fd col g g' (Normal tt) ->
  fill_column dist fd col g = (g', Normal tt).
Proof.
  intros H. remember (Normal tt) as res eqn:Hres.
  destruct H as [|r Hc Hr Hn|r d0 d1 d2 Hc Hr Hn E0 E1 E2]; try discriminate;
    unfold fill_column, bottom_isnan, column, index, bind, read, ret, raise, write.
  - apply Nat.ltb_lt in Hc. now rewrite Hc, Hr, Hn.
  - assert (H0 : Nat.ltb col (ncols g) = true) by (apply Nat.ltb_lt; lia).
    assert (H1 : Nat.ltb (col + 1) (ncols g) = true) by (apply Nat.ltb_lt; lia).
    apply Nat.ltb_lt in Hc. now rewrite H0, Hr, Hn, H1, Hc, E2, E1, E0.
Qed.

Lemma seed_row_idem c r : seed_row c (seed_row c r) = seed_row c r.
Proof.
  unfold seed_row at 2 3. destruct (isnan (cell r c)) eqn:Hn.
  - unfold seed_row. destruct (isnan (cell (upd c (cell r (S c)) r) c)); auto.
    rewrite cell_upd_neq by lia. apply upd_upd.
  - unfold seed_row. now rewrite Hn.
Qed.

Lemma fill_row_idem d0 d1 d2 col r :
  fill_row fd d0 d1 d2 col (fill_row fd d0 d1 d2 col r) = fill_row fd d0 d1 d2 col r.
Proof.
  unfold fill_row at 2 3. destruct (isnan (cell r col)) eqn:Hn.
  - set (v := extrapolated fd d0 d1 d2 r col). unfold fill_row.
    destruct (isnan (cell (upd col v r) col)); auto.
    rewrite (extrapolated_ext fd d0 d1 d2 col r) by (apply cell_upd_neq; lia).
    apply upd_upd.
  - unfold fill_row. now rewrite Hn.
Qed.

(** A row that filling column [k] leaves alone is still left alone after
    a column [j] to the left of [k] has been filled. *)
Lemma fill_row_fixed_after d0 d1 d2 e0 e1 e2 j k r :
  (j < k)%nat ->
  fill_row fd d0 d1 d2 k r = r ->
  fill_row fd d0 d1 d2 k (fill_row fd e0 e1 e2 j r) = fill_row fd e0 e1 e2 j r.
Proof.
  intros Hjk Hfix. set (r' := fill_row fd e0 e1 e2 j r).
  assert (Hc : forall c, (k <= c)%nat -> cell r' c = cell r c)
    by (intros c Hc; apply cell_fill_row_other; lia).
  unfold fill_row at 1. rewrite (Hc k) by lia.
  unfold fill_row in Hfix. destruct (isnan (cell r k)); auto.
  rewrite (extrapolated_ext fd d0 d1 d2 k r) by (apply Hc; lia).
  set (v := extrapolated fd d0 d1 d2 r k) in *.
  unfold r', fill_row. destruct (isnan (cell r j)); auto.
  rewrite upd_swap by lia. now rewrite Hfix.
Qed.

Lemma seed_row_fixed_after e0 e1 e2 j c r :
  (j < c)%nat ->
  seed_row c r = r ->
  seed_row c (fill_row fd e0 e1 e2 j r) = fill_row fd e0 e1 e2 j r.
Proof.
  intros Hjc Hfix. set (r' := fill_row fd e0 e1 e2 j r).
  assert (Hc : forall k, (c <= k)%nat -> cell r' k = cell r k)
    by (intros k Hk; apply cell_fill_row_other; lia).
  unfold seed_row at 1. rewrite (Hc c), (Hc (S c)) by lia.
  unfold seed_row in Hfix. destruct (isnan (cell r c)); auto.
  unfold r', fill_row. destruct (isnan (cell r j)); auto.
  rewrite upd_swap by lia. now rewrite Hfix.
Qed.

(** After the body has run on column [col], running it again changes
    nothing. *)
Lemma fill_column_again col g g' :
  fill_column dist fd col g = (g', Normal tt) ->
  fill_column dist fd col g' = (g', Normal tt).
Proof.
  intros H. pose proof (fill_column_inv _ _ _ _ _ _ H) as Hs.
  inversion Hs as [|r Hc Hr Hn|r d0 d1 d2 Hc Hr Hn E0 E1 E2]; subst; auto.
  apply column_step_run.
  set (f := fill_row fd d0 d1 d2 col).
  destruct (isnan (cell (f r) col)) eqn:Hn'.
  - rewrite <- (map_rows_compose_fixed f f g) at 2
      by (intros; apply fill_row_idem).
    apply step_fill with (r := f r); auto. now apply last_row_map_rows.
  - apply step_skip with (r := f r); auto; [simpl; lia|now apply last_row_map_rows].
Qed.

(** A column on which the body changes nothing stays so while columns to
    its left are filled. *)
Lemma fill_column_stays j k g g' :
  (j < k)%nat ->
  fill_column dist fd k g = (g, Normal tt) ->
  fill_column dist fd j g = (g', Normal tt) ->
  fill_column dist fd k g' = (g', Normal tt).
Proof.
  intros Hjk Hk Hj. apply fill_column_inv in Hj.
  inversion Hj as [|r Hc Hr Hn|r e0 e1 e2 Hc Hr Hn E0 E1 E2]; subst; auto.
  set (h := fill_row fd e0 e1 e2 j).
  assert (Hcell : forall r0, cell (h r0) k = cell r0 k)
    by (intros; apply cell_fill_row_other; lia).
  apply fill_column_inv in Hk. apply column_step_run.
  remember (Normal tt) as res eqn:Hres. remember g as g1 eqn:Hg in Hk at 2.
  destruct Hk as [|r' Hc' Hr' Hn'|r' d0 d1 d2 Hc' Hr' Hn' F0 F1 F2]; try discriminate.
  - apply step_skip with (r := h r'); auto.
    + now apply last_row_map_rows.
    + now rewrite Hcell.
  - set (f := fill_row fd d0 d1 d2 k) in *.
    rewrite <- (map_rows_compose_fixed f h g) at 2.
    + apply step_fill with (r := h r'); auto.
      * now apply last_row_map_rows.
      * now rewrite Hcell.
    + intros r0 Hin. apply fill_row_fixed_after; auto.
      apply (map_rows_fixed_inv f g); auto.
Qed.

Lemma fill_columns_stays k : forall m g g',
  (m < k)%nat ->
  fill_column dist fd k g = (g, Normal tt) ->
  fill_columns dist fd m g = (g', Normal tt) ->
  fill_column dist fd k g' = (g', Normal tt).
Proof.
  induction m as [|m IH]; intros g g' Hm Hk; simpl.
  - now intros [= <-].
  - first_step g1 E1. intros E2. apply (IH g1 g'); auto; [lia|].
    apply (fill_column_stays (S m) k g g1); auto.
Qed.

(** The loop, run again on its own result, changes nothing. *)
Lemma fill_columns_again : forall k g g',
  fill_columns dist fd k g = (g', Normal tt) ->
  fill_columns dist fd k g' = (g', Normal tt).
Proof.
  induction k as [|k IH]; intros g g'; simpl; [reflexivity|].
  first_step g1 E1.
  intros E2. apply fill_column_again in E1.
  rewrite (fill_columns_stays (S k) k g1 g') by auto.
  now apply (IH g1).
Qed.

Lemma seed_again g g' : seed g = (g', Normal tt) -> seed g' = (g', Normal tt).
Proof.
  rewrite !seed_cases. destruct (Nat.ltb (ncols g) 2) eqn:E; [discriminate|].
  intros [= <-]. simpl ncols. rewrite E. f_equal.
  apply map_rows_compose_fixed. intros; apply seed_row_idem.
Qed.

Lemma seed_stays j g g' :
  seed g = (g, Normal tt) ->
  fill_column dist fd j g = (g', Normal tt) ->
  seed g' = (g', Normal tt).
Proof.
  intros Hs Hj. apply fill_column_inv in Hj.
  inversion Hj as [|r Hc Hr Hn|r e0 e1 e2 Hc Hr Hn E0 E1 E2]; subst; auto.
  rewrite seed_cases in *. simpl ncols.
  destruct (Nat.ltb (ncols g) 2) eqn:E; [discriminate|]. f_equal.
  injection Hs as Hs. apply map_rows_compose_fixed. intros r0 Hin.
  apply seed_row_fixed_after; [lia|].
  apply (map_rows_fixed_inv _ g); auto.
Qed.

Lemma seed_stays_loop : forall k g g',
  seed g = (g, Normal tt) ->
  fill_columns dist fd k g = (g', Normal tt) ->
  seed g' = (g', Normal tt).
Proof.
  induction k as [|k IH]; intros g g' Hs; simpl.
  - now intros [= <-].
  - first_step g1 E1. intros E2. apply (IH g1 g'); auto. now apply (seed_stays (S k) g g1).
Qed.

End Stability.

(** * The values [extrap_sec] stores *)

Lemma rectangular_row g i :
  rectangular g -> (i < nrows g)%nat -> length (nth i (rows g) []) = ncols g.
Proof.
  intros H Hi. unfold rectangular in H. rewrite Forall_forall in H.
  apply H. now apply nth_In.
Qed.

Lemma fill_columns_values dist fd : forall k g out,
  rectangular g ->
  fill_columns dist fd k g = (out, Normal tt) ->
  forall col i, (1 <= col <= k)%nat -> (i < nrows g)%nat ->
  get out i col =
  if shadowed g i col
  then get out i (col + 1) - fd * gradient_term dist out i col
  else get g i col.
Proof.
  induction k as [|k IH]; intros g out Hrect; simpl; [intros; lia|].
  first_step g1 E1.
  intros E2 col i Hcol Hi.
  pose proof (fill_column_inv _ _ _ _ _ _ E1) as Hstep.
  destruct (column_step_frame _ _ _ _ _ _ Hstep) as (S1 & _ & U1).
  pose proof (same_shape_nrows _ _ S1) as N1.
  destruct (fill_columns_frame _ _ _ _ _ _ E2) as (_ & _ & U2).
  destruct (Nat.eq_dec col (S k)) as [->|Hne].
  - rewrite (U2 i (S k)) by (right; lia).
    inversion Hstep as [|r Hc Hr Hn|r d0 d1 d2 Hc Hr Hn E0 E1' E2']; subst g1.
    + destruct (last_row_get g r (S k) Hr) as [Hb _].
      unfold shadowed. now rewrite <- Hb, Hn.
    + destruct (last_row_get g r (S k) Hr) as [Hb _].
      unfold shadowed. rewrite <- Hb, Hn. simpl andb.
      rewrite get_map_rows by exact Hi.
      rewrite cell_fill_row_same by (rewrite rectangular_row; auto; lia).
      fold (get g i (S k)). destruct (isnan (get g i (S k))); auto.
      unfold extrapolated, gradient_term.
      rewrite (nth_error_nth _ _ nan E0), (nth_error_nth _ _ nan E1'),
        (nth_error_nth _ _ nan E2').
      fold (get g i (S k + 1)) (get g i (S k + 2)).
      rewrite !(U2 i) by (right; lia).
      rewrite !(U1 i) by lia. reflexivity.
  - rewrite (IH g1 out) with (col := col) (i := i); auto; try lia.
    + unfold shadowed. rewrite N1, !(U1 _ col) by exact Hne. reflexivity.
    + now apply (same_shape_rectangular g).
Qed.


(** * The theorems on [extrap_sec] *)

(** C4.  The grid [extrap_sec] returns (more generally the grid it leaves,
    whether it returns or raises) has the shape of the grid it was given
    (as many columns, as many rows, every row as long), and every cell
    that held a number in the input holds the same number in the output:
    only missing cells are written. *)
Theorem extrap_sec_keeps_measurements gsw lon lat fd g out res :
  extrap_sec gsw lon lat fd g = (out, res) ->
  ncols out = ncols g /\ nrows out = nrows g /\
  map (@length float) (rows out) = map (@length float) (rows g) /\
  forall i j, isnan (get g i j) = false -> get out i j = get g i j.
Proof.
  intros H. apply extrap_sec_frame in H. destruct H as (S & K).
  pose proof (same_shape_nrows _ _ S) as Hn. destruct S as [Hc Hr]. auto.
Qed.

Lemma extrap_sec_keeps_measurements_witness :
  extrap_sec (spaced [1000; 2000; 500]) [0; 0; 0; 0] [0; 1; 2; 3] 1 shelf
    = (shelf_filled, Normal tt) /\
  (ncols shelf_filled = ncols shelf /\ nrows shelf_filled = nrows shelf /\
   map (@length float) (rows shelf_filled) = map (@length float) (rows shelf) /\
   forall i j, isnan (get shelf i j) = false -> get shelf_filled i j = get shelf i j).
Proof.
  split.
  - vm_compute. reflexivity.
  - apply (extrap_sec_keeps_measurements (spaced [1000; 2000; 500])
             [0; 0; 0; 0] [0; 1; 2; 3] 1 shelf shelf_filled (Normal tt)).
    vm_compute. reflexivity.
Defined.

(** C10, amended.  On a grid of at least three columns [extrap_sec] writes
    no cell of the first column and no cell of the last column, and apart
    from the seed of the second-to-last column it writes a column only
    when the bottom cell of that column is missing.  The returned grid can
    still hold missing cells: [ragged] is returned unchanged, with a missing
    cell in the first column, in the last column, in a column whose bottom
    cell holds a number, and in the second-to-last column on a row where
    the last column is missing too. *)
Theorem extrap_sec_untouched_columns :
  (forall gsw lon lat fd g out res,
      (3 <= ncols g)%nat ->
      extrap_sec gsw lon lat fd g = (out, res) ->
      (forall i, get out i 0 = get g i 0) /\
      (forall i, get out i (ncols g - 1) = get g i (ncols g - 1)) /\
      (forall col, col <> (ncols g - 2)%nat ->
                   isnan (get g (nrows g - 1) col) = false ->
                   forall i, get out i col = get g i col)) /\
  (extrap_sec (spaced [1000; 2000; 500]) [0; 0; 0; 0] [0; 1; 2; 3] 1 ragged
     = (ragged, Normal tt) /\
   isnan (get ragged 0 0) = true /\
   isnan (get ragged 0 3) = true /\
   (isnan (get ragged 1 1) = false /\ isnan (get ragged 0 1) = true) /\
   (isnan (get ragged 0 3) = true /\ isnan (get ragged 0 2) = true)).
Proof.
  split; [|vm_compute; repeat split; reflexivity].
  intros gsw lon lat fd g out res Hn. unfold extrap_sec, bind.
  destruct (seed g) as [g0 r0] eqn:E0.
  apply seed_frame in E0. destruct E0 as (S0 & _ & U0).
  pose proof (same_shape_nrows _ _ S0) as N0. destruct S0 as [C0 _].
  intros Hrun.
  assert (E : (exists res', fill_columns (cumulative_distance gsw lon lat) fd
                              (length lon - 2) g0 = (out, res')) \/ out = g0).
  { destruct r0 as [[]|e]; [left; now exists res|right; congruence]. }
  clear Hrun. split; [|split].
  - intros i. rewrite <- (U0 i 0%nat) by lia.
    destruct E as [[res' E]| ->]; [|reflexivity].
    apply fill_columns_frame in E. destruct E as (_ & _ & U). apply U. now left.
  - intros i. rewrite <- (U0 i (ncols g - 1)%nat) by lia.
    destruct E as [[res' E]| ->]; [|reflexivity].
    apply (fill_columns_skips _ _ _ _ _ _ _ E). right. lia.
  - intros col Hc Hb i. rewrite <- (U0 i col) by exact Hc.
    destruct E as [[res' E]| ->]; [|reflexivity].
    apply (fill_columns_skips _ _ _ _ _ _ _ E). left.
    rewrite N0, (U0 _ col) by exact Hc. exact Hb.
Qed.

Lemma extrap_sec_untouched_columns_witness :
  (3 <= ncols shelf)%nat /\
  extrap_sec (spaced [1000; 2000; 500]) [0; 0; 0; 0] [0; 1; 2; 3] 1 shelf
    = (shelf_filled, Normal tt) /\
  ((forall i, get shelf_filled i 0 = get shelf i 0) /\
   (forall i, get shelf_filled i (ncols shelf - 1) = get shelf i (ncols shelf - 1)) /\
   (forall col, col <> (ncols shelf - 2)%nat ->
                isnan (get shelf (nrows shelf - 1) col) = false ->
                forall i, get shelf_filled i col = get shelf i col)).
Proof.
  split; [simpl; lia|]. split; [vm_compute; reflexivity|].
  apply (proj1 extrap_sec_untouched_columns (spaced [1000; 2000; 500])
           [0; 0; 0; 0] [0; 1; 2; 3] 1 shelf shelf_filled (Normal tt)).
  - simpl; lia.
  - vm_compute; reflexivity.
Defined.

(** With two columns the second-to-last column is the first one, and the
    seed writes it. *)
Lemma extrap_sec_two_columns_writes_first :
  extrap_sec (spaced [1000]) [0; 0] [0; 1] 1 pair_gap
    = (pair_gap_seeded, Normal tt) /\
  get pair_gap_seeded 0 0 <> get pair_gap 0 0.
Proof.
  split; [vm_compute; reflexivity|].
  intros H. apply (f_equal isnan) in H. vm_compute in H. discriminate.
Qed.

(** C8.  [extrap_sec] is idempotent on its own output: when a call returns
    the grid [out], a second call on [out], with the same coordinates and
    the same decay factor, returns too, and returns [out] itself. *)
Theorem extrap_sec_idempotent gsw lon lat fd g out :
  extrap_sec gsw lon lat fd g = (out, Normal tt) ->
  extrap_sec gsw lon lat fd out = (out, Normal tt).
Proof.
  unfold extrap_sec, bind.
  destruct (seed g) as [g0 [[]|e]] eqn:E0; [|discriminate].
  intros E1. apply seed_again in E0.
  rewrite (seed_stays_loop _ _ _ _ _ E0 E1).
  now apply fill_columns_again with (g := g0).
Qed.

Lemma extrap_sec_idempotent_witness :
  extrap_sec (spaced [1000; 2000; 500]) [0; 0; 0; 0] [0; 1; 2; 3] 1 shelf
    = (shelf_filled, Normal tt) /\
  extrap_sec (spaced [1000; 2000; 500]) [0; 0; 0; 0] [0; 1; 2; 3] 1 shelf_filled
    = (shelf_filled, Normal tt).
Proof.
  split; [vm_compute; reflexivity|].
  apply (extrap_sec_idempotent _ _ _ _ shelf). vm_compute; reflexivity.
Defined.

(** * Short transects *)

(** C3, amended.  The source validates nothing and has no
    [InvalidInputError].  With fewer than two columns the second-to-last
    column does not exist and numpy raises [IndexError], the array being
    left as it was; with exactly two columns (and two stations) the call
    returns: the loop is empty and the seed has copied column 1 into the
    missing cells of column 0. *)
Theorem extrap_sec_short_transect gsw lon lat fd g :
  ((ncols g < 2)%nat ->
   extrap_sec gsw lon lat fd g = (g, Raised IndexError)) /\
  (ncols g = 2%nat -> length lon = 2%nat ->
   extrap_sec gsw lon lat fd g = (map_rows (seed_row 0) g, Normal tt)).
Proof.
  unfold extrap_sec, bind. rewrite seed_cases. split.
  - intros H. apply Nat.ltb_lt in H. now rewrite H.
  - intros Hc Hl. rewrite Hc, Hl. reflexivity.
Qed.

Lemma extrap_sec_short_transect_witness :
  ((ncols lone_station < 2)%nat /\
   extrap_sec (spaced []) [0] [0] 1 lone_station
     = (lone_station, Raised IndexError)) /\
  (ncols station_pair = 2%nat /\ length [0; 0] = 2%nat /\
   extrap_sec (spaced [1000]) [0; 0] [0; 1] 1 station_pair
     = (map_rows (seed_row 0) station_pair, Normal tt)).
Proof.
  split.
  - split; [simpl; lia|].
    apply (proj1 (extrap_sec_short_transect (spaced []) [0] [0] 1
                    lone_station)).
    simpl; lia.
  - split; [reflexivity|]. split; [reflexivity|].
    apply (proj2 (extrap_sec_short_transect (spaced [1000]) [0; 0] [0; 1] 1
                    station_pair)); reflexivity.
Defined.

(** A transect of two stations is extrapolated, not refused. *)
Lemma extrap_sec_two_stations_returns :
  (ncols station_pair < 3)%nat /\
  extrap_sec (spaced [1000]) [0; 0] [0; 1] 1 station_pair
    = (station_pair_seeded, Normal tt).
Proof. split; [simpl; lia|vm_compute; reflexivity]. Qed.

(** * In-place update *)





(** * Cumulative distance *)

Lemma cumsum_from_length l : forall acc, length (cumsum_from acc l) = length l.
Proof. induction l as [|d t IH]; intros acc; simpl; auto. Qed.

Lemma cumsum_length l : length (cumsum l) = length l.
Proof. destruct l; simpl; auto using cumsum_from_length. Qed.

(** A list of non-negative numbers in which no element is above the next
    one never decreases. *)
Lemma chain_nondecreasing l :
  (forall k, (k < length l)%nat -> (0 <=? nth k l nan) = true) ->
  (forall k, (S k < length l)%nat -> (nth k l nan <=? nth (S k) l nan) = true) ->
  nondecreasing l.
Proof.
  intros Hpos Hstep i j [Hij Hj]. induction Hij as [|j Hij IH].
  - apply Binary64.leb_refl. now apply Hpos.
  - apply Binary64.leb_trans with (nth j l nan); try apply Hpos; try lia.
    + apply IH. lia.
    + now apply Hstep.
Qed.

(** The running sums of non-negative terms, from a non-negative start. *)
Lemma cumsum_from_chain l : forall acc,
  (0 <=? acc) = true ->
  Forall (fun d => (0 <=? d) = true) l ->
  (forall k, (k < S (length l))%nat ->
             (0 <=? nth k (acc :: cumsum_from acc l) nan) = true) /\
  (forall k, (S k < S (length l))%nat ->
             (nth k (acc :: cumsum_from acc l) nan
              <=? nth (S k) (acc :: cumsum_from acc l) nan) = true).
Proof.
  induction l as [|d t IH]; intros acc Hacc Hl.
  - split; intros k Hk; simpl in Hk; [|lia].
    destruct k; [exact Hacc|lia].
  - inversion Hl as [|d' t' Hd Ht]; subst.
    destruct (IH (acc + d)%float (Binary64.add_nonneg _ _ Hacc Hd) Ht) as [P S].
    split; intros [|k] Hk; simpl in Hk.
    + exact Hacc.
    + apply (P k). lia.
    + simpl. now apply Binary64.add_ge_l.
    + apply (S k). lia.
Qed.

Lemma cumulative_distance_nondecreasing gsw lon lat :
  Forall (fun d => (0 <=? d) = true) (gsw lon lat) ->
  nondecreasing (cumulative_distance gsw lon lat).
Proof.
  intros H. unfold cumulative_distance.
  assert (H' : Forall (fun d => (0 <=? d) = true)
                 (map (fun d => d / km) (gsw lon lat))).
  { rewrite Forall_map. eapply Forall_impl; [|exact H].
    intros d. apply Binary64.div_km_nonneg. }
  destruct (map (fun d => d / km) (gsw lon lat)) as [|d t].
  - intros i j [Hij Hj]. simpl in Hj. replace j with 0%nat by lia.
    replace i with 0%nat by lia. reflexivity.
  - inversion H' as [|d' t' Hd Ht]; subst.
    destruct (cumsum_from_chain t d Hd Ht) as [P S].
    apply chain_nondecreasing; simpl length; rewrite cumsum_from_length.
    + intros [|k] Hk; [reflexivity|]. apply (P k). lia.
    + intros [|k] Hk; [exact Hd|]. apply (S k). lia.
Qed.

Lemma cumsum_from_nonneg l : forall acc,
  (0 <=? acc) = true ->
  Forall (fun d => (0 <=? d) = true) l ->
  Forall (fun d => (0 <=? d) = true) (cumsum_from acc l).
Proof.
  induction l as [|d t IH]; intros acc Hacc Hl; simpl; [constructor|].
  inversion Hl as [|d' t' Hd Ht]; subst.
  pose proof (Binary64.add_nonneg _ _ Hacc Hd) as Hsum. constructor; auto.
Qed.

Lemma cumulative_distance_nonneg gsw lon lat :
  Forall (fun d => (0 <=? d) = true) (gsw lon lat) ->
  Forall (fun d => (0 <=? d) = true) (cumulative_distance gsw lon lat).
Proof.
  intros H. unfold cumulative_distance. constructor; [reflexivity|].
  assert (H' : Forall (fun d => (0 <=? d) = true)
                 (map (fun d => d / km) (gsw lon lat))).
  { rewrite Forall_map. eapply Forall_impl; [|exact H].
    intros d. apply Binary64.div_km_nonneg. }
  destruct (map (fun d => d / km) (gsw lon lat)) as [|d t]; [constructor|].
  inversion H' as [|d' t' Hd Ht]; subst. simpl. constructor; auto.
  now apply cumsum_from_nonneg.
Qed.





(** * The filled values *)

(** C1, amended.  On a grid of at least three columns, one per station,
    on which the call returns, [extrap_sec] first fills every missing cell
    of the second-to-last column with the value of the last column; then,
    for every column from the third-to-last down to column 1 whose bottom
    cell is missing, it sets every missing cell to the value one column to
    the right minus [fd] times the gradient term (the lateral derivative
    between the two columns to the right, times the distance to the next
    column), and it leaves every other cell of these columns as it was.
    With [fd = 0] and a finite gradient term the filled cell is numerically
    equal to the value on its right; with [fd = 1] it is that value minus
    the whole gradient term. *)
Theorem extrap_sec_fills_shadow gsw lon lat fd g out :
  (3 <= ncols g)%nat -> rectangular g -> length lon = ncols g ->
  extrap_sec gsw lon lat fd g = (out, Normal tt) ->
  forall i, (i < nrows g)%nat ->
    get out i (ncols g - 2) =
      (if isnan (get g i (ncols g - 2)) then get g i (ncols g - 1)
       else get g i (ncols g - 2)) /\
    forall col, (1 <= col < ncols g - 2)%nat ->
      get out i col =
        (if shadowed g i col
         then get out i (col + 1)
              - fd * gradient_term (cumulative_distance gsw lon lat) out i col
         else get g i col) /\
      (shadowed g i col = true -> fd = 0 ->
       is_finite (gradient_term (cumulative_distance gsw lon lat) out i col) = true ->
       (get out i col =? get out i (col + 1)) = true) /\
      (shadowed g i col = true -> fd = 1 ->
       get out i col
       = get out i (col + 1) - gradient_term (cumulative_distance gsw lon lat) out i col).
Proof.
  intros Hn Hrect Hlon. unfold extrap_sec, bind.
  destruct (seed g) as [g0 [[]|e]] eqn:E0; [|discriminate].
  intros E1 i Hi.
  destruct (seed_frame _ _ _ E0) as (S0 & _ & U0).
  pose proof (same_shape_nrows _ _ S0) as N0.
  pose proof (same_shape_rectangular _ _ S0 Hrect) as R0.
  assert (C0 : ncols g0 = ncols g) by apply S0.
  split.
  - rewrite (fill_columns_skips _ _ _ _ _ _ (ncols g - 2)%nat E1) by (right; lia).
    rewrite seed_cases in E0. destruct (Nat.ltb_spec (ncols g) 2); [lia|].
    injection E0 as <-. rewrite get_map_rows by exact Hi.
    rewrite cell_seed_row_same by (rewrite rectangular_row; auto; lia).
    replace (S (ncols g - 2)) with (ncols g - 1)%nat by lia. reflexivity.
  - intros col Hcol.
    assert (Hv : get out i col =
                 if shadowed g i col
                 then get out i (col + 1)
                      - fd * gradient_term (cumulative_distance gsw lon lat) out i col
                 else get g i col).
    { rewrite (fill_columns_values _ _ _ _ _ R0 E1 col i) by lia.
      unfold shadowed. rewrite N0, !(U0 _ col) by lia. reflexivity. }
    split; [exact Hv|]. split.
    + intros Hs -> Hfin. rewrite Hs in Hv. rewrite Hv.
      destruct (Binary64.mul_zero_finite _ Hfin) as [s Hz].
      apply Binary64.sub_zero_eqb with s; auto.
      unfold gradient_term in Hfin.
      now apply Binary64.gradient_finite_right in Hfin.
    + intros Hs ->. rewrite Hs in Hv. now rewrite Binary64.mul_one in Hv.
Qed.

Lemma extrap_sec_fills_shadow_witness :
  (3 <= ncols shelf)%nat /\ rectangular shelf /\
  length [0; 0; 0; 0] = ncols shelf /\
  extrap_sec (spaced [1000; 2000; 500]) [0; 0; 0; 0] [0; 1; 2; 3] 1 shelf
    = (shelf_filled, Normal tt) /\
  (1 < nrows shelf)%nat /\
  get shelf_filled 1 1
  = get shelf_filled 1 2
    - gradient_term (cumulative_distance (spaced [1000; 2000; 500])
                       [0; 0; 0; 0] [0; 1; 2; 3]) shelf_filled 1 1.
Proof.
  assert (R : rectangular shelf) by (repeat constructor).
  assert (E : extrap_sec (spaced [1000; 2000; 500]) [0; 0; 0; 0] [0; 1; 2; 3] 1 shelf
              = (shelf_filled, Normal tt)) by (vm_compute; reflexivity).
  split; [simpl; lia|]. split; [exact R|]. split; [reflexivity|].
  split; [exact E|]. split; [cbv; lia|].
  refine (proj2 (proj2 (proj2 (extrap_sec_fills_shadow
            (spaced [1000; 2000; 500]) [0; 0; 0; 0] [0; 1; 2; 3] 1 shelf shelf_filled
            _ R eq_refl E 1%nat _) 1%nat _)) eq_refl eq_refl); cbv; lia.
Defined.

(** Where the description of the fill fails: with the bottom cell of the
    last column missing the call raises instead of filling the
    second-to-last column; and with two stations at the same place and
    [fd = 0] the call returns [shelf] as it was, the cell it has filled in
    the shadow being a NaN again, not the 5 on its right. *)
Lemma extrap_sec_fill_fails :
  extrap_sec (spaced [1000; 2000]) [0; 0; 0] [0; 1; 2] 1 deep_gap
    = (deep_gap, Raised IndexError) /\
  (extrap_sec (spaced [1000; 2000; 0]) [0; 0; 0; 0] [0; 1; 2; 3] 0 shelf
     = (shelf, Normal tt) /\
   shadowed shelf 1 1 = true /\
   get shelf 1 2 = 5 /\
   (get shelf 1 1 =? get shelf 1 2) = false).
Proof. vm_compute. repeat split; reflexivity. Qed.

(** * When the call returns *)

Lemma last_row_some g :
  (1 <= nrows g)%nat -> last_row g = Some (nth (nrows g - 1) (rows g) []).
Proof.
  unfold last_row. destruct (nrows g) as [|k]; [lia|]. intros _.
  now replace (S k - 1)%nat with k by lia.
Qed.

(** The loop returns when the distances reach the last column and the
    first column it visits either has two columns to its right or has
    its bottom cell filled. *)
Lemma fill_columns_returns dist fd : forall k g,
  (1 <= nrows g)%nat -> length dist = ncols g ->
  (k + 2 < ncols g \/
   (k + 2 = ncols g /\ isnan (get g (nrows g - 1) k) = false))%nat ->
  exists out, fill_columns dist fd k g = (out, Normal tt).
Proof.
  induction k as [|k IH]; intros g Hrows Hdist Hk; simpl.
  - now exists g.
  - assert (Hstep : exists g1, column_step dist fd (S k) g g1 (Normal tt)).
    { pose proof (last_row_some g Hrows) as Hr.
      destruct (isnan (cell (nth (nrows g - 1) (rows g) []) (S k))) eqn:Hn.
      - assert (Hc : (S k + 2 < ncols g)%nat).
        { destruct Hk as [Hk|[_ Hk]]; [exact Hk|]. unfold get in Hk. congruence. }
        destruct (nth_error dist (S k)) as [d0|] eqn:E0;
          [|apply nth_error_None in E0; lia].
        destruct (nth_error dist (S k + 1)) as [d1|] eqn:E1;
          [|apply nth_error_None in E1; lia].
        destruct (nth_error dist (S k + 2)) as [d2|] eqn:E2;
          [|apply nth_error_None in E2; lia].
        eexists. now apply step_fill with (r := nth (nrows g - 1) (rows g) [])
                                          (d0 := d0) (d1 := d1) (d2 := d2).
      - exists g. apply step_skip with (r := nth (nrows g - 1) (rows g) []); auto.
        lia. }
    destruct Hstep as [g1 Hstep].
    destruct (column_step_frame _ _ _ _ _ _ Hstep) as (S1 & _ & _).
    pose proof (same_shape_nrows _ _ S1) as N1. destruct S1 as [C1 _].
    unfold bind. rewrite (column_step_run _ _ _ _ _ Hstep).
    apply IH; rewrite ?N1, ?C1; auto. left. lia.
Qed.

(** X1.  The call returns on a section of at least three stations and one
    level, with one distance for each pair of consecutive stations, as
    soon as the bottom cell of the last column, or that of the
    second-to-last column, holds a number. *)
Theorem extrap_sec_returns gsw lon lat fd g :
  (3 <= ncols g)%nat -> (1 <= nrows g)%nat -> rectangular g ->
  length lon = ncols g -> S (length (gsw lon lat)) = ncols g ->
  isnan (get g (nrows g - 1) (ncols g - 1)) = false \/
  isnan (get g (nrows g - 1) (ncols g - 2)) = false ->
  exists out, extrap_sec gsw lon lat fd g = (out, Normal tt).
Proof.
  intros Hn Hrows Hrect Hlon Hgsw Hbottom. unfold extrap_sec, bind.
  rewrite seed_cases. destruct (Nat.ltb_spec (ncols g) 2) as [|_]; [lia|].
  rewrite Hlon. apply fill_columns_returns.
  - now rewrite nrows_map_rows.
  - unfold cumulative_distance. simpl.
    now rewrite cumsum_length, length_map.
  - right. split; [simpl; lia|]. rewrite nrows_map_rows.
    rewrite get_map_rows by lia.
    rewrite cell_seed_row_same by (rewrite rectangular_row; auto; lia).
    replace (S (ncols g - 2)) with (ncols g - 1)%nat by lia.
    fold (get g (nrows g - 1) (ncols g - 2)) (get g (nrows g - 1) (ncols g - 1)).
    destruct (isnan (get g (nrows g - 1) (ncols g - 2))) eqn:E; auto.
    now destruct Hbottom.
Qed.

Lemma extrap_sec_returns_witness :
  (3 <= ncols shelf)%nat /\ (1 <= nrows shelf)%nat /\ rectangular shelf /\
  length [0; 0; 0; 0] = ncols shelf /\
  S (length (spaced [1000; 2000; 500] [0; 0; 0; 0] [0; 1; 2; 3])) = ncols shelf /\
  isnan (get shelf (nrows shelf - 1) (ncols shelf - 1)) = false /\
  exists out,
    extrap_sec (spaced [1000; 2000; 500]) [0; 0; 0; 0] [0; 1; 2; 3] 1 shelf
      = (out, Normal tt).
Proof.
  assert (R : rectangular shelf) by (repeat constructor).
  split; [cbv; lia|]. split; [cbv; lia|]. split; [exact R|].
  split; [reflexivity|]. split; [reflexivity|]. split; [reflexivity|].
  apply (extrap_sec_returns (spaced [1000; 2000; 500]) [0; 0; 0; 0] [0; 1; 2; 3] 1 shelf);
    try reflexivity; try exact R; try (cbv; lia).
Defined.

(** X2.  The call raises [IndexError], after the seed has run, when the bottom
    cells of the last two columns are both missing: the loop starts at the
    second-to-last column, whose bottom cell is still missing, and looks
    two columns to its right. *)
Theorem extrap_sec_raises gsw lon lat fd g :
  (3 <= ncols g)%nat -> (1 <= nrows g)%nat -> rectangular g ->
  length lon = ncols g ->
  isnan (get g (nrows g - 1) (ncols g - 1)) = true ->
  isnan (get g (nrows g - 1) (ncols g - 2)) = true ->
  extrap_sec gsw lon lat fd g
  = (map_rows (seed_row (ncols g - 2)) g, Raised IndexError).
Proof.
  intros Hn Hrows Hrect Hlon Hlast Hprev. unfold extrap_sec, bind.
  rewrite seed_cases. destruct (Nat.ltb_spec (ncols g) 2) as [|_]; [lia|].
  rewrite Hlon. set (g0 := map_rows (seed_row (ncols g - 2)) g).
  assert (Hb : isnan (get g0 (nrows g0 - 1) (ncols g - 2)) = true).
  { unfold g0. rewrite nrows_map_rows, get_map_rows by lia.
    rewrite cell_seed_row_same by (rewrite rectangular_row; auto; lia).
    replace (S (ncols g - 2)) with (ncols g - 1)%nat by lia.
    fold (get g (nrows g - 1) (ncols g - 2)) (get g (nrows g - 1) (ncols g - 1)).
    now rewrite Hprev. }
  destruct (ncols g - 2)%nat as [|k] eqn:Ek; [lia|]. simpl fill_columns.
  unfold bind.
  destruct (fill_column (cumulative_distance gsw lon lat) fd (S k) g0)
    as [g1 r1] eqn:E.
  apply fill_column_inv in E.
  inversion E as [|r Hc Hr Hnan|r d0 d1 d2 Hc Hr Hnan E0 E1 E2]; subst.
  - reflexivity.
  - destruct (last_row_get _ _ (S k) Hr) as [Hcell _]. congruence.
  - change (ncols g0) with (ncols g) in Hc. lia.
Qed.

Lemma extrap_sec_raises_witness :
  (3 <= ncols deep_gap)%nat /\ (1 <= nrows deep_gap)%nat /\ rectangular deep_gap /\
  length [0; 0; 0] = ncols deep_gap /\
  isnan (get deep_gap (nrows deep_gap - 1) (ncols deep_gap - 1)) = true /\
  isnan (get deep_gap (nrows deep_gap - 1) (ncols deep_gap - 2)) = true /\
  extrap_sec (spaced [1000; 2000]) [0; 0; 0] [0; 1; 2] 1 deep_gap
  = (map_rows (seed_row (ncols deep_gap - 2)) deep_gap, Raised IndexError).
Proof.
  assert (R : rectangular deep_gap) by (repeat constructor).
  split; [cbv; lia|]. split; [cbv; lia|]. split; [exact R|].
  split; [reflexivity|]. split; [reflexivity|]. split; [reflexivity|].
  apply (extrap_sec_raises (spaced [1000; 2000]) [0; 0; 0] [0; 1; 2] 1 deep_gap);
    try reflexivity; try exact R; cbv; lia.
Defined.

(** * The topography mask *)

Lemma last_cons (a : float) t d : last (a :: t) d = last t a.
Proof.
  revert a d. induction t as [|b t IH]; intros a d; [reflexivity|].
  change (last (a :: b :: t) d) with (last (b :: t) d).
  now rewrite (IH b d), (IH b a).
Qed.

Lemma last_nth (l : list float) d : last l d = nth (length l - 1) l d.
Proof.
  destruct l as [|a l]; [reflexivity|]. rewrite last_cons.
  replace (length (a :: l) - 1)%nat with (length l) by (simpl; lia). revert a.
  induction l as [|b l IH]; intros a; [reflexivity|].
  rewrite last_cons. apply IH.
Qed.

Lemma nth_map_float (f : float -> float) l i :
  (i < length l)%nat -> nth i (map f l) nan = f (nth i l nan).
Proof.
  intros H. rewrite nth_indep with (d' := f nan) by now rewrite length_map.
  apply map_nth.
Qed.

(** The largest of a list of non-negative numbers is not negative. *)
Lemma np_max_nonneg l x :
  Forall (fun d => (0 <=? d) = true) l -> np_max l = Normal x -> (0 <=? x) = true.
Proof.
  destruct l as [|a t]; [discriminate|]. intros H [= <-].
  inversion H as [|a' t' Ha Ht]; subst. clear H. revert a Ha.
  induction Ht as [|b t Hb Ht IH]; intros a Ha; simpl; [exact Ha|].
  apply IH. unfold np_maximum. now destruct ((b <=? a) || isnan a).
Qed.

(** The elements of [np.arange(0, stop, dx)] for a positive finite [dx]. *)
Lemma arange_element dx m e i :
  Prim2SF dx = S754_finite false m e ->
  match i with
  | O => 0
  | S O => 0 + dx
  | _ => 0 + of_nat i * (0 + dx - 0)
  end = of_nat i * dx.
Proof.
  intros H.
  assert (Hdx : 0 + dx = dx) by (apply Binary64.zero_add; now rewrite H).
  destruct i as [|[|i]].
  - change (of_nat 0) with 0. symmetry. now apply Binary64.zero_mul with m e.
  - change (of_nat 1) with 1. now rewrite Binary64.mul_one.
  - rewrite Hdx, Binary64.sub_zero.
    apply Binary64.zero_add. apply Binary64.mul_plus with m e; auto.
    apply Binary64.of_uint63_plus.
Qed.

(** What a call of [gen_topomask] that returns has computed. *)
Lemma gen_topomask_inv gsw z_from_p mean interp h lon lat dx kind xm hm :
  (0 <? dx) = true -> is_finite dx = true ->
  gen_topomask gsw z_from_p mean interp h lon lat dx kind = Normal (xm, hm) ->
  exists Ih xmax n,
    topo_interpolant gsw z_from_p mean interp h lon lat kind = Normal Ih /\
    np_max (cumulative_distance gsw lon lat) = Normal xmax /\
    ceil_to_Z ((xmax + dx - 0) / dx) = Some n /\
    length xm = Z.to_nat n /\
    (forall i, (i < length xm)%nat -> nth i xm nan = of_nat i * dx) /\
    hm = map Ih xm.
Proof.
  intros Hpos Hfin.
  destruct (Binary64.positive_finite_inv dx Hpos Hfin) as (m & e & Hdx).
  unfold gen_topomask.
  destruct (topo_interpolant gsw z_from_p mean interp h lon lat kind) as [Ih|];
    [|discriminate].
  destruct (np_max (cumulative_distance gsw lon lat)) as [xmax|]; [|discriminate].
  unfold arange. destruct (ceil_to_Z ((xmax + dx - 0) / dx)) as [n|] eqn:En;
    [|discriminate].
  intros [= <- <-]. exists Ih, xmax, n.
  split; [reflexivity|]. split; [reflexivity|]. split; [exact En|].
  set (elt := fun i : nat => match i with
                             | O => 0
                             | S O => 0 + dx
                             | _ => 0 + of_nat i * (0 + dx - 0)
                             end).
  assert (Hlen : length (map elt (seq 0 (Z.to_nat n))) = Z.to_nat n)
    by now rewrite length_map, length_seq.
  split; [exact Hlen|]. split; [|reflexivity].
  rewrite Hlen. intros i Hi.
  rewrite nth_indep with (d' := elt O) by now rewrite Hlen.
  rewrite map_nth, seq_nth by exact Hi. apply (arange_element dx m e i Hdx).
Qed.

(** The grid has no point before the first station. *)
Lemma grid_point_not_before dx i :
  (0 <? dx) = true -> is_finite dx = true -> (of_nat i * dx <? 0) = false.
Proof.
  intros Hpos Hfin.
  destruct (Binary64.positive_finite_inv dx Hpos Hfin) as (m & e & Hdx).
  apply Binary64.plus_not_below_zero. apply Binary64.mul_plus with m e; auto.
  apply Binary64.of_uint63_plus.
Qed.

(** C5, amended.  The interpolant of [gen_topomask] answers every
    out-of-domain query with one and the same value, [fill_value = h[-1]],
    the depth of the last station: beyond the last station, and before the
    first station too (the first station is at distance 0).  The grid [xm]
    on which [gen_topomask] evaluates it, for a positive finite [dx], has no
    point before the first station, and at every grid point beyond the
    last station [hm] is the depth of the last station. *)
Theorem topo_interpolant_fill gsw z_from_p mean interp h lon lat kind Ih :
  topo_interpolant gsw z_from_p mean interp h lon lat kind = Normal Ih ->
  hd nan (cumulative_distance gsw lon lat) = 0 /\
  (forall q,
     (q <? 0) = true \/ (last (cumulative_distance gsw lon lat) nan <? q) = true ->
     Ih q = last (depths z_from_p mean h lat) nan) /\
  (forall dx xm hm,
     (0 <? dx) = true -> is_finite dx = true ->
     gen_topomask gsw z_from_p mean interp h lon lat dx kind = Normal (xm, hm) ->
     forall i, (i < length xm)%nat ->
       (nth i xm nan <? 0) = false /\
       nth i hm nan = Ih (nth i xm nan) /\
       ((last (cumulative_distance gsw lon lat) nan <? nth i xm nan) = true ->
        nth i hm nan = last (depths z_from_p mean h lat) nan)).
Proof.
  intros HIh.
  assert (Hfill : forall q,
             (q <? 0) = true \/
             (last (cumulative_distance gsw lon lat) nan <? q) = true ->
             Ih q = last (depths z_from_p mean h lat) nan).
  { revert HIh. unfold topo_interpolant, last_elt.
    destruct (depths z_from_p mean h lat) as [|a t] eqn:E; [discriminate|].
    intros [= <-] q Hq. unfold interp1d.
    change (hd nan (cumulative_distance gsw lon lat)) with 0.
    replace ((q <? 0) || (last (cumulative_distance gsw lon lat) nan <? q)) with true.
    - symmetry. apply last_cons.
    - symmetry. apply orb_true_iff. exact Hq. }
  split; [reflexivity|]. split; [exact Hfill|].
  intros dx xm hm Hpos Hfin Hrun i Hi.
  destruct (gen_topomask_inv _ _ _ _ _ _ _ _ _ _ _ Hpos Hfin Hrun)
    as (Ih' & xmax & n & HIh' & _ & _ & _ & Hnth & ->).
  rewrite HIh in HIh'. injection HIh' as <-.
  rewrite nth_map_float by exact Hi. split; [|split].
  - rewrite Hnth by exact Hi. now apply grid_point_not_before.
  - reflexivity.
  - intros Hq. apply Hfill. now right.
Qed.

Lemma topo_interpolant_fill_witness :
  topo_interpolant (spaced [100000]) plain_z_from_p any_mean step_interpolate
    [10; 50] [0; 0] [0; 1] Linear
    = Normal (interp1d step_interpolate Linear [0; 100] [10; 50] 50) /\
  (100 <? 130) = true /\
  interp1d step_interpolate Linear [0; 100] [10; 50] 50 130 = 50.
Proof.
  assert (E : topo_interpolant (spaced [100000]) plain_z_from_p any_mean
                step_interpolate [10; 50] [0; 0] [0; 1] Linear
              = Normal (interp1d step_interpolate Linear [0; 100] [10; 50] 50))
    by reflexivity.
  split; [exact E|]. split; [reflexivity|].
  exact (proj1 (proj2 (topo_interpolant_fill _ _ _ _ _ _ _ _ _ E)) 130
           (or_intror eq_refl)).
Defined.

(** One kilometre before the first station the interpolant answers the
    depth of the last station, 50, not that of the first, 10. *)
Lemma topo_interpolant_before_first :
  exists Ih,
    topo_interpolant (spaced [100000]) plain_z_from_p any_mean step_interpolate
      [10; 50] [0; 0] [0; 1] Linear = Normal Ih /\
    depths plain_z_from_p any_mean [10; 50] [0; 1] = [10; 50] /\
    (-1 <? hd nan (cumulative_distance (spaced [100000]) [0; 0] [0; 1])) = true /\
    Ih (-1) = 50.
Proof.
  eexists. split; [reflexivity|]. repeat split; reflexivity.
Qed.




(** * The order of binary64 numbers *)

Module Order64.

Lemma SFcompare_rank x y :
  x <> S754_nan -> y <> S754_nan ->
  (SFcompare x y = Some Lt <-> lex_lt (rank x) (rank y)) /\
  (SFcompare x y = Some Eq <-> lex_eq (rank x) (rank y)) /\
  (SFcompare x y = Some Gt <-> lex_lt (rank y) (rank x)).
Proof.
  intros Hx Hy. unfold lex_lt, lex_eq.
  destruct x as [sx|sx| |sx mx ex]; try congruence;
    destruct y as [sy|sy| |sy my ey]; try congruence;
    try destruct sx; try destruct sy; simpl;
    try (intuition (try discriminate; try reflexivity; try lia); fail).
  - fold (Pos.compare mx my).
    destruct (Z.compare_spec ex ey) as [E|E|E];
      [destruct (Pos.compare_spec mx my) as [E'|E'|E']|..];
      simpl; intuition (try discriminate; try reflexivity; try lia).
  - fold (Pos.compare mx my).
    destruct (Z.compare_spec ex ey) as [E|E|E];
      [destruct (Pos.compare_spec mx my) as [E'|E'|E']|..];
      simpl; intuition (try discriminate; try reflexivity; try lia).
Qed.

Local Open Scope float_scope.

Lemma isnan_spec x : isnan x = false <-> Prim2SF x <> S754_nan.
Proof.
  unfold isnan. rewrite Binary64.is_nan_spec.
  destruct (Prim2SF x); split; congruence.
Qed.

Lemma compare_nan x y :
  isnan x = true \/ isnan y = true -> SFcompare (Prim2SF x) (Prim2SF y) = None.
Proof.
  unfold isnan. rewrite !Binary64.is_nan_spec.
  destruct (Prim2SF x), (Prim2SF y); simpl; intros [H|H]; congruence.
Qed.

Lemma ltb_rank x y :
  (x <? y) = true <->
  isnan x = false /\ isnan y = false /\ lex_lt (frank x) (frank y).
Proof.
  rewrite ltb_spec. unfold SFltb, frank.
  destruct (isnan x) eqn:Ex; [rewrite compare_nan by auto; intuition congruence|].
  destruct (isnan y) eqn:Ey; [rewrite compare_nan by auto; intuition congruence|].
  apply isnan_spec in Ex, Ey.
  destruct (SFcompare_rank _ _ Ex Ey) as (H1 & H2 & H3).
  destruct (SFcompare (Prim2SF x) (Prim2SF y)) as [[]|] eqn:E.
  - assert (lex_eq (rank (Prim2SF x)) (rank (Prim2SF y))) as R by now apply H2.
    unfold lex_lt, lex_eq in *. split; [discriminate|]. lia.
  - split; auto. intros _. split; [reflexivity|split; [reflexivity|]]. now apply H1.
  - assert (lex_lt (rank (Prim2SF y)) (rank (Prim2SF x))) as R by now apply H3.
    unfold lex_lt in *. split; [discriminate|]. lia.
  - split; [discriminate|]. intros (_ & _ & H). apply H1 in H. discriminate.
Qed.

Lemma eqb_rank x y :
  (x =? y) = true <->
  isnan x = false /\ isnan y = false /\ lex_eq (frank x) (frank y).
Proof.
  rewrite eqb_spec. unfold SFeqb, frank.
  destruct (isnan x) eqn:Ex; [rewrite compare_nan by auto; intuition congruence|].
  destruct (isnan y) eqn:Ey; [rewrite compare_nan by auto; intuition congruence|].
  apply isnan_spec in Ex, Ey.
  destruct (SFcompare_rank _ _ Ex Ey) as (H1 & H2 & H3).
  destruct (SFcompare (Prim2SF x) (Prim2SF y)) as [[]|] eqn:E.
  - split; auto. intros _. split; [reflexivity|split; [reflexivity|]]. now apply H2.
  - split; [discriminate|]. intros (_ & _ & H). apply H2 in H. discriminate.
  - split; [discriminate|]. intros (_ & _ & H). apply H2 in H. discriminate.
  - split; [discriminate|]. intros (_ & _ & H). apply H2 in H. discriminate.
Qed.

Lemma leb_rank x y :
  (x <=? y) = true <->
  isnan x = false /\ isnan y = false /\
  (lex_lt (frank x) (frank y) \/ lex_eq (frank x) (frank y)).
Proof.
  rewrite leb_spec. unfold SFleb, frank.
  destruct (isnan x) eqn:Ex; [rewrite compare_nan by auto; intuition congruence|].
  destruct (isnan y) eqn:Ey; [rewrite compare_nan by auto; intuition congruence|].
  apply isnan_spec in Ex, Ey.
  destruct (SFcompare_rank _ _ Ex Ey) as (H1 & H2 & H3).
  destruct (SFcompare (Prim2SF x) (Prim2SF y)) as [[]|] eqn:E.
  - split; auto. intros _. split; [reflexivity|split; [reflexivity|]].
    right. now apply H2.
  - split; auto. intros _. split; [reflexivity|split; [reflexivity|]].
    left. now apply H1.
  - assert (lex_lt (rank (Prim2SF y)) (rank (Prim2SF x))) as R by now apply H3.
    split; [discriminate|]. intros (_ & _ & [H|H]).
    + apply H1 in H. discriminate.
    + apply H2 in H. discriminate.
  - split; [discriminate|]. intros (_ & _ & [H|H]).
    + apply H1 in H. discriminate.
    + apply H2 in H. discriminate.
Qed.

(** Comparisons become statements on ranks, which [lia] settles. *)
Ltac to_ranks :=
  repeat match goal with
  | H : (_ <? _) = true |- _ => apply ltb_rank in H; destruct H as (? & ? & H)
  | H : (_ <=? _) = true |- _ => apply leb_rank in H; destruct H as (? & ? & H)
  | H : (_ =? _) = true |- _ => apply eqb_rank in H; destruct H as (? & ? & H)
  | H : (_ <? _) = false |- _ =>
      apply not_true_iff_false in H; rewrite ltb_rank in H
  | H : (_ <=? _) = false |- _ =>
      apply not_true_iff_false in H; rewrite leb_rank in H
  | H : (_ =? _) = false |- _ =>
      apply not_true_iff_false in H; rewrite eqb_rank in H
  | |- (_ <? _) = true => apply ltb_rank
  | |- (_ <=? _) = true => apply leb_rank
  | |- (_ =? _) = true => apply eqb_rank
  | |- (_ <? _) = false => apply not_true_iff_false; rewrite ltb_rank
  | |- (_ <=? _) = false => apply not_true_iff_false; rewrite leb_rank
  | |- (_ =? _) = false => apply not_true_iff_false; rewrite eqb_rank
  end.

Ltac ranks :=
  to_ranks;
  repeat match goal with
  | H : ~ (?A /\ ?B /\ ?P), HA : ?A, HB : ?B |- _ =>
      assert (~ P) by (intros ?; apply H; auto); clear H
  end;
  unfold lex_lt, lex_eq in *;
  repeat match goal with
  | |- context [frank ?x] =>
      let a := fresh "a" in let b := fresh "b" in let c := fresh "c" in
      destruct (frank x) as [[a b] c]
  | H : context [frank ?x] |- _ =>
      let a := fresh "a" in let b := fresh "b" in let c := fresh "c" in
      destruct (frank x) as [[a b] c]
  end;
  simpl in *;
  try (intuition (try congruence; try lia)).

Lemma leb_nonnan x y : (x <=? y) = true -> isnan x = false /\ isnan y = false.
Proof. intros H. ranks. Qed.

Lemma ltb_nonnan x y : (x <? y) = true -> isnan x = false /\ isnan y = false.
Proof. intros H. ranks. Qed.

Lemma leb_self x : isnan x = false -> (x <=? x) = true.
Proof. intros H. ranks. Qed.

Lemma leb_chain x y z :
  (x <=? y) = true -> (y <=? z) = true -> (x <=? z) = true.
Proof. intros H1 H2. ranks. Qed.

Lemma leb_ltb_trans x y z :
  (x <=? y) = true -> (y <? z) = true -> (x <? z) = true.
Proof. intros H1 H2. ranks. Qed.

Lemma ltb_leb_trans x y z :
  (x <? y) = true -> (y <=? z) = true -> (x <? z) = true.
Proof. intros H1 H2. ranks. Qed.

Lemma ltb_weaken x y : (x <? y) = true -> (x <=? y) = true.
Proof. intros H. ranks. Qed.

Lemma ltb_irrefl x : (x <? x) = false.
Proof. ranks. Qed.

Lemma leb_total x y :
  isnan x = false -> isnan y = false -> (x <=? y) = false -> (y <? x) = true.
Proof. intros Hx Hy H. ranks. Qed.

Lemma ltb_total x y :
  isnan x = false -> isnan y = false -> (x <? y) = false -> (y <=? x) = true.
Proof. intros Hx Hy H. ranks. Qed.

Lemma ltb_not_leb x y : (x <? y) = true -> (y <=? x) = false.
Proof. intros H. ranks. Qed.

Lemma leb_not_ltb x y : (x <=? y) = true -> (y <? x) = false.
Proof. intros H. ranks. Qed.

Lemma leb_antisym x y : (x <=? y) = true -> (y <=? x) = true -> (x =? y) = true.
Proof. intros H1 H2. ranks. Qed.

Lemma eqb_leb x y : (x =? y) = true -> (x <=? y) = true.
Proof. intros H. ranks. Qed.

Lemma eqb_leb_trans x y z :
  (x =? y) = true -> (y <=? z) = true -> (x <=? z) = true.
Proof. intros H1 H2. ranks. Qed.

Lemma eqb_sym x y : (x =? y) = true -> (y =? x) = true.
Proof. intros H. ranks. Qed.

Lemma eqb_ltb_l x y z : (x =? y) = true -> (x <? z) = (y <? z).
Proof.
  intros H. destruct (y <? z) eqn:E.
  - ranks.
  - ranks.
Qed.

Lemma eqb_false_cases x y :
  isnan x = false -> isnan y = false -> (x =? y) = false ->
  (x <? y) = true \/ (y <? x) = true.
Proof.
  intros Hx Hy H. destruct (x <? y) eqn:E; auto. right. ranks.
Qed.

(** ** Products with the booleans *)

Lemma SFmul_comm x y : SFmul prec emax x y = SFmul prec emax y x.
Proof.
  destruct x as [sx|sx| |sx mx ex], y as [sy|sy| |sy my ey]; simpl;
    try reflexivity; try (now rewrite xorb_comm).
  now rewrite xorb_comm, Pos.mul_comm, Z.add_comm.
Qed.

Lemma mul_comm x y : x * y = y * x.
Proof.
  apply Prim2SF_inj. rewrite !mul_spec. apply SFmul_comm.
Qed.

Lemma mul_one_r x : x * 1 = x.
Proof. rewrite mul_comm. apply Binary64.mul_one. Qed.

(** A finite number that is not below zero, times zero, is a zero. *)
Lemma mul_zero_r x :
  (0 <=? x) = true -> is_finite x = true -> (x * 0 =? 0) = true.
Proof.
  intros _ Hf. rewrite mul_comm.
  destruct (Binary64.mul_zero_finite x Hf) as (s & E).
  rewrite eqb_spec, E. now destruct s.
Qed.

End Order64.

(** * [normalize_names] *)

Lemma lstrip_split p s :
  exists pre, s = pre ++ lstrip p s /\ Forall (fun c => p c = true) pre.
Proof.
  induction s as [|c t IH]; simpl.
  - exists []. split; auto.
  - destruct (p c) eqn:E.
    + destruct IH as (pre & Hs & Hp). exists (c :: pre). split.
      * simpl. now rewrite <- Hs.
      * constructor; auto.
    + exists []. split; auto.
Qed.

Lemma rstrip_split p s :
  exists post, s = rstrip p s ++ post /\ Forall (fun c => p c = true) post.
Proof.
  unfold rstrip. destruct (lstrip_split p (rev s)) as (pre & Hs & Hp).
  exists (rev pre). split.
  - rewrite <- rev_app_distr, <- Hs. now rewrite rev_involutive.
  - apply Forall_rev. exact Hp.
Qed.

Lemma strip_split p s :
  exists pre post, s = pre ++ strip p s ++ post /\
    Forall (fun c => p c = true) pre /\ Forall (fun c => p c = true) post.
Proof.
  destruct (lstrip_split p s) as (pre & Hs & Hp).
  destruct (rstrip_split p (lstrip p s)) as (post & Hs' & Hp').
  exists pre, post. unfold strip. rewrite <- Hs'. auto.
Qed.

Lemma lstrip_first p s : clear_of p (first_char (lstrip p s)).
Proof.
  induction s as [|c t IH]; simpl; auto.
  destruct (p c) eqn:E; auto.
Qed.

Lemma lstrip_clear p s : clear_of p (first_char s) -> lstrip p s = s.
Proof. destruct s as [|c t]; simpl; auto. now intros ->. Qed.

Lemma lstrip_length p s : length (lstrip p s) <= length s.
Proof.
  induction s as [|c t IH]; simpl; auto.
  destruct (p c); simpl; lia.
Qed.

Lemma lstrip_shorter p s :
  ~ clear_of p (first_char s) -> length (lstrip p s) < length s.
Proof.
  destruct s as [|c t]; simpl.
  - intros H. now destruct H.
  - destruct (p c); [|congruence]. intros _. pose proof (lstrip_length p t). lia.
Qed.

Lemma rstrip_last p s : clear_of p (last_char (rstrip p s)).
Proof.
  unfold rstrip, last_char. rewrite rev_involutive. apply lstrip_first.
Qed.

Lemma rstrip_clear p s : clear_of p (last_char s) -> rstrip p s = s.
Proof.
  unfold rstrip, last_char. intros H. rewrite lstrip_clear by exact H.
  apply rev_involutive.
Qed.

Lemma rstrip_length p s : length (rstrip p s) <= length s.
Proof.
  unfold rstrip. rewrite length_rev. pose proof (lstrip_length p (rev s)).
  now rewrite length_rev in H.
Qed.

Lemma rstrip_shorter p s :
  ~ clear_of p (last_char s) -> length (rstrip p s) < length s.
Proof.
  unfold rstrip, last_char. intros H. rewrite length_rev.
  pose proof (lstrip_shorter p (rev s) H) as H'. now rewrite length_rev in H'.
Qed.

(** Stripping on the right keeps a first character that is not stripped. *)
Lemma rstrip_first p s :
  clear_of p (first_char s) -> first_char (rstrip p s) = first_char s.
Proof.
  destruct s as [|c t]; [reflexivity|]. simpl. intros Hc.
  destruct (rstrip_split p (c :: t)) as (post & Hs & Hp).
  destruct (rstrip p (c :: t)) as [|c' t'] eqn:E.
  - simpl in Hs. subst post. inversion Hp; congruence.
  - simpl in Hs. now inversion Hs.
Qed.

Lemma strip_first p s : clear_of p (first_char (strip p s)).
Proof.
  unfold strip. rewrite rstrip_first by apply lstrip_first. apply lstrip_first.
Qed.

Lemma strip_last p s : clear_of p (last_char (strip p s)).
Proof. apply rstrip_last. Qed.

Lemma strip_clear p s :
  clear_of p (first_char s) -> clear_of p (last_char s) -> strip p s = s.
Proof.
  intros H1 H2. unfold strip. rewrite lstrip_clear by exact H1.
  now apply rstrip_clear.
Qed.

Lemma strip_length p s : length (strip p s) <= length s.
Proof.
  unfold strip. pose proof (rstrip_length p (lstrip p s)).
  pose proof (lstrip_length p s). lia.
Qed.

Lemma strip_shorter p s :
  ~ (clear_of p (first_char s) /\ clear_of p (last_char s)) ->
  length (strip p s) < length s.
Proof.
  intros H. unfold strip.
  pose proof (rstrip_length p (lstrip p s)). pose proof (lstrip_length p s).
  destruct (first_char s) as [c|] eqn:Ef.
  - destruct (p c) eqn:Ec.
    + assert (length (lstrip p s) < length s)
        by (apply lstrip_shorter; rewrite Ef; simpl; congruence).
      lia.
    + rewrite lstrip_clear by (rewrite Ef; exact Ec).
      apply rstrip_shorter. intros Hl. apply H. split; auto.
  - destruct s; [|discriminate]. exfalso. apply H. split; exact I.
Qed.

Lemma clear_of_dec p o : {clear_of p o} + {~ clear_of p o}.
Proof.
  destruct o as [c|]; simpl; [|now left].
  destruct (p c); [right; congruence | now left].
Qed.

Lemma lower_char_not_upper c : isupper (lower_char c) = false.
Proof. destruct c as [[] [] [] [] [] [] [] []]; reflexivity. Qed.

Lemma lower_char_star c : Ascii.eqb star (lower_char c) = Ascii.eqb star c.
Proof. destruct c as [[] [] [] [] [] [] [] []]; reflexivity. Qed.

Lemma lower_char_space c : isspace (lower_char c) = isspace c.
Proof. destruct c as [[] [] [] [] [] [] [] []]; reflexivity. Qed.

Lemma lower_fixed s : Forall (fun c => isupper c = false) s -> lower s = s.
Proof.
  induction 1 as [|c t Hc _ IH]; simpl; [reflexivity|].
  fold (lower t). rewrite IH. unfold lower_char. now rewrite Hc.
Qed.

Lemma lower_not_upper s : Forall (fun c => isupper c = false) (lower s).
Proof.
  induction s; simpl; constructor; auto. apply lower_char_not_upper.
Qed.

Lemma first_char_lower s : first_char (lower s) = option_map lower_char (first_char s).
Proof. now destruct s. Qed.

Lemma last_char_lower s : last_char (lower s) = option_map lower_char (last_char s).
Proof.
  unfold last_char, lower. rewrite <- map_rev. now destruct (rev s).
Qed.

Lemma clear_of_lower p o :
  (forall c, p (lower_char c) = p c) ->
  clear_of p (option_map lower_char o) <-> clear_of p o.
Proof. intros H. destruct o as [c|]; simpl; [now rewrite H | tauto]. Qed.

Lemma trimmed_clear o :
  clear_of trimmed o <-> clear_of isspace o /\ clear_of (Ascii.eqb star) o.
Proof.
  destruct o as [c|]; simpl; [|tauto]. unfold trimmed.
  rewrite orb_false_iff. tauto.
Qed.

Lemma normalize_names_length name : length (normalize_names name) <= length name.
Proof.
  unfold normalize_names, lower. rewrite length_map.
  pose proof (strip_length (Ascii.eqb star) (strip isspace name)).
  pose proof (strip_length isspace name). lia.
Qed.

(** A name is left as it is exactly when it has no capital letter and
    neither end is a space or a star. *)
Lemma normalize_names_fixed_iff s :
  normalize_names s = s <->
  Forall (fun c => isupper c = false) s /\
  clear_of trimmed (first_char s) /\ clear_of trimmed (last_char s).
Proof.
  split.
  - intros E. split.
    + rewrite <- E. apply lower_not_upper.
    + assert (L : length (normalize_names s) = length s) by now rewrite E.
      unfold normalize_names, lower in L. rewrite length_map in L.
      pose proof (strip_length (Ascii.eqb star) (strip isspace s)) as L1.
      pose proof (strip_length isspace s) as L2.
      destruct (clear_of_dec isspace (first_char s)) as [Hf|Hf];
        [destruct (clear_of_dec isspace (last_char s)) as [Hl|Hl]|].
      * rewrite (strip_clear isspace s) in L by assumption.
        destruct (clear_of_dec (Ascii.eqb star) (first_char s)) as [Hf'|Hf'];
          [destruct (clear_of_dec (Ascii.eqb star) (last_char s)) as [Hl'|Hl']|].
        -- rewrite !trimmed_clear. tauto.
        -- assert (length (strip (Ascii.eqb star) s) < length s)
             by (apply strip_shorter; tauto). lia.
        -- assert (length (strip (Ascii.eqb star) s) < length s)
             by (apply strip_shorter; tauto). lia.
      * assert (length (strip isspace s) < length s)
          by (apply strip_shorter; tauto). lia.
      * assert (length (strip isspace s) < length s)
          by (apply strip_shorter; tauto). lia.
  - intros (Hu & Hf & Hl). apply trimmed_clear in Hf, Hl.
    unfold normalize_names. rewrite (strip_clear isspace s) by tauto.
    rewrite (strip_clear (Ascii.eqb star) s) by tauto.
    now apply lower_fixed.
Qed.

Lemma normalize_names_clean name :
  Forall (fun c => isupper c = false) (normalize_names name) /\
  clear_of (Ascii.eqb star) (first_char (normalize_names name)) /\
  clear_of (Ascii.eqb star) (last_char (normalize_names name)).
Proof.
  repeat split.
  - apply lower_not_upper.
  - unfold normalize_names. rewrite first_char_lower.
    apply clear_of_lower; [apply lower_char_star | apply strip_first].
  - unfold normalize_names. rewrite last_char_lower.
    apply clear_of_lower; [apply lower_char_star | apply strip_last].
Qed.

(** X3.  [normalize_names] removes characters from the two ends of the
    name only, and only spaces and stars; what is left is put in lower
    case, and neither starts nor ends with a star. *)
Theorem normalize_names_trims_ends (name : str) :
  exists pre mid post,
    name = pre ++ mid ++ post /\
    Forall (fun c => trimmed c = true) pre /\
    Forall (fun c => trimmed c = true) post /\
    normalize_names name = lower mid /\
    Forall (fun c => isupper c = false) (normalize_names name) /\
    clear_of (Ascii.eqb star) (first_char (normalize_names name)) /\
    clear_of (Ascii.eqb star) (last_char (normalize_names name)).
Proof.
  destruct (strip_split isspace name) as (p1 & q1 & H1 & Hp1 & Hq1).
  destruct (strip_split (Ascii.eqb star) (strip isspace name))
    as (p2 & q2 & H2 & Hp2 & Hq2).
  exists (p1 ++ p2), (strip (Ascii.eqb star) (strip isspace name)), (q2 ++ q1).
  split; [|split; [|split; [|split; [reflexivity|apply normalize_names_clean]]]].
  - rewrite H1 at 1. rewrite H2 at 1. now rewrite <- !app_assoc.
  - apply Forall_app. split; eapply Forall_impl; try eassumption;
      unfold trimmed; simpl; intros c ->; auto using orb_true_r.
  - apply Forall_app. split; eapply Forall_impl; try eassumption;
      unfold trimmed; simpl; intros c ->; auto using orb_true_r.
Qed.

(** X4.  The names that [normalize_names] leaves as they are are those
    without a capital letter whose ends are neither spaces nor stars.  A
    normalized name can still start or end with a space, one that a star
    protected: normalizing it again changes it, so the function is not
    idempotent. *)
Theorem normalize_names_fixed_points (s : str) :
  (normalize_names s = s <->
   Forall (fun c => isupper c = false) s /\
   clear_of trimmed (first_char s) /\ clear_of trimmed (last_char s)) /\
  (normalize_names (normalize_names s) = normalize_names s <->
   clear_of isspace (first_char (normalize_names s)) /\
   clear_of isspace (last_char (normalize_names s))) /\
  normalize_names (String.list_ascii_of_string "* P *"%string)
    = String.list_ascii_of_string " p "%string /\
  normalize_names (String.list_ascii_of_string " p "%string)
    = String.list_ascii_of_string "p"%string.
Proof.
  split; [apply normalize_names_fixed_iff|]. split; [|split; reflexivity].
  rewrite normalize_names_fixed_iff.
  destruct (normalize_names_clean s) as (Hu & Hf & Hl).
  rewrite !trimmed_clear. tauto.
Qed.

(** * Slices with bounds that are not negative *)

Section Slices.

Local Open Scope nat_scope.

Lemma adjust_nonneg len i :
  (0 <= i)%Z -> (0 <= len)%Z -> adjust len i false = Z.min i len.
Proof.
  intros Hi Hl. unfold adjust.
  destruct (Z.ltb_spec i 0); [lia|]. destruct (Z.leb_spec len i); lia.
Qed.

Lemma slice_nonneg {A} (d : list A) (a b : Z) :
  (0 <= a)%Z -> (0 <= b)%Z ->
  slice d a b = firstn (Z.to_nat b - Z.to_nat a) (skipn (Z.to_nat a) d).
Proof.
  intros Ha Hb. unfold slice. rewrite !adjust_nonneg by lia.
  destruct (Z.le_gt_cases (Z.of_nat (length d)) a) as [H|H].
  - rewrite !skipn_all2 by lia. now rewrite !firstn_nil.
  - rewrite (Z.min_l a) by lia.
    destruct (Z.le_gt_cases b (Z.of_nat (length d))) as [H'|H'].
    + rewrite (Z.min_l b) by lia. f_equal. lia.
    + rewrite (Z.min_r b) by lia.
      rewrite !firstn_all2; auto; rewrite length_skipn; lia.
Qed.

Lemma firstn_add {A} (x y : nat) (l : list A) :
  firstn (x + y) l = firstn x l ++ firstn y (skipn x l).
Proof.
  revert l; induction x as [|x IH]; intros [|a l]; simpl; auto.
  - now rewrite firstn_nil.
  - now rewrite IH.
Qed.

(** A slice that starts at or after [k] only sees the elements from [k]
    on; a slice that stops at or before [k] only sees those before [k]. *)
Lemma slice_after {A} (d d' : list A) (k : nat) (a b : Z) :
  skipn k d = skipn k d' -> (Z.of_nat k <= a)%Z -> (0 <= b)%Z ->
  slice d a b = slice d' a b.
Proof.
  intros E Ha Hb. rewrite !slice_nonneg by lia.
  replace (Z.to_nat a) with ((Z.to_nat a - k) + k) by lia.
  rewrite <- !skipn_skipn. now rewrite E.
Qed.

Lemma slice_before {A} (d d' : list A) (k : nat) (a b : Z) :
  firstn k d = firstn k d' -> (0 <= a)%Z -> (0 <= b <= Z.of_nat k)%Z ->
  slice d a b = slice d' a b.
Proof.
  intros E Ha Hb. rewrite !slice_nonneg by lia.
  destruct (Nat.le_gt_cases (Z.to_nat b) (Z.to_nat a)) as [H|H].
  - replace (Z.to_nat b - Z.to_nat a) with 0 by lia. reflexivity.
  - rewrite !firstn_skipn_comm.
    replace (Z.to_nat a + (Z.to_nat b - Z.to_nat a)) with (Z.to_nat b) by lia.
    assert (F : forall l : list A, firstn (Z.to_nat b) l
                  = firstn (Z.to_nat b) (firstn k l)).
    { intros l. rewrite firstn_firstn. f_equal. lia. }
    rewrite (F d), (F d'). now rewrite E.
Qed.

Lemma slice_split {A} (d : list A) (a b c : Z) :
  (0 <= a <= b)%Z -> (b <= c)%Z ->
  slice d a c = slice d a b ++ slice d b c.
Proof.
  intros Ha Hb. rewrite !slice_nonneg by lia.
  replace (Z.to_nat c - Z.to_nat a)
    with ((Z.to_nat b - Z.to_nat a) + (Z.to_nat c - Z.to_nat b)) by lia.
  rewrite firstn_add, skipn_skipn. do 3 f_equal. lia.
Qed.

End Slices.

(** * [despike] *)

Section DespikeFacts.

Local Open Scope nat_scope.

Variables nanmean nanstd : list float -> float.
Variable n : float.
Variable windowsize : Z.

(** The three branches of the loop body differ by their window only. *)
Lemma despike_step_window data k :
  despike_step nanmean nanstd n windowsize data k
  = if find_outlier nanmean nanstd (nth k data nan)
         (despike_window data k windowsize) n
    then upd k nan data else data.
Proof.
  unfold despike_step, despike_window.
  destruct (Z.of_nat k <=? windowsize)%Z; [reflexivity|].
  destruct (Z.of_nat (length data) - windowsize <=? Z.of_nat k)%Z; reflexivity.
Qed.

Lemma despike_step_length data k :
  length (despike_step nanmean nanstd n windowsize data k) = length data.
Proof.
  rewrite despike_step_window.
  destruct (find_outlier _ _ _ _ _); [apply upd_length | reflexivity].
Qed.

Lemma despike_step_other data k i :
  i <> k -> nth i (despike_step nanmean nanstd n windowsize data k) nan = nth i data nan.
Proof.
  intros H. rewrite despike_step_window.
  destruct (find_outlier _ _ _ _ _); [|reflexivity].
  apply (cell_upd_neq k i); auto.
Qed.

(** The array after the first [m] turns of the loop. *)
Let after (values : list float) (m : nat) : list float :=
  fold_left (despike_step nanmean nanstd n windowsize) (seq 0 m) values.

Lemma after_S values m :
  after values (S m) = despike_step nanmean nanstd n windowsize (after values m) m.
Proof. unfold after. now rewrite seq_S, fold_left_app. Qed.

Lemma after_length values m : length (after values m) = length values.
Proof.
  induction m as [|m IH]; [reflexivity|].
  now rewrite after_S, despike_step_length.
Qed.

Lemma after_later values m i :
  m <= i -> nth i (after values m) nan = nth i values nan.
Proof.
  induction m as [|m IH]; intros H; [reflexivity|].
  rewrite after_S, despike_step_other by lia. apply IH. lia.
Qed.

Lemma after_earlier values m m' i :
  i < m -> m <= m' -> nth i (after values m') nan = nth i (after values m) nan.
Proof.
  intros Hi. induction 1 as [|m' Hm IH]; [reflexivity|].
  rewrite after_S, despike_step_other by lia. exact IH.
Qed.

(** When the loop reaches [k], the array holds the final values before
    [k] and the values it was given from [k] on. *)
Lemma after_parts values k :
  k <= length values ->
  after values k
  = firstn k (despike_values nanmean nanstd n windowsize values) ++ skipn k values.
Proof.
  intros Hk. change (despike_values nanmean nanstd n windowsize values)
    with (after values (length values)).
  apply (nth_ext _ _ nan nan).
  - rewrite length_app, length_firstn, length_skipn, !after_length. lia.
  - intros i _. destruct (Nat.lt_ge_cases i k) as [H|H].
    + rewrite app_nth1 by (rewrite length_firstn, after_length; lia).
      rewrite nth_firstn. destruct (Nat.ltb_spec i k); [|lia].
      symmetry. apply after_earlier; lia.
    + rewrite app_nth2 by (rewrite length_firstn, after_length; lia).
      rewrite length_firstn, after_length, nth_skipn.
      rewrite after_later by lia. f_equal. lia.
Qed.

(** What the loop decides for the element [k]. *)
Lemma despike_values_nth values k :
  k < length values ->
  nth k (despike_values nanmean nanstd n windowsize values) nan
  = if find_outlier nanmean nanstd (nth k values nan)
         (despike_window (after values k) k windowsize) n
    then nan else nth k values nan.
Proof.
  intros Hk. change (despike_values nanmean nanstd n windowsize values)
    with (after values (length values)).
  rewrite (after_earlier values (S k)) by lia.
  rewrite after_S, despike_step_window, after_later by lia.
  destruct (find_outlier _ _ _ _ _).
  - apply (cell_upd_eq k nan). rewrite after_length. exact Hk.
  - now apply after_later.
Qed.

Lemma despike_values_length values :
  length (despike_values nanmean nanstd n windowsize values) = length values.
Proof. apply after_length. Qed.

(** The window of the element [k], read off the values given and the
    values returned. *)
Lemma despike_window_parts values k :
  (0 <= windowsize)%Z -> k < length values ->
  let out := despike_values nanmean nanstd n windowsize values in
  let kz := Z.of_nat k in
  despike_window (after values k) k windowsize
  = if (kz <=? windowsize)%Z then slice values kz (kz + windowsize)
    else if (Z.of_nat (length values) - windowsize <=? kz)%Z
         then slice out (kz - windowsize) kz
         else slice out (kz - windowsize) kz ++ slice values kz (kz + windowsize).
Proof.
  intros Hw Hk out kz. unfold despike_window. fold kz. rewrite after_length.
  assert (P : after values k = firstn k out ++ skipn k values)
    by (apply after_parts; lia).
  assert (Lo : length out = length values) by apply despike_values_length.
  assert (Hs : skipn k (after values k) = skipn k values).
  { rewrite P, skipn_app, length_firstn, Lo.
    replace (k - Nat.min k (length values)) with 0 by lia.
    rewrite skipn_firstn_comm. replace (k - k) with 0 by lia. reflexivity. }
  assert (Hf : firstn k (after values k) = firstn k out).
  { rewrite P, firstn_app, length_firstn, Lo.
    replace (k - Nat.min k (length values)) with 0 by lia.
    rewrite firstn_firstn, Nat.min_id. simpl. apply app_nil_r. }
  destruct (Z.leb_spec kz windowsize) as [H1|H1].
  - apply (slice_after _ _ k); auto; lia.
  - destruct (Z.leb_spec (Z.of_nat (length values) - windowsize) kz) as [H2|H2].
    + apply (slice_before _ _ k); auto; lia.
    + rewrite (slice_split _ (kz - windowsize) kz) by lia. f_equal.
      * apply (slice_before _ _ k); auto; lia.
      * apply (slice_after _ _ k); auto; lia.
Qed.

End DespikeFacts.

(** X5.  [despike] returns a series on the same index with the same name
    and as many values: each value is the one it was given, or a NaN.  In
    particular a value that was missing stays missing. *)
Theorem despike_blanks_only (nanmean nanstd : list float -> float)
    (self : Series.t float) (n : float) (windowsize : Z) :
  Series.aligned self ->
  exists out,
    despike nanmean nanstd self n windowsize = Returns out /\
    Series.index out = Series.index self /\
    Series.name out = Series.name self /\
    length (Series.values out) = length (Series.values self) /\
    forall k,
      nth k (Series.values out) nan = nth k (Series.values self) nan \/
      isnan (nth k (Series.values out) nan) = true.
Proof.
  intros Ha. unfold Series.aligned in Ha.
  exists (Series.mk (despike_values nanmean nanstd n windowsize (Series.values self))
                    (Series.index self) (Series.name self)).
  split; [|split; [reflexivity|split; [reflexivity|split]]].
  - unfold despike, Series_new. rewrite despike_values_length, Ha.
    now rewrite Nat.eqb_refl.
  - apply despike_values_length.
  - intros k. simpl.
    destruct (Nat.lt_ge_cases k (length (Series.values self))) as [H|H].
    + rewrite despike_values_nth by exact H.
      destruct (find_outlier _ _ _ _ _); auto.
    + left. rewrite !nth_overflow; auto. now rewrite despike_values_length.
Qed.

Lemma despike_blanks_only_witness :
  Series.aligned spiky /\
  despike plain_nanmean plain_nanstd spiky 1 2
  = Returns (Series.mk [10; 10.5; 11; nan; 11.5; 12; nan; 13]
                       (Series.index spiky) (Series.name spiky)).
Proof.
  split; [reflexivity|].
  destruct (despike_blanks_only plain_nanmean plain_nanstd spiky 1 2)
    as (out & E & _); [reflexivity|].
  rewrite E. vm_compute in E. rewrite <- E. reflexivity.
Defined.

(** X6.  The loop of [despike] judges the element [k] on a window of the
    array it is rewriting.  For a window size that is not negative: the
    first [windowsize + 1] elements are judged on the values given, from
    the element itself onwards; an element in the last [windowsize] is
    judged on the values returned for the [windowsize] elements before
    it, itself left out; any other element on the values returned before
    it followed by the values given from it onwards. *)
Theorem despike_windows (nanmean nanstd : list float -> float)
    (values : list float) (n : float) (windowsize : Z) (k : nat) :
  (0 <= windowsize)%Z -> k < length values ->
  let out := despike_values nanmean nanstd n windowsize values in
  let kz := Z.of_nat k in
  let window :=
    if (kz <=? windowsize)%Z then slice values kz (kz + windowsize)
    else if (Z.of_nat (length values) - windowsize <=? kz)%Z
         then slice out (kz - windowsize) kz
         else slice out (kz - windowsize) kz ++ slice values kz (kz + windowsize) in
  nth k out nan
  = if find_outlier nanmean nanstd (nth k values nan) window n
    then nan else nth k values nan.
Proof.
  intros Hw Hk out kz window. unfold out.
  rewrite despike_values_nth by exact Hk.
  now rewrite despike_window_parts by assumption.
Qed.

Lemma despike_windows_witness :
  nth 6 (despike_values plain_nanmean plain_nanstd 1 2 (Series.values spiky)) nan
  = if find_outlier plain_nanmean plain_nanstd 12.5 [11.5; 12] 1
    then nan else 12.5.
Proof.
  exact (despike_windows plain_nanmean plain_nanstd (Series.values spiky) 1 2 6
           ltac:(lia) ltac:(simpl; lia)).
Defined.

(** * [asof] *)

Section Asof.

Local Open Scope nat_scope.

Variable arr : list float.
Variable key : float.
Hypothesis sorted : nondecreasing arr.
Hypothesis key_number : isnan key = false.

Lemma sorted_number i : i < length arr -> isnan (nth i arr nan) = false.
Proof.
  intros H. assert (E : (nth i arr nan <=? nth i arr nan)%float = true)
    by (apply sorted; lia).
  now apply Order64.leb_nonnan in E.
Qed.

Lemma np_lt_number i :
  i < length arr -> np_lt (nth i arr nan) key = (nth i arr nan <? key)%float.
Proof.
  intros H. unfold np_lt. rewrite key_number. apply orb_false_r.
Qed.

(** The search keeps the labels below the key on its left and the others
    on its right, and ends between them. *)
Lemma binsearch_left_bounds fuel : forall lo hi,
  lo <= hi <= length arr -> hi - lo < fuel ->
  (forall i, i < lo -> (nth i arr nan <? key)%float = true) ->
  (forall i, hi <= i < length arr -> (nth i arr nan <? key)%float = false) ->
  let r := binsearch_left fuel arr key lo hi in
  lo <= r <= hi /\
  (forall i, i < r -> (nth i arr nan <? key)%float = true) /\
  (forall i, r <= i < length arr -> (nth i arr nan <? key)%float = false).
Proof.
  induction fuel as [|fuel IH]; intros lo hi Hb Hf Hlo Hhi; [lia|].
  simpl. destruct (Nat.ltb_spec lo hi) as [Hlt|Hge].
  - set (mid := lo + Nat.div2 (hi - lo)).
    assert (Hmid : lo <= mid < hi).
    { assert (H : Nat.div2 (hi - lo) < hi - lo) by (apply Nat.lt_div2; lia).
      unfold mid. revert H. generalize (Nat.div2 (hi - lo)). lia. }
    rewrite np_lt_number by lia.
    destruct (nth mid arr nan <? key)%float eqn:E.
    + destruct (IH (mid + 1) hi) as (R1 & R2 & R3); try lia; auto.
      * intros i Hi.
        apply Order64.leb_ltb_trans with (y := nth mid arr nan); [|exact E].
        apply sorted. lia.
      * split; [lia|]. auto.
    + destruct (IH lo mid) as (R1 & R2 & R3); try lia; auto.
      * intros i Hi. destruct (nth i arr nan <? key)%float eqn:E'; auto.
        assert (F : (nth mid arr nan <? key)%float = true); [|congruence].
        apply Order64.leb_ltb_trans with (y := nth i arr nan); [|exact E'].
        apply sorted. lia.
      * split; [lia|]. auto.
  - split; [lia|]. split; auto. intros i Hi. apply Hhi. lia.
Qed.

Lemma searchsorted_bounds :
  let loc := searchsorted arr key in
  loc <= length arr /\
  (forall i, i < loc -> (nth i arr nan <? key)%float = true) /\
  (forall i, loc <= i < length arr -> (nth i arr nan <? key)%float = false).
Proof.
  unfold searchsorted.
  assert (H : 0 <= length arr <= length arr) by lia.
  destruct (binsearch_left_bounds (S (length arr)) 0 (length arr) H)
    as (R1 & R2 & R3).
  - lia.
  - intros i Hi. lia.
  - intros i Hi. lia.
  - split; [lia|]. split; assumption.
Qed.

Lemma contains_false i :
  contains arr key = false -> i < length arr ->
  (nth i arr nan =? key)%float = false.
Proof.
  unfold contains. intros H Hi.
  destruct (nth i arr nan =? key)%float eqn:E; auto.
  assert (existsb (fun x => x =? key)%float arr = true); [|congruence].
  apply existsb_exists. exists (nth i arr nan). split; auto. now apply nth_In.
Qed.

End Asof.

(** X7.  On an index whose labels never decrease, [asof] answers a label
    that is a number as follows: the label itself when the index holds
    it; otherwise the last label of the index below it, every label
    after that one being above it; and a NaN when every label of the
    index is above it. *)
Theorem asof_last_label_below (self : list float) (label : float) :
  nondecreasing self -> isnan label = false ->
  (contains self label = true -> asof self label = label) /\
  (contains self label = false ->
   ((forall i, (i < length self)%nat -> (label <? nth i self nan) = true) /\
    isnan (asof self label) = true) \/
   (exists k, (k < length self)%nat /\
      asof self label = nth k self nan /\
      (nth k self nan <? label) = true /\
      forall i, (k < i < length self)%nat -> (label <? nth i self nan) = true)).
Proof.
  intros Hs Hl. unfold asof. split; [now intros ->|]. intros Hc. rewrite Hc. simpl.
  destruct (searchsorted_bounds self label Hs Hl) as (R1 & R2 & R3).
  assert (Above : forall i, (searchsorted self label <= i < length self)%nat ->
                    (label <? nth i self nan) = true).
  { intros i Hi.
    destruct (Order64.eqb_false_cases (nth i self nan) label) as [H|H]; auto.
    - apply sorted_number; [exact Hs | lia].
    - apply contains_false; auto. lia.
    - rewrite R3 in H by exact Hi. discriminate. }
  destruct (Nat.ltb_spec 0 (searchsorted self label)) as [Hpos|Hzero].
  - right. exists (searchsorted self label - 1)%nat.
    split; [lia|]. split; [reflexivity|].
    split; [apply R2; lia|]. intros i Hi. apply Above. lia.
  - left. split; [|reflexivity]. intros i Hi. apply Above. lia.
Qed.

Lemma asof_last_label_below_witness :
  nondecreasing bin_edges /\ isnan 6.25 = false /\
  contains bin_edges 6.25 = false /\ asof bin_edges 6.25 = 5.5.
Proof.
  assert (Hs : nondecreasing bin_edges).
  { intros i j H. simpl in H.
    destruct i as [|[|[|i]]], j as [|[|[|j]]]; try lia; reflexivity. }
  split; [exact Hs|]. split; [reflexivity|]. split; [reflexivity|].
  destruct (asof_last_label_below bin_edges 6.25 Hs eq_refl) as [_ H].
  destruct (H eq_refl) as [[_ H2]|(k & _ & _ & _ & _)].
  - discriminate H2.
  - reflexivity.
Defined.

(** * [get_maxdepth] *)

Lemma collect_map {A B} (f : A -> result B) (v : A -> B) (l : list A) :
  (forall x, In x l -> f x = Normal (v x)) ->
  collect (map f l) = Normal (map v l).
Proof.
  induction l as [|a t IH]; simpl; intros H; [reflexivity|].
  rewrite (H a) by auto. rewrite IH by auto. reflexivity.
Qed.

(** The maximum numpy takes of numbers none of which is a NaN is one of
    them, and none of them is above it. *)
Lemma fold_np_maximum t : forall a,
  Forall (fun x => isnan x = false) (a :: t) ->
  In (fold_left np_maximum t a) (a :: t) /\
  Forall (fun x => (x <=? fold_left np_maximum t a) = true) (a :: t).
Proof.
  induction t as [|b t IH]; intros a Ha.
  - simpl. split; auto. constructor; auto.
    apply Order64.leb_self. now inversion Ha.
  - inversion Ha as [|? ? Hna Ht]; subst. inversion Ht as [|? ? Hnb Ht']; subst.
    simpl fold_left. unfold np_maximum at 2 4. rewrite Hna, orb_false_r.
    destruct (b <=? a) eqn:E.
    + destruct (IH a) as (Hin & Hall); [constructor; auto|]. split.
      * destruct Hin as [<-|Hin]; [now left | right; now right].
      * inversion Hall as [|? ? Hm Hrest]; subst.
        constructor; auto. constructor; auto.
        eapply Order64.leb_chain; eauto.
    + destruct (IH b) as (Hin & Hall); [constructor; auto|]. split.
      * now right.
      * inversion Hall as [|? ? Hm Hrest]; subst.
        constructor; auto.
        eapply Order64.leb_chain; [|exact Hm].
        apply Order64.ltb_weaken. now apply Order64.leb_total.
Qed.

(** The products of [get_maxdepth] for station [j], level by level. *)
Lemma maxdepth_products (f : DataFrame.t) (j : nat) :
  nrows (DataFrame.values f) = length (DataFrame.index f) ->
  let products :=
    map (fun pb => fst pb * of_bool (snd pb))
        (combine (DataFrame.index f)
           (map (fun r => notnull (cell r j)) (rows (DataFrame.values f)))) in
  length products = nrows (DataFrame.values f) /\
  forall i, i < nrows (DataFrame.values f) ->
    nth i products nan
    = nth i (DataFrame.index f) nan * of_bool (notnull (get (DataFrame.values f) i j)).
Proof.
  intros Hlen products. unfold products, nrows in *. split.
  - rewrite length_map, length_combine, length_map. lia.
  - intros i Hi.
    rewrite (nth_indep _ nan (fst (nan, true) * of_bool (snd (nan, true))))
      by (rewrite length_map, length_combine, length_map; lia).
    rewrite (map_nth (fun pb => fst pb * of_bool (snd pb))).
    rewrite combine_nth by (rewrite length_map; lia).
    simpl. f_equal. f_equal.
    rewrite (nth_indep _ true (notnull (cell [] j))) by (rewrite length_map; lia).
    now rewrite (map_nth (fun r => notnull (cell r j))).
Qed.

(** X8.  On a frame with at least one level whose labels are finite and
    not below zero, [get_maxdepth] returns one number per station: no
    label of a level that holds a number is above it, and it is either
    the label of such a level or a zero; it is a zero for a station that
    holds no number, and, when the labels never decrease, it equals the
    label of the deepest level of the station that holds a number. *)
Theorem get_maxdepth_deepest_valid (f : DataFrame.t) :
  DataFrame.aligned f ->
  1 <= nrows (DataFrame.values f) ->
  Forall (fun p => (0 <=? p) = true /\ is_finite p = true) (DataFrame.index f) ->
  exists h,
    get_maxdepth f = Normal h /\
    length h = ncols (DataFrame.values f) /\
    forall j, j < ncols (DataFrame.values f) ->
      (forall i, i < nrows (DataFrame.values f) ->
         isnan (get (DataFrame.values f) i j) = false ->
         (nth i (DataFrame.index f) nan <=? nth j h nan) = true) /\
      ((nth j h nan =? 0) = true \/
       exists i, i < nrows (DataFrame.values f) /\
         isnan (get (DataFrame.values f) i j) = false /\
         nth j h nan = nth i (DataFrame.index f) nan) /\
      ((forall i, i < nrows (DataFrame.values f) ->
          isnan (get (DataFrame.values f) i j) = true) ->
       (nth j h nan =? 0) = true) /\
      (nondecreasing (DataFrame.index f) ->
       forall i, i < nrows (DataFrame.values f) ->
         isnan (get (DataFrame.values f) i j) = false ->
         (forall i', i < i' < nrows (DataFrame.values f) ->
            isnan (get (DataFrame.values f) i' j) = true) ->
         (nth j h nan =? nth i (DataFrame.index f) nan) = true).
Proof.
  intros [Hrect Hlen] Hrows Hidx.
  set (g := DataFrame.values f) in *. set (idx := DataFrame.index f) in *.
  set (products := fun j : nat =>
    map (fun pb => fst pb * of_bool (snd pb))
        (combine idx (map (fun r => notnull (cell r j)) (rows g)))).
  set (top := fun j : nat =>
    fold_left np_maximum (tl (products j)) (hd nan (products j))).
  assert (Hprod : forall j, length (products j) = nrows g /\
    forall i, i < nrows g ->
      nth i (products j) nan = nth i idx nan * of_bool (notnull (get g i j)))
    by (intros j; apply (maxdepth_products f j Hlen)).
  assert (Hmax : forall j, np_max (products j) = Normal (top j)).
  { intros j. destruct (Hprod j) as [L _]. unfold top.
    destruct (products j); [simpl in L; lia | reflexivity]. }
  exists (map top (seq 0 (ncols g))). split; [|split].
  - unfold get_maxdepth. fold g idx.
    destruct (Nat.eqb_spec (nrows g) 0) as [E|_]; [lia|].
    apply (collect_map (fun j => np_max (products j)) top). intros j _. apply Hmax.
  - now rewrite length_map, length_seq.
  - intros j Hj.
    rewrite (nth_indep _ nan (top 0%nat)) by (rewrite length_map, length_seq; lia).
    rewrite (map_nth top), seq_nth by lia. simpl.
    destruct (Hprod j) as [L Hnth].
    assert (Hlabel : forall i, i < nrows g ->
      (0 <=? nth i idx nan) = true /\ is_finite (nth i idx nan) = true).
    { intros i Hi. rewrite Forall_forall in Hidx. apply Hidx.
      apply nth_In. rewrite <- Hlen. exact Hi. }
    assert (Hnonnan : Forall (fun x => isnan x = false) (products j)).
    { apply Forall_forall. intros x Hx.
      destruct (In_nth _ _ nan Hx) as (i & Hi & <-). rewrite L in Hi.
      rewrite Hnth by exact Hi. destruct (Hlabel i Hi) as [Hp Hf].
      destruct (notnull (get g i j)); simpl.
      - rewrite Order64.mul_one_r. now apply Order64.leb_nonnan in Hp.
      - pose proof (Order64.mul_zero_r _ Hp Hf) as Hz.
        apply Order64.eqb_leb, Order64.leb_nonnan in Hz. tauto. }
    assert (Htop : In (top j) (products j) /\
                   Forall (fun x => (x <=? top j) = true) (products j)).
    { unfold top. destruct (products j) as [|a t] eqn:Ep; [simpl in L; lia|].
      apply fold_np_maximum. exact Hnonnan. }
    destruct Htop as [Hin Hall].
    assert (A : forall i, i < nrows g -> isnan (get g i j) = false ->
                (nth i idx nan <=? top j) = true).
    { intros i Hi Hv. rewrite Forall_forall in Hall.
      assert (Hm : In (nth i (products j) nan) (products j))
        by (apply nth_In; lia).
      apply Hall in Hm. rewrite Hnth in Hm by exact Hi.
      unfold notnull in Hm. rewrite Hv in Hm. simpl in Hm.
      now rewrite Order64.mul_one_r in Hm. }
    assert (B : (top j =? 0) = true \/
      exists i, i < nrows g /\ isnan (get g i j) = false /\
        top j = nth i idx nan).
    { destruct (In_nth _ _ nan Hin) as (i & Hi & E). rewrite L in Hi.
      rewrite Hnth in E by exact Hi. destruct (Hlabel i Hi) as [Hp Hf].
      unfold notnull in E. destruct (isnan (get g i j)) eqn:Ev; simpl in E.
      - left. rewrite <- E. now apply Order64.mul_zero_r.
      - right. exists i. rewrite Order64.mul_one_r in E. auto. }
    split; [exact A|]. split; [exact B|]. split.
    + intros Hall'. destruct B as [B|(i & Hi & Hv & _)]; [exact B|].
      rewrite Hall' in Hv by exact Hi. discriminate.
    + intros Hsorted i Hi Hv Hdeeper.
      apply Order64.leb_antisym; [|now apply A].
      destruct B as [B|(k & Hk & Hkv & ->)].
      * apply Order64.eqb_leb_trans with (y := 0); [exact B|].
        now apply Hlabel.
      * apply Hsorted. split; [|now rewrite <- Hlen].
        destruct (Nat.le_gt_cases k i) as [Hle|Hgt]; [exact Hle|].
        rewrite Hdeeper in Hkv by lia. discriminate.
Qed.

Lemma get_maxdepth_deepest_valid_witness :
  get_maxdepth three_casts = Normal [30; 30; 0].
Proof.
  destruct (get_maxdepth_deepest_valid three_casts) as (h & E & _).
  - split; [repeat constructor | reflexivity].
  - cbv; lia.
  - repeat constructor.
  - rewrite E. vm_compute in E. congruence.
Defined.

(** * [check_index] and the TEOS-10 wrappers *)

Section Teos10Facts.

Variable shape_mismatch : outcome bool.
Variable gsw_SP_from_C gsw_CT_from_t : value -> value -> key -> list float.

Lemma all_equal_same_length a b :
  length a = length b ->
  all_equal shape_mismatch a b
  = Returns (forallb (fun xy => fst xy =? snd xy) (combine a b)).
Proof. intros E. unfold all_equal. now rewrite E, Nat.eqb_refl. Qed.

Lemma check_index_series (s0 s1 : Series.t float) :
  length (Series.index s0) = length (Series.index s1) ->
  check_index shape_mismatch (VSeries s0) (VSeries s1)
  = Returns (if forallb (fun xy => fst xy =? snd xy)
                  (combine (Series.index s0) (Series.index s1))
             then Some (KArray (Series.index s0), KArray (Series.index s1))
             else None).
Proof.
  intros E. unfold check_index, float_. rewrite all_equal_same_length by exact E.
  simpl. now destruct (forallb _ _).
Qed.

(** An index equals itself, label by label, when none of its labels is
    a NaN. *)
Lemma equals_itself (l : list float) :
  forallb (fun xy => fst xy =? snd xy) (combine l l) = true <->
  Forall (fun x => isnan x = false) l.
Proof.
  induction l as [|x t IH]; simpl.
  - split; auto.
  - rewrite andb_true_iff, IH. split.
    + intros [H Ht]. constructor; auto.
      apply Order64.eqb_leb, Order64.leb_nonnan in H. tauto.
    + intros H. inversion H; subst. split; auto.
      apply Order64.leb_antisym; now apply Order64.leb_self.
Qed.

End Teos10Facts.

(** X9.  [SP_from_C] and [CT_from_t] on two series whose indexes have the
    same length: when the indexes are equal label by label, the result is
    a series on the index of the first argument, named after the
    quantity, that holds what gsw computed (one value per label); when a
    label differs, [check_index] returns [None] without raising, and the
    wrapper raises [TypeError].  The [ValueError] of [check_index] is
    raised when one argument is a series and the other a float. *)
Theorem teos10_index_check (shape_mismatch : outcome bool)
    (gsw_SP_from_C gsw_CT_from_t : value -> value -> key -> list float)
    (a b : Series.t float) (x : float) :
  length (Series.index a) = length (Series.index b) ->
  let same :=
    forallb (fun xy => fst xy =? snd xy)
            (combine (Series.index a) (Series.index b)) in
  let p := KArray (Series.index a) in
  (same = false ->
   check_index shape_mismatch (VSeries a) (VSeries b) = Returns None /\
   SP_from_C shape_mismatch gsw_SP_from_C (VSeries a) (VSeries b)
     = Raises TypeError /\
   CT_from_t shape_mismatch gsw_CT_from_t (VSeries a) (VSeries b)
     = Raises TypeError) /\
  (same = true ->
   (length (gsw_SP_from_C (VSeries a) (VSeries b) p) = length (Series.index a) ->
    SP_from_C shape_mismatch gsw_SP_from_C (VSeries a) (VSeries b)
    = Returns (Series.mk (gsw_SP_from_C (VSeries a) (VSeries b) p)
                         (Series.index a) (Some Salinity))) /\
   (length (gsw_CT_from_t (VSeries a) (VSeries b) p) = length (Series.index a) ->
    CT_from_t shape_mismatch gsw_CT_from_t (VSeries a) (VSeries b)
    = Returns (Series.mk (gsw_CT_from_t (VSeries a) (VSeries b) p)
                         (Series.index a) (Some Conservative_temperature)))) /\
  SP_from_C shape_mismatch gsw_SP_from_C (VSeries a) (VFloat x)
    = Raises (Builtin ValueError) /\
  SP_from_C shape_mismatch gsw_SP_from_C (VFloat x) (VSeries b)
    = Raises (Builtin ValueError).
Proof.
  intros E same p.
  pose proof (check_index_series shape_mismatch a b E) as C. fold same in C.
  split; [|split; [|split; reflexivity]].
  - intros Hs. rewrite Hs in C. unfold SP_from_C, CT_from_t. rewrite C.
    repeat split.
  - intros Hs. rewrite Hs in C. unfold SP_from_C, CT_from_t. rewrite C. simpl.
    unfold Series_new. fold p. split; intros ->; now rewrite Nat.eqb_refl.
Qed.

Lemma teos10_index_check_witness :
  length (Series.index conductivity) = length (Series.index temperature_shifted) /\
  SP_from_C unequal_shapes first_values (VSeries conductivity)
    (VSeries temperature_shifted) = Raises TypeError /\
  SP_from_C unequal_shapes first_values (VSeries conductivity) (VSeries temperature)
    = Returns (Series.mk [42; 41.5; 41] [5; 6; 7] (Some Salinity)).
Proof.
  split; [reflexivity|]. split.
  - destruct (teos10_index_check unequal_shapes first_values first_values
                conductivity temperature_shifted 0 eq_refl) as [H _].
    apply H. reflexivity.
  - destruct (teos10_index_check unequal_shapes first_values first_values
                conductivity temperature 0 eq_refl) as (_ & H & _).
    destruct (H eq_refl) as [H' _]. apply H'. reflexivity.
Defined.

(** X10.  Called on a series and itself, [SP_from_C] returns when no label
    of the index is a NaN, and raises [TypeError] when one is: a NaN
    differs from itself, so [check_index] finds the index different from
    itself. *)
Theorem teos10_nan_label (shape_mismatch : outcome bool)
    (gsw_SP_from_C : value -> value -> key -> list float) (a : Series.t float) :
  length (gsw_SP_from_C (VSeries a) (VSeries a) (KArray (Series.index a)))
    = length (Series.index a) ->
  (Forall (fun l => isnan l = false) (Series.index a) ->
   exists s, SP_from_C shape_mismatch gsw_SP_from_C (VSeries a) (VSeries a)
             = Returns s /\ Series.index s = Series.index a) /\
  (Exists (fun l => isnan l = true) (Series.index a) ->
   SP_from_C shape_mismatch gsw_SP_from_C (VSeries a) (VSeries a)
   = Raises TypeError).
Proof.
  intros L.
  pose proof (check_index_series shape_mismatch a a eq_refl) as C.
  pose proof (equals_itself (Series.index a)) as Q.
  unfold SP_from_C. rewrite C. split.
  - intros H. apply Q in H. rewrite H. simpl. unfold Series_new.
    rewrite L, Nat.eqb_refl. eexists. split; reflexivity.
  - intros H.
    destruct (forallb _ (combine (Series.index a) (Series.index a))) eqn:F;
      [|reflexivity].
    destruct Q as [Q _]. specialize (Q eq_refl).
    apply Exists_exists in H. destruct H as (l & Hin & Hl).
    rewrite Forall_forall in Q. rewrite (Q l Hin) in Hl. discriminate.
Qed.

Lemma teos10_nan_label_witness :
  SP_from_C unequal_shapes first_values
    (VSeries (Series.mk [42; 41] [5; nan] None))
    (VSeries (Series.mk [42; 41] [5; nan] None)) = Raises TypeError.
Proof.
  destruct (teos10_nan_label unequal_shapes first_values
              (Series.mk [42; 41] [5; nan] None) eq_refl) as [_ H].
  apply H. apply Exists_cons_tl. apply Exists_cons_hd. reflexivity.
Defined.

(** * [smooth] *)

Section SliceLengths.

Local Open Scope nat_scope.

Lemma slice_length {A} (d : list A) (a b : Z) :
  let len := Z.of_nat (length d) in
  length (slice d a b)
  = Nat.min (Z.to_nat (adjust len b false - adjust len a false))
            (length d - Z.to_nat (adjust len a false)).
Proof. intros len. unfold slice. now rewrite length_firstn, length_skipn. Qed.

Lemma slice_rev_length {A} (d : list A) (a b : Z) :
  let len := Z.of_nat (length d) in
  length (slice_rev d a b)
  = Nat.min (Z.to_nat (adjust len a true - adjust len b true))
            (length d - Z.to_nat (adjust len b true + 1)).
Proof.
  intros len. unfold slice_rev. now rewrite length_rev, length_firstn, length_skipn.
Qed.

End SliceLengths.

(** The cases of [adjust], for [lia]. *)
Ltac adjust_cases :=
  unfold adjust in *;
  repeat match goal with
  | |- context [(?a <? ?b)%Z] => destruct (Z.ltb_spec a b)
  | |- context [(?a <=? ?b)%Z] => destruct (Z.leb_spec a b)
  | H : context [(?a <? ?b)%Z] |- _ => destruct (Z.ltb_spec a b)
  | H : context [(?a <=? ?b)%Z] |- _ => destruct (Z.leb_spec a b)
  end.

Lemma str_eqb_eq a : forall b, str_eqb a b = true <-> a = b.
Proof.
  induction a as [|c a IH]; intros [|c' b]; simpl; split; try discriminate; auto.
  - rewrite andb_true_iff, Ascii.eqb_eq, IH. now intros [-> ->].
  - intros [= -> ->]. rewrite Ascii.eqb_refl. simpl. now apply IH.
Qed.

Lemma windows_keys_spec w :
  existsb (str_eqb w) windows_keys = true <-> In w windows_keys.
Proof.
  rewrite existsb_exists. split.
  - intros (k & Hk & E). apply str_eqb_eq in E. now subst.
  - intros H. exists w. split; auto. now apply str_eqb_eq.
Qed.

Section SmoothFacts.

Local Open Scope nat_scope.

Variable np_window : str -> Z -> list float.
Variable np_sum : list float -> float.
Variable np_convolve_same : list float -> list float -> list float.

(** A window function of numpy answers as many points as it is asked. *)
Hypothesis window_length :
  forall name n, (0 <= n)%Z -> length (np_window name n) = Z.to_nat n.

(** The mode [same] of [np.convolve] answers an array as long as the
    longer of its two arguments. *)
Hypothesis convolve_length :
  forall v s, v <> [] -> s <> [] ->
  length (np_convolve_same v s) = Nat.max (length v) (length s).

Lemma padded_length data window_len first last :
  (3 <= window_len)%Z -> 1 <= length data ->
  length (padded data window_len first last)
  = length data
    + (if (window_len <? Z.of_nat (length data))%Z then Z.to_nat window_len - 1
       else length data - 2)
    + (if (window_len <=? Z.of_nat (length data))%Z then Z.to_nat window_len - 1
       else length data).
Proof.
  intros Hw Hn. unfold padded.
  rewrite !length_app, !length_map, !slice_rev_length.
  destruct (Z.ltb_spec window_len (Z.of_nat (length data)));
    destruct (Z.leb_spec window_len (Z.of_nat (length data)));
    adjust_cases; lia.
Qed.

(** The length of what [smooth] hands to [Series]. *)
Lemma smoothed_length data window_len window first last :
  (3 <= window_len)%Z -> 1 <= length data ->
  let w := np_window window window_len in
  let s := padded data window_len first last in
  length (slice (np_convolve_same (map (fun x => (x / np_sum w)%float) w) s)
                (window_len - 1) (- window_len + 1))
  = Nat.max (Z.to_nat window_len) (length s) - 2 * (Z.to_nat window_len - 1).
Proof.
  intros Hw Hn w s.
  assert (Lw : length w = Z.to_nat window_len) by (apply window_length; lia).
  assert (Ls : 1 <= length s).
  { unfold s. rewrite padded_length by assumption. lia. }
  rewrite slice_length, convolve_length.
  - rewrite length_map, Lw.
    set (L := Nat.max (Z.to_nat window_len) (length s)).
    assert (Z.to_nat window_len <= L) by lia.
    adjust_cases; lia.
  - intros E. apply (f_equal (@length float)) in E.
    rewrite length_map, Lw in E. simpl in E. lia.
  - intros E. rewrite E in Ls. simpl in Ls. lia.
Qed.

Lemma smooth_known_window (self : Series.t float) window_len window first rest :
  (3 <= window_len)%Z -> In window windows_keys ->
  Series.values self = first :: rest ->
  smooth np_window np_sum np_convolve_same self window_len window
  = let w := np_window window window_len in
    let s := padded (Series.values self) window_len first (last rest first) in
    Series_new
      (slice (np_convolve_same (map (fun x => (x / np_sum w)%float) w) s)
             (window_len - 1) (- window_len + 1))
      (Series.index self) (Series.name self).
Proof.
  intros Hw Hin Hv. unfold smooth.
  destruct (Z.ltb_spec window_len 3); [lia|].
  assert (K : existsb (str_eqb window) windows_keys = true)
    by now apply windows_keys_spec.
  rewrite K, Hv. reflexivity.
Qed.

End SmoothFacts.



(** * The reflections of [smooth] *)

Section Reflections.

Local Open Scope nat_scope.

Lemma slice_rev_nth {A} (d : list A) (a b : Z) (k : nat) (x : A) :
  let len := Z.of_nat (length d) in
  let i := adjust len a true in
  let j := adjust len b true in
  (Z.of_nat k < i - j)%Z ->
  nth k (slice_rev d a b) x = nth (Z.to_nat i - k) d x.
Proof.
  intros len i j Hk. unfold slice_rev. fold len. fold i. fold j.
  assert (Hi : (-1 <= i < len)%Z /\ (-1 <= j < len)%Z \/ len = 0%Z).
  { unfold i, j. destruct (Z.eq_dec len 0); [now right|left].
    assert (0 <= len)%Z by (unfold len; lia). adjust_cases; lia. }
  destruct Hi as [[Hi Hj]|H0].
  - set (l := firstn (Z.to_nat (i - j)) (skipn (Z.to_nat (j + 1)) d)).
    assert (Ll : length l = Z.to_nat (i - j)).
    { unfold l. rewrite length_firstn, length_skipn. unfold len in *. lia. }
    rewrite rev_nth by lia. rewrite Ll. unfold l.
    rewrite nth_firstn.
    destruct (Nat.ltb_spec (Z.to_nat (i - j) - S k) (Z.to_nat (i - j))); [|lia].
    rewrite nth_skipn. f_equal. lia.
  - exfalso. unfold i, j in Hk. rewrite H0 in Hk. adjust_cases; lia.
Qed.

End Reflections.

(** X12.  The signal that [smooth] convolves, for a series of more than
    [window_len] values: [window_len - 1] values reflected about the
    first one, the values themselves, and [window_len - 1] values
    reflected about the last one.  The two reflections are not mirror
    images of each other: on the left the values reflected are
    [data[window_len]] down to [data[2]], on the right [data[N - 1]] down
    to [data[N - window_len + 1]]. *)
Theorem smooth_reflections (data : list float) (window_len : Z) (first last : float) :
  (3 <= window_len < Z.of_nat (length data))%Z ->
  let s := padded data window_len first last in
  let w := Z.to_nat window_len in
  let N := length data in
  length s = (N + 2 * (w - 1))%nat /\
  (forall i, (i < w - 1)%nat ->
     nth i s nan = 2 * first - nth (w - i) data nan) /\
  (forall i, (i < N)%nat -> nth (w - 1 + i) s nan = nth i data nan) /\
  (forall i, (i < w - 1)%nat ->
     nth (w - 1 + N + i) s nan = 2 * last - nth (N - 1 - i) data nan).
Proof.
  intros Hw s w N.
  assert (Ll : length (slice_rev data window_len 1) = (w - 1)%nat).
  { rewrite slice_rev_length. adjust_cases; lia. }
  assert (Lr : length (slice_rev data (-1) (- window_len)) = (w - 1)%nat).
  { rewrite slice_rev_length. adjust_cases; lia. }
  unfold s, padded. split; [|split; [|split]].
  - rewrite !length_app, !length_map, Ll, Lr. fold N. lia.
  - intros i Hi. rewrite app_nth1 by (rewrite length_map; lia).
    rewrite (nth_indep _ nan (2 * first - nan)) by (rewrite length_map; lia).
    rewrite (map_nth (fun x => 2 * first - x)). f_equal.
    rewrite slice_rev_nth by (adjust_cases; lia).
    f_equal. adjust_cases; lia.
  - intros i Hi. rewrite app_nth2 by (rewrite length_map; lia).
    rewrite length_map, Ll. rewrite app_nth1 by (fold N; lia). f_equal. lia.
  - intros i Hi. rewrite app_nth2 by (rewrite length_map; lia).
    rewrite length_map, Ll. rewrite app_nth2 by (fold N; lia).
    rewrite (nth_indep _ nan (2 * last - nan)) by (rewrite length_map; fold N; lia).
    rewrite (map_nth (fun x => 2 * last - x)). f_equal.
    rewrite slice_rev_nth by (fold N; adjust_cases; lia).
    f_equal. fold N. adjust_cases; lia.
Qed.

Lemma smooth_reflections_witness :
  padded (Series.values spiky) 3 10 13
  = [2 * 10 - 60; 2 * 10 - 11] ++ Series.values spiky ++ [2 * 13 - 13; 2 * 13 - 12.5].
Proof.
  destruct (smooth_reflections (Series.values spiky) 3 10 13) as (L & _).
  - simpl. lia.
  - apply (nth_ext _ _ nan nan).
    + rewrite L. reflexivity.
    + intros n _. do 12 (destruct n as [|n]; [reflexivity|]). now destruct n.
Defined.

(** * [extrap_sec] on a section whose bottom is complete *)

(** The loop changes nothing when the bottom cell of every column it
    visits holds a number. *)
Lemma fill_columns_all_skip dist fd : forall k g,
  (1 <= nrows g)%nat -> (k < ncols g)%nat ->
  (forall col, (1 <= col <= k)%nat -> isnan (get g (nrows g - 1) col) = false) ->
  fill_columns dist fd k g = (g, Normal tt).
Proof.
  induction k as [|k IH]; intros g Hrows Hk Hb; [reflexivity|].
  simpl. unfold bind.
  rewrite (column_step_run dist fd (S k) g g).
  - apply IH; auto; try lia. intros col Hc. apply Hb. lia.
  - apply step_skip with (r := nth (nrows g - 1) (rows g) []).
    + exact Hk.
    + now apply last_row_some.
    + apply (Hb (S k)). lia.
Qed.

(** X13.  When the bottom cell of every column from column 1 to the
    third-to-last holds a number, and so does the bottom cell of one of
    the last two columns, [extrap_sec] does its seed and nothing else:
    the loop writes no cell, and the missing cells above the bottom level
    stay missing, whatever the positions of the stations and [fd]. *)
Theorem extrap_sec_complete_bottom gsw lon lat fd g :
  (2 <= ncols g)%nat -> (1 <= nrows g)%nat -> rectangular g ->
  length lon = ncols g ->
  (forall col, (1 <= col)%nat -> (col + 2 < ncols g)%nat ->
     isnan (get g (nrows g - 1) col) = false) ->
  isnan (get g (nrows g - 1) (ncols g - 1)) = false \/
  isnan (get g (nrows g - 1) (ncols g - 2)) = false ->
  extrap_sec gsw lon lat fd g = (map_rows (seed_row (ncols g - 2)) g, Normal tt) /\
  forall i j, j <> (ncols g - 2)%nat ->
    get (map_rows (seed_row (ncols g - 2)) g) i j = get g i j.
Proof.
  intros Hn Hrows Hrect Hlon Hbottom Hlast. split.
  - unfold extrap_sec, bind. rewrite seed_cases.
    destruct (Nat.ltb_spec (ncols g) 2) as [|_]; [lia|].
    rewrite Hlon. apply fill_columns_all_skip.
    + now rewrite nrows_map_rows.
    + simpl. lia.
    + intros col Hc. rewrite nrows_map_rows. simpl in Hc.
      rewrite get_map_rows by lia.
      fold (get g (nrows g - 1) col) in *.
      pose proof (rectangular_row g (nrows g - 1) Hrect ltac:(lia)) as Hlen.
      unfold seed_row.
      destruct (isnan (cell (nth (nrows g - 1) (rows g) []) (ncols g - 2))) eqn:E.
      * destruct (Nat.eq_dec col (ncols g - 2)) as [->|Hne].
        -- rewrite cell_upd_eq by lia.
           replace (S (ncols g - 2)) with (ncols g - 1)%nat by lia.
           destruct Hlast as [H|H]; [exact H|]. unfold get in H. congruence.
        -- rewrite cell_upd_neq by auto. apply Hbottom; lia.
      * destruct (Nat.eq_dec col (ncols g - 2)) as [->|Hne]; [exact E|].
        apply Hbottom; lia.
  - intros i j Hj.
    destruct (Nat.lt_ge_cases i (nrows g)) as [Hi|Hi].
    + rewrite get_map_rows by exact Hi. unfold seed_row.
      destruct (isnan (cell (nth i (rows g) []) (ncols g - 2)));
        [|reflexivity].
      apply cell_upd_neq. auto.
    + rewrite !get_outside_rows; auto. now rewrite nrows_map_rows.
Qed.

Lemma extrap_sec_complete_bottom_witness :
  extrap_sec (spaced [1000; 2000; 500]) [0; 0; 0; 0] [0; 1; 2; 3] 1 gaps_above
  = (mkarr 4 [[1; nan; 4; 4]; [5; 6; 8; 8]; [9; 10; 11; 12]], Normal tt).
Proof.
  destruct (extrap_sec_complete_bottom (spaced [1000; 2000; 500])
              [0; 0; 0; 0] [0; 1; 2; 3] 1 gaps_above) as [E _].
  - cbv; lia.
  - cbv; lia.
  - repeat constructor.
  - reflexivity.
  - intros col H1 H2. change (ncols gaps_above) with 4%nat in H2.
    assert (col = 1)%nat as -> by lia. reflexivity.
  - left. reflexivity.
  - rewrite E. reflexivity.
Defined.

(** * The header of a Seabird file *)

Section CnvFacts.

Local Open Scope nat_scope.

Lemma split_length sep s :
  length (split sep s) = S (count_occ Ascii.ascii_dec s sep).
Proof.
  induction s as [|c t IH]; [reflexivity|]. simpl.
  destruct (Ascii.eqb_spec c sep) as [->|Hne].
  - simpl. rewrite IH. now destruct (Ascii.ascii_dec sep sep).
  - destruct (split sep t) as [|piece rest]; [discriminate|].
    simpl in *. rewrite IH. now destruct (Ascii.ascii_dec c sep).
Qed.

(** What the loop body does with the names, by the form of the line. *)
Lemma cnv_line_cases st k raw :
  let line := strip isspace raw in
  let rest names' :=
    mkheader
      (if startswith star_prefix line then header st ++ [line] else header st)
      (if startswith hash_prefix line then config st ++ [line] else config st)
      names'
      (if str_eqb line END_line then Some (k + 1) else header_length st) in
  (name_line line = false /\ cnv_line st k raw = Returns (rest (names st))) \/
  (name_line line = true /\ well_formed line /\
   cnv_line st k raw = Returns (rest (names st ++ [column_name line]))) \/
  (name_line line = true /\ ~ well_formed line /\
   (cnv_line st k raw = Raises (Builtin IndexError) \/
    cnv_line st k raw = Raises (Builtin ValueError))).
Proof.
  intros line rest. unfold cnv_line, name_line. fold line.
  destruct (occurs_in hash_name line); [right|left; auto].
  unfold well_formed, column_name.
  pose proof (split_length equals_sign line) as L1.
  destruct (split equals_sign line) as [|p0 [|field ps]] eqn:E1; simpl in L1;
    try discriminate.
  - right. split; auto. split; [lia|]. left. reflexivity.
  - cbn [nth_error nth].
    pose proof (split_length colon field) as L2.
    destruct (split colon field) as [|name [|unit [|x xs]]] eqn:E2; simpl in L2;
      try discriminate.
    + right. split; auto. split; [lia|]. right. reflexivity.
    + left. split; auto. split; [lia|]. reflexivity.
    + right. split; auto. split; [lia|]. right. reflexivity.
Qed.

Lemma app_if_last {A} (b : bool) (h t : list A) (x : A) :
  (if b then h ++ [x] else h) ++ t = h ++ (if b then x :: t else t).
Proof. destruct b; [rewrite <- app_assoc|]; reflexivity. Qed.

Lemma cnv_lines_returns lines : forall st k st',
  cnv_lines st k lines = Returns st' ->
  let stripped := map (strip isspace) lines in
  header st' = header st ++ filter (startswith star_prefix) stripped /\
  config st' = config st ++ filter (startswith hash_prefix) stripped /\
  names st' = names st ++ map column_name (filter name_line stripped) /\
  Forall well_formed (filter name_line stripped) /\
  header_length st' = end_of_header k stripped (header_length st).
Proof.
  induction lines as [|raw rest IH]; intros st k st' H.
  - simpl in *. injection H as <-. now rewrite !app_nil_r.
  - cbn [cnv_lines] in H. cbn [map filter end_of_header].
    destruct (cnv_line_cases st k raw) as [(N & E)|[(N & W & E)|(N & W & [E|E])]];
      rewrite E in H; cbn [and_then] in H; try discriminate;
      apply IH in H; cbn [header config names header_length] in H;
      destruct H as (H1 & H2 & H3 & H4 & H5);
      rewrite app_if_last in H1, H2; rewrite N.
    + repeat split; assumption.
    + rewrite <- app_assoc in H3. repeat split; try assumption.
      constructor; assumption.
Qed.

Lemma cnv_lines_well_formed lines : forall st k,
  Forall well_formed (filter name_line (map (strip isspace) lines)) ->
  exists st', cnv_lines st k lines = Returns st'.
Proof.
  induction lines as [|raw rest IH]; intros st k H; simpl in *.
  - now exists st.
  - destruct (cnv_line_cases st k raw) as [(N & E)|[(N & W & E)|(N & W & _)]];
      rewrite N in H.
    + rewrite E. simpl. now apply IH.
    + rewrite E. simpl. apply IH. now inversion H.
    + inversion H. contradiction.
Qed.

Lemma cnv_lines_raises lines : forall st k e,
  cnv_lines st k lines = Raises e ->
  e = Builtin IndexError \/ e = Builtin ValueError.
Proof.
  induction lines as [|raw rest IH]; intros st k e H; simpl in *; [discriminate|].
  destruct (cnv_line_cases st k raw) as [(N & E)|[(N & W & E)|(N & W & [E|E])]];
    rewrite E in H; simpl in H; eauto; injection H as <-; auto.
Qed.

(** The line [*END*] that sets [header_length] is the last one. *)
Lemma end_of_header_last stripped : forall k before,
  match end_of_header k stripped before with
  | Some n =>
      (before = Some n /\
       forall j, j < length stripped -> nth j stripped [] <> END_line) \/
      (k + 1 <= n <= k + length stripped /\
       nth (n - 1 - k) stripped [] = END_line /\
       forall j, n - k <= j < length stripped -> nth j stripped [] <> END_line)
  | None =>
      before = None /\
      forall j, j < length stripped -> nth j stripped [] <> END_line
  end.
Proof.
  induction stripped as [|l t IH]; intros k before; simpl.
  - destruct before; [left|]; split; auto; intros j Hj; lia.
  - specialize (IH (S k) (if str_eqb l END_line then Some (k + 1) else before)).
    destruct (end_of_header (S k) t _) as [n|].
    + destruct IH as [[Hb Hn]|(Hr & Hn & Hl)].
      * destruct (str_eqb l END_line) eqn:E.
        -- right. injection Hb as <-. split; [lia|]. split.
           ++ replace (k + 1 - 1 - k) with 0 by lia. now apply str_eqb_eq.
           ++ intros [|j] Hj; [lia|]. apply Hn. lia.
        -- left. split; auto. intros [|j] Hj.
           ++ intros F. apply str_eqb_eq in F. congruence.
           ++ apply Hn. lia.
      * right. split; [lia|]. split.
        -- replace (n - 1 - k) with (S (n - 1 - S k)) by lia. exact Hn.
        -- intros [|j] Hj; [lia|]. apply Hl. lia.
    + destruct IH as [Hb Hn]. destruct (str_eqb l END_line) eqn:E; [discriminate|].
      split; auto. intros [|j] Hj.
      * intros F. apply str_eqb_eq in F. congruence.
      * apply Hn. lia.
Qed.

End CnvFacts.

(** X14.  What the loop of [from_cnv] has collected when it ends, the
    lines being stripped of the spaces at their ends: [header] holds the
    lines that start with a star and [config] those that start with a
    hash, in the order of the file; [names] holds one name for each line
    in which [# name] occurs, what stands between its first [=] and the
    [:] that follows, normalized: the names have no capital letter and
    neither start nor end with a star; [header_length] is the number of
    the last line [*END*], counted from 1, and has no value when the file
    has no such line. *)
Theorem from_cnv_header_collects (lines : list str) (st : cnv_header) :
  from_cnv_header lines = Returns st ->
  let stripped := map (strip isspace) lines in
  header st = filter (startswith star_prefix) stripped /\
  config st = filter (startswith hash_prefix) stripped /\
  names st = map column_name (filter name_line stripped) /\
  Forall (fun name =>
            Forall (fun c => isupper c = false) name /\
            clear_of (Ascii.eqb star) (first_char name) /\
            clear_of (Ascii.eqb star) (last_char name)) (names st) /\
  match header_length st with
  | Some n =>
      (1 <= n <= length lines)%nat /\
      nth (n - 1) stripped [] = END_line /\
      forall j, (n <= j < length lines)%nat -> nth j stripped [] <> END_line
  | None => forall j, (j < length lines)%nat -> nth j stripped [] <> END_line
  end.
Proof.
  intros H stripped. apply cnv_lines_returns in H. simpl in H. fold stripped in H.
  destruct H as (H1 & H2 & H3 & _ & H5).
  split; [exact H1|]. split; [exact H2|]. split; [exact H3|]. split.
  - rewrite H3. apply Forall_forall. intros name Hin.
    apply in_map_iff in Hin. destruct Hin as (line & <- & _).
    apply normalize_names_clean.
  - rewrite H5. pose proof (end_of_header_last stripped 0 None) as E.
    assert (L : length stripped = length lines) by apply length_map.
    destruct (end_of_header 0 stripped None) as [n|].
    + destruct E as [[E _]|(E1 & E2 & E3)]; [discriminate|].
      rewrite L in *. split; [lia|]. split.
      * now replace (n - 1)%nat with (n - 1 - 0)%nat by lia.
      * intros j Hj. apply E3. lia.
    + destruct E as [_ E]. now rewrite L in E.
Qed.

Lemma from_cnv_header_collects_witness :
  from_cnv_header cnv_sample = Returns cnv_sample_header /\
  names cnv_sample_header
  = map column_name (filter name_line (map (strip isspace) cnv_sample)).
Proof.
  assert (E : from_cnv_header cnv_sample = Returns cnv_sample_header)
    by (vm_compute; reflexivity).
  split; [exact E|].
  exact (proj1 (proj2 (proj2
           (from_cnv_header_collects cnv_sample cnv_sample_header E)))).
Defined.

(** X15.  The loop of [from_cnv] reads the whole file exactly when every
    line in which [# name] occurs has an [=] and, between its first [=]
    and the next one, exactly one [:]; otherwise it raises [IndexError]
    (a line without [=]) or [ValueError] (no [:], or more than one), and
    nothing else. *)
Theorem from_cnv_header_returns_iff (lines : list str) :
  ((exists st, from_cnv_header lines = Returns st) <->
   Forall well_formed (filter name_line (map (strip isspace) lines))) /\
  (forall e, from_cnv_header lines = Raises e ->
     e = Builtin IndexError \/ e = Builtin ValueError).
Proof.
  split; [split|].
  - intros [st H]. apply cnv_lines_returns in H. tauto.
  - apply cnv_lines_well_formed.
  - apply cnv_lines_raises.
Qed.

(** * [plot_section] *)

Section SectionFacts.

Local Open Scope nat_scope.

(** A cell of the array [plot_section] hands to [extrap_sec]: the cell of
    the frame when it is finite, a NaN otherwise. *)
Lemma ma_filled_masked_invalid (g : ndarray) :
  ma_filled nan (masked_invalid g)
  = map_rows (map (fun x => if is_finite x then x else nan)) g.
Proof.
  unfold ma_filled, masked_invalid, map_rows. simpl. f_equal.
  induction (rows g) as [|r t IH]; [reflexivity|]. simpl. rewrite IH. f_equal.
  clear. induction r as [|x r IH]; [reflexivity|]. simpl. rewrite IH.
  now destruct (is_finite x).
Qed.

Lemma get_cleaned g i j :
  get (map_rows (map (fun x => if is_finite x then x else nan)) g) i j
  = if is_finite (get g i j) then get g i j else nan.
Proof.
  destruct (Nat.lt_ge_cases i (nrows g)) as [Hi|Hi].
  - rewrite get_map_rows by exact Hi. unfold get, cell.
    apply (map_nth (fun x => if is_finite x then x else nan)
             (nth i (rows g) []) nan j).
  - rewrite !get_outside_rows; auto. now rewrite nrows_map_rows.
Qed.

Lemma rectangular_cleaned g :
  rectangular g ->
  rectangular (map_rows (map (fun x => if is_finite x then x else nan)) g).
Proof.
  unfold rectangular, map_rows. simpl. intros H.
  apply Forall_map. eapply Forall_impl; [|exact H].
  intros r Hr. simpl. now rewrite length_map.
Qed.

Lemma get_maxdepth_returns (f : DataFrame.t) :
  1 <= nrows (DataFrame.values f) ->
  nrows (DataFrame.values f) = length (DataFrame.index f) ->
  exists h, get_maxdepth f = Normal h.
Proof.
  intros Hrows Hlen. unfold get_maxdepth.
  destruct (Nat.eqb_spec (nrows (DataFrame.values f)) 0) as [E|_]; [lia|].
  eexists. apply (collect_map _ (fun j => fold_left np_maximum
    (tl (map (fun pb => (fst pb * of_bool (snd pb))%float)
         (combine (DataFrame.index f)
            (map (fun r => notnull (cell r j)) (rows (DataFrame.values f))))))
    (hd nan (map (fun pb => (fst pb * of_bool (snd pb))%float)
         (combine (DataFrame.index f)
            (map (fun r => notnull (cell r j)) (rows (DataFrame.values f)))))))).
  intros j _. destruct (maxdepth_products f j Hlen) as [L _].
  destruct (map _ (combine _ _)); [simpl in L; lia | reflexivity].
Qed.

(** The loop of [extrap_sec] starts on the second-to-last column: when
    its bottom cell is still missing after the seed, it looks two columns
    to the right and finds none. *)
Lemma extrap_sec_deep_end gsw lon lat fd g :
  3 <= ncols g -> 1 <= nrows g -> rectangular g -> length lon = ncols g ->
  isnan (get g (nrows g - 1) (ncols g - 1)) = true ->
  isnan (get g (nrows g - 1) (ncols g - 2)) = true ->
  snd (extrap_sec gsw lon lat fd g) = Raised IndexError.
Proof.
  intros Hn Hrows Hrect Hlon Hlast Hprev. unfold extrap_sec, bind.
  rewrite seed_cases. destruct (Nat.ltb_spec (ncols g) 2) as [|_]; [lia|].
  rewrite Hlon. set (g0 := map_rows (seed_row (ncols g - 2)) g).
  assert (Hb : isnan (get g0 (nrows g0 - 1) (ncols g - 2)) = true).
  { unfold g0. rewrite nrows_map_rows, get_map_rows by lia.
    rewrite cell_seed_row_same by (rewrite rectangular_row; auto; lia).
    replace (S (ncols g - 2)) with (ncols g - 1) by lia.
    fold (get g (nrows g - 1) (ncols g - 2)) (get g (nrows g - 1) (ncols g - 1)).
    now rewrite Hprev. }
  destruct (ncols g - 2) as [|k] eqn:Ek; [lia|]. simpl fill_columns.
  unfold bind.
  destruct (fill_column (cumulative_distance gsw lon lat) fd (S k) g0)
    as [g1 r1] eqn:E.
  apply fill_column_inv in E.
  inversion E as [|r Hc Hr Hnan|r d0 d1 d2 Hc Hr Hnan E0 E1 E2]; subst.
  - reflexivity.
  - destruct (last_row_get _ _ (S k) Hr) as [Hcell _]. congruence.
  - change (ncols g0) with (ncols g) in Hc. lia.
Qed.

End SectionFacts.

(** X16.  [plot_section] with [filled=True] raises [IndexError] before it
    draws anything when, on the deepest level of the frame, the cells of
    the last two stations are both missing (not finite): the frame has at
    least three stations and one level, one longitude per station, and
    the default levels could be computed. *)
Theorem plot_section_filled_raises
    (gsw_distance : list float -> list float -> list float)
    (gsw_z_from_p : list float -> float -> list float)
    (np_mean : list float -> float)
    (interpolate : interp_kind -> list float -> list float -> float -> float)
    (default_levels : DataFrame.t -> result (list float))
    (self : DataFrame.t) (lon lat : list float) (dx : float) (kind : interp_kind)
    (levels : list float) :
  let g := DataFrame.values self in
  default_levels self = Normal levels ->
  DataFrame.aligned self ->
  (3 <= ncols g)%nat -> (1 <= nrows g)%nat -> length lon = ncols g ->
  is_finite (get g (nrows g - 1) (ncols g - 1)) = false ->
  is_finite (get g (nrows g - 1) (ncols g - 2)) = false ->
  plot_section gsw_distance gsw_z_from_p np_mean interpolate default_levels
    self lon lat true dx kind
  = Raised IndexError.
Proof.
  intros g Hlev [Hrect Hlen] Hn Hrows Hlon Hlast Hprev. fold g in Hrect, Hlen.
  unfold plot_section. rewrite Hlev.
  destruct (get_maxdepth_returns self Hrows Hlen) as [h ->].
  fold g. rewrite ma_filled_masked_invalid.
  set (g0 := map_rows (map (fun x => if is_finite x then x else nan)) g).
  pose proof (extrap_sec_deep_end gsw_distance lon lat 1 g0) as E.
  destruct (extrap_sec gsw_distance lon lat 1 g0) as [g1 r1].
  simpl in E. rewrite E; [reflexivity|..].
  - exact Hn.
  - unfold g0. now rewrite nrows_map_rows.
  - now apply rectangular_cleaned.
  - exact Hlon.
  - unfold g0. rewrite nrows_map_rows. change (ncols (map_rows _ g)) with (ncols g).
    rewrite get_cleaned, Hlast. reflexivity.
  - unfold g0. rewrite nrows_map_rows. change (ncols (map_rows _ g)) with (ncols g).
    rewrite get_cleaned, Hprev. reflexivity.
Qed.

Lemma plot_section_filled_raises_witness :
  plot_section (spaced [1000; 2000]) plain_z_from_p any_mean step_interpolate
    no_levels shoaling [0; 0; 0] [0; 1; 2] true 1 Linear
  = Raised IndexError.
Proof.
  apply (plot_section_filled_raises (spaced [1000; 2000]) plain_z_from_p any_mean
           step_interpolate no_levels shoaling [0; 0; 0] [0; 1; 2] 1 Linear []).
  - reflexivity.
  - split; [repeat constructor | reflexivity].
  - cbv; lia.
  - cbv; lia.
  - reflexivity.
  - reflexivity.
  - reflexivity.
Defined.
